(** * SSA transformation of miasm2 ([miasm2/analysis/ssa.py])

    A shallow embedding of the classes [SSA], [SSABlock] and [SSADiGraph]
    and the properties of the renaming, phi placement and reassembling
    algorithms. *)

From Stdlib Require Import List String ZArith Lia Bool Arith PeanoNat.
Import ListNotations.
Local Open Scope string_scope.
Local Open Scope list_scope.
Set Warnings "-register-all".

(** ** Expressions *)

(** [ExprId.name] is a [str], or the tuple [(name, index)] that
    [_gen_var_expr] builds (a tuple may nest when an SSA name is renamed
    again). *)
Inductive name : Type :=
| NStr (s : string)
| NTup (n : name) (index : nat).

Inductive expr : Type :=
| ExprId (n : name) (size : nat)
| ExprInt (v : Z) (size : nat)
| ExprMem (arg : expr) (size : nat)
| ExprOp (op : string) (args : list expr).

Fixpoint name_eqb (a b : name) : bool :=
  match a, b with
  | NStr s, NStr t => String.eqb s t
  | NTup n i, NTup m j => name_eqb n m && Nat.eqb i j
  | _, _ => false
  end.

Fixpoint expr_eqb (a b : expr) {struct a} : bool :=
  match a, b with
  | ExprId n s, ExprId m t => name_eqb n m && Nat.eqb s t
  | ExprInt v s, ExprInt w t => Z.eqb v w && Nat.eqb s t
  | ExprMem x s, ExprMem y t => expr_eqb x y && Nat.eqb s t
  | ExprOp o xs, ExprOp p ys =>
      String.eqb o p &&
      (fix all2 (l : list expr) (r : list expr) {struct l} : bool :=
         match l, r with
         | [], [] => true
         | x :: l', y :: r' => expr_eqb x y && all2 l' r'
         | _, _ => false
         end) xs ys
  | _, _ => false
  end.

(** ** Python containers *)

(** A [dict] in insertion order: assigning an existing key keeps its place,
    a new key goes to the end. *)
Section Dict.
Context {K V : Type} (eqb : K -> K -> bool).

Fixpoint dict_get (d : list (K * V)) (k : K) : option V :=
  match d with
  | [] => None
  | (k', v) :: d' => if eqb k k' then Some v else dict_get d' k
  end.

Definition dict_mem (d : list (K * V)) (k : K) : bool :=
  match dict_get d k with Some _ => true | None => false end.

Fixpoint dict_set (d : list (K * V)) (k : K) (v : V) : list (K * V) :=
  match d with
  | [] => [(k, v)]
  | (k', v') :: d' =>
      if eqb k k' then (k', v) :: d' else (k', v') :: dict_set d' k v
  end.

Fixpoint dict_del (d : list (K * V)) (k : K) : list (K * V) :=
  match d with
  | [] => []
  | (k', v') :: d' => if eqb k k' then d' else (k', v') :: dict_del d' k
  end.

Definition dict_keys (d : list (K * V)) : list K := map fst d.
End Dict.

(** A [set], kept as a list without repetition. *)
Section PySet.
Context {A : Type} (eqb : A -> A -> bool).

Fixpoint set_mem (x : A) (s : list A) : bool :=
  match s with
  | [] => false
  | y :: s' => eqb x y || set_mem x s'
  end.

Definition set_add (x : A) (s : list A) : list A :=
  if set_mem x s then s else s ++ [x].

Fixpoint remove_nth (i : nat) (s : list A) : list A :=
  match s, i with
  | [], _ => []
  | _ :: s', O => s'
  | y :: s', S j => y :: remove_nth j s'
  end.

(** [set.pop()] removes an arbitrary element: which one is left to the
    [choose] policy, read modulo the size of the set. *)
Definition set_pop (choose : list A -> nat) (s : list A) : option (A * list A) :=
  match s with
  | [] => None
  | _ :: _ =>
      let i := Nat.modulo (choose s) (List.length s) in
      match nth_error s i with
      | Some x => Some (x, remove_nth i s)
      | None => None
      end
  end.
End PySet.

(** ** Outcomes of a call *)

Inductive result (A : Type) : Type :=
| Ok (a : A)
| KeyError
| AttributeError
| IndexError
| OutOfFuel.
Arguments Ok {A} a.
Arguments KeyError {A}.
Arguments AttributeError {A}.
Arguments IndexError {A}.
Arguments OutOfFuel {A}.

Definition bind {A B : Type} (r : result A) (f : A -> result B) : result B :=
  match r with
  | Ok a => f a
  | KeyError => KeyError
  | AttributeError => AttributeError
  | IndexError => IndexError
  | OutOfFuel => OutOfFuel
  end.

Notation "x <- r ;; k" := (bind r (fun x => k))
  (at level 61, r at next level, right associativity).
Notation "' p <- r ;; k" := (bind r (fun p => k))
  (at level 61, p pattern, r at next level, right associativity).

(** ** The expression algebra used by the pass *)

(** Modelled from the spec: [Expr.replace_expr] of
    [miasm2.expression.expression] is not among the sources; section 6 gives
    it as the operation returning a new expression with the matching
    Identifier leaves substituted. Constants are kept, and memory and
    operator nodes are rebuilt over their rewritten children; a mapping whose
    key is no identifier matches no leaf. Only a one-entry mapping is ever
    passed. *)
Fixpoint replace_expr (k v e : expr) {struct e} : expr :=
  match e with
  | ExprId _ _ => if expr_eqb e k then v else e
  | ExprInt _ _ => e
  | ExprMem a s => ExprMem (replace_expr k v a) s
  | ExprOp o args => ExprOp o (map (replace_expr k v) args)
  end.

(** Modelled from the spec: [ExprDissector.id_] of
    [miasm2.expression.expression_helper] is not among the sources; section 2
    (ExprWalker) gives it as the enumeration of the identifier leaves of an
    expression tree. The result is a set. *)
Fixpoint id_ (e : expr) : list expr :=
  match e with
  | ExprId _ _ => [e]
  | ExprInt _ _ => []
  | ExprMem a _ => id_ a
  | ExprOp _ args =>
      fold_left (fun acc a => fold_left (fun s x => set_add expr_eqb x s) (id_ a) acc)
                args []
  end.

(** Modelled from the spec: [ExprDissector.variables] is not among the
    sources; sections 2 and 4.1 give it as the enumeration of the free
    identifiers of an expression. *)
Definition variables (e : expr) : list expr := id_ e.

(** ** IR blocks *)

Definition label := nat.

(** An [AssignBlock] is a [dict] from destination to source. *)
Definition AssignBlock := list (expr * expr).

Record irbloc : Type := mk_irbloc {
  ib_label : label;
  irs : list AssignBlock
}.

(** Block objects live in a store and are named by their address, so that
    the blocks of the IRA and the copies held by the pass can be told
    apart. *)
Definition ref := nat.
Definition heap := list irbloc.

(** The IRA instance and the services of its graph. None of it is written
    by the pass, apart from the block objects in the store. *)
Record IRA : Type := mk_IRA {
  ira_blocks : list (label * ref);
  IRDst : expr;
  arch_pc : list expr;
  (* graph.successors_iter *)
  successors_iter : label -> list label;
  (* graph.walk_depth_first_forward(head) *)
  walk_depth_first_forward : label -> list label;
  (* graph.compute_dominance_frontier(head) *)
  compute_dominance_frontier : label -> list (label * list label);
  (* walk_depth_first_forward(head) of graph.compute_dominator_tree(head) *)
  dominator_tree_walk : label -> list label;
  (* successors_iter of graph.compute_dominator_tree(head) *)
  dominator_tree_successors : label -> label -> list label
}.

(** Modelled from the spec: [ira.copy_block] is not among the sources;
    section 6 gives it as [clone_block(label)], returning a new block object
    with the label and a copy of the assignment blocks of the block of the
    IRA. *)
Definition copy_block (ira : IRA) (lbl : label) (h : heap) : result (ref * heap) :=
  match dict_get Nat.eqb (ira_blocks ira) lbl with
  | None => KeyError
  | Some r =>
      match nth_error h r with
      | None => KeyError
      | Some ib => Ok (List.length h, h ++ [mk_irbloc (ib_label ib) (irs ib)])
      end
  end.

(** ** class SSA *)

Record SSA : Type := mk_SSA {
  store : heap;
  blocks : list (label * ref);
  _stack_rhs : list (expr * nat);
  _stack_lhs : list (expr * nat);
  expressions : list (expr * expr);
  (* SSADiGraph *)
  defs : list (expr * list label);
  _phinodes : list (label * list (expr * expr))
}.

Definition set_store (h : heap) (s : SSA) : SSA :=
  mk_SSA h (blocks s) (_stack_rhs s) (_stack_lhs s) (expressions s) (defs s) (_phinodes s).
Definition set_blocks (b : list (label * ref)) (s : SSA) : SSA :=
  mk_SSA (store s) b (_stack_rhs s) (_stack_lhs s) (expressions s) (defs s) (_phinodes s).
Definition set_stack_rhs (d : list (expr * nat)) (s : SSA) : SSA :=
  mk_SSA (store s) (blocks s) d (_stack_lhs s) (expressions s) (defs s) (_phinodes s).
Definition set_stack_lhs (d : list (expr * nat)) (s : SSA) : SSA :=
  mk_SSA (store s) (blocks s) (_stack_rhs s) d (expressions s) (defs s) (_phinodes s).
Definition set_expressions (d : list (expr * expr)) (s : SSA) : SSA :=
  mk_SSA (store s) (blocks s) (_stack_rhs s) (_stack_lhs s) d (defs s) (_phinodes s).
Definition set_defs (d : list (expr * list label)) (s : SSA) : SSA :=
  mk_SSA (store s) (blocks s) (_stack_rhs s) (_stack_lhs s) (expressions s) d (_phinodes s).
Definition set_phinodes (d : list (label * list (expr * expr))) (s : SSA) : SSA :=
  mk_SSA (store s) (blocks s) (_stack_rhs s) (_stack_lhs s) (expressions s) (defs s) d.

(** [SSA.__init__]: the state of a new instance over the store [h]. *)
Definition init (h : heap) : SSA := mk_SSA h [] [] [] [] [] [].

(** [SSA._copy_block] *)
Definition _copy_block (ira : IRA) (lbl : label) (s : SSA) : result (ref * SSA) :=
  '(r, h) <- copy_block ira lbl (store s) ;;
  match nth_error h r with
  | None => KeyError
  | Some ib_ssa =>
      Ok (r, set_blocks (dict_set Nat.eqb (blocks s) (ib_label ib_ssa) r) (set_store h s))
  end.

(** [SSA.get_block] *)
Definition get_block (ira : IRA) (block_label : label) (s : SSA) : result (ref * SSA) :=
  match dict_get Nat.eqb (blocks s) block_label with
  | None => _copy_block ira block_label s
  | Some ib => Ok (ib, s)
  end.

(** [SSA.reverse_variable] *)
Definition reverse_variable (variable : expr) : result expr :=
  match variable with
  | ExprId (NTup n _) size => Ok (ExprId n size)
  | ExprId (NStr n) size => Ok (ExprId (NStr n) size)
  | _ => AttributeError
  end.

(** [SSA._gen_var_expr] *)
Definition _gen_var_expr (v : expr) (stack : list (expr * nat)) : result expr :=
  match dict_get expr_eqb stack v with
  | None => KeyError
  | Some index =>
      match v with
      | ExprId n size => Ok (ExprId (NTup n index) size)
      | _ => AttributeError
      end
  end.

(** [SSA._transform_var_rhs] *)
Definition _transform_var_rhs (v : expr) (s : SSA) : result expr :=
  if negb (dict_mem expr_eqb (_stack_rhs s) v) then Ok v
  else _gen_var_expr v (_stack_rhs s).

(** [SSA._transform_var_lhs] *)
Definition _transform_var_lhs (v : expr) (s : SSA) : result (expr * SSA) :=
  let s1 :=
    if negb (dict_mem expr_eqb (_stack_lhs s) v)
    then set_stack_lhs (dict_set expr_eqb (_stack_lhs s) v 0) s
    else s in
  match dict_get expr_eqb (_stack_lhs s1) v with
  | None => KeyError
  | Some n =>
      let s2 := set_stack_rhs (dict_set expr_eqb (_stack_rhs s1) v n) s1 in
      e <- _gen_var_expr v (_stack_lhs s2) ;;
      Ok (e, s2)
  end.

(** [SSA._transform_expression_rhs] *)
Definition _transform_expression_rhs (src : expr) (s : SSA) : result expr :=
  fold_left
    (fun acc v =>
       src_ssa <- acc ;;
       v_ssa <- _transform_var_rhs v s ;;
       Ok (replace_expr v v_ssa src_ssa))
    (variables src) (Ok src).

Definition is_ExprMem (e : expr) : bool :=
  match e with ExprMem _ _ => true | _ => false end.

(** [SSA._transform_expression_lhs] *)
Definition _transform_expression_lhs (dst : expr) (s : SSA) : result (expr * SSA) :=
  if is_ExprMem dst then
    e <- _transform_expression_rhs dst s ;;
    Ok (e, s)
  else
    '(e, s1) <- _transform_var_lhs dst s ;;
    match dict_get expr_eqb (_stack_lhs s1) dst with
    | None => KeyError
    | Some n => Ok (e, set_stack_lhs (dict_set expr_eqb (_stack_lhs s1) dst (n + 1)) s1)
    end.

(** [list.insert(0, x)] *)
Definition insert0 {A : Type} (x : A) (l : list A) : list A := x :: l.

(** [SSA._parallel_instructions]: an instruction [ExprAff(dst, src)] is
    kept as the pair of its destination and source. *)
Definition _parallel_instructions (assignblk : AssignBlock) : list (expr * expr) :=
  fold_left
    (fun instructions aff =>
       if is_ExprMem (fst aff) then insert0 aff instructions
       else instructions ++ [aff])
    assignblk [].

(** The first loop of [_rename_expressions]: the right-hand sides. *)
Fixpoint transform_rhs (instructions : list (expr * expr)) (s : SSA)
  : result (list expr) :=
  match instructions with
  | [] => Ok []
  | e :: rest =>
      src_ssa <- _transform_expression_rhs (snd e) s ;;
      rhs <- transform_rhs rest s ;;
      Ok (src_ssa :: rhs)
  end.

(** The second loop of [_rename_expressions]: the left-hand sides, each
    taking its source from the front of the queue [rhs]. *)
Fixpoint transform_lhs (instructions : list (expr * expr)) (rhs : list expr)
  (assignblk_ssa : AssignBlock) (s : SSA) : result (AssignBlock * SSA) :=
  match instructions with
  | [] => Ok (assignblk_ssa, s)
  | e :: rest =>
      '(dst_ssa, s1) <- _transform_expression_lhs (fst e) s ;;
      match rhs with
      | [] => IndexError
      | src_ssa :: rhs' =>
          let s2 := set_expressions (dict_set expr_eqb (expressions s1) dst_ssa src_ssa) s1 in
          transform_lhs rest rhs' (dict_set expr_eqb assignblk_ssa dst_ssa src_ssa) s2
      end
  end.

(** The body of the loop of [_rename_expressions] for one [AssignBlock]. *)
Definition rename_assignblk (assignblk : AssignBlock) (s : SSA)
  : result (AssignBlock * SSA) :=
  let instructions := _parallel_instructions assignblk in
  rhs <- transform_rhs instructions s ;;
  transform_lhs instructions rhs [] s.

Fixpoint list_set {A : Type} (l : list A) (i : nat) (x : A) : list A :=
  match l, i with
  | [], _ => []
  | _ :: l', O => x :: l'
  | y :: l', S j => y :: list_set l' j x
  end.

(** [ib.irs[index] = assignblk_ssa] on the block object at [r]. *)
Definition set_irs_at (r : ref) (index : nat) (a : AssignBlock) (h : heap) : heap :=
  match nth_error h r with
  | None => h
  | Some ib => list_set h r (mk_irbloc (ib_label ib) (list_set (irs ib) index a))
  end.

Fixpoint rename_irs (r : ref) (index : nat) (todo : list AssignBlock) (s : SSA)
  : result SSA :=
  match todo with
  | [] => Ok s
  | assignblk :: rest =>
      '(assignblk_ssa, s1) <- rename_assignblk assignblk s ;;
      rename_irs r (S index) rest (set_store (set_irs_at r index assignblk_ssa (store s1)) s1)
  end.

(** [SSA._rename_expressions] *)
Definition _rename_expressions (ira : IRA) (lbl : label) (s : SSA) : result SSA :=
  '(ib, s1) <- get_block ira lbl s ;;
  match nth_error (store s1) ib with
  | None => KeyError
  | Some b => rename_irs ib 0 (irs b) s1
  end.

(** ** class SSABlock *)

Module SSABlock.

(** [SSABlock.transform] *)
Definition transform (ira : IRA) (lbl : label) (s : SSA) : result SSA :=
  _rename_expressions ira lbl s.

(** The [for] loop of [reassemble_expr] that adds the identifiers of the
    right-hand side to the worklist. *)
Definition add_rhs_ids (expressions : list (expr * expr)) (ids_rhs todo : list expr)
  : list expr :=
  fold_left
    (fun todo id_rhs =>
       if dict_mem expr_eqb expressions id_rhs then set_add expr_eqb id_rhs todo
       else todo)
    ids_rhs todo.

(** The [while] loop of [reassemble_expr]; [fuel] bounds the number of
    iterations. *)
Fixpoint reassemble_loop (choose : list expr -> nat) (expressions : list (expr * expr))
  (fuel : nat) (todo : list expr) (e : expr) {struct fuel} : result expr :=
  match todo with
  | [] => Ok e
  | _ :: _ =>
      match fuel with
      | O => OutOfFuel
      | S fuel' =>
          match set_pop choose todo with
          | None => IndexError
          | Some (cur, todo1) =>
              match dict_get expr_eqb expressions cur with
              | None => KeyError
              | Some cur_rhs =>
                  reassemble_loop choose expressions fuel'
                    (add_rhs_ids expressions (id_ cur_rhs) todo1)
                    (replace_expr cur cur_rhs e)
              end
          end
      end
  end.

(** [SSABlock.reassemble_expr] *)
Definition reassemble_expr (choose : list expr -> nat) (fuel : nat) (s : SSA) (e : expr)
  : result expr :=
  reassemble_loop choose (expressions s) fuel [e] e.

End SSABlock.

(** ** class SSAPath *)

Module SSAPath.

(** [SSAPath.transform] *)
Fixpoint transform (ira : IRA) (path : list label) (s : SSA) : result SSA :=
  match path with
  | [] => Ok s
  | block :: rest =>
      s1 <- _rename_expressions ira block s ;;
      transform ira rest s1
  end.

End SSAPath.

(** ** class SSADiGraph *)

Module SSADiGraph.

Definition is_ExprId (e : expr) : bool :=
  match e with ExprId _ _ => true | _ => false end.

(** The destinations of a block, [dst for assignblk in ib.irs for dst in assignblk]. *)
Definition ir_dsts (ib : irbloc) : list expr :=
  flat_map (fun assignblk => dict_keys assignblk) (irs ib).

(** [self.defs.setdefault(dst, set()).add(lbl)] *)
Definition defs_add (defs : list (expr * list label)) (dst : expr) (lbl : label)
  : list (expr * list label) :=
  match dict_get expr_eqb defs dst with
  | None => dict_set expr_eqb defs dst [lbl]
  | Some blocks => dict_set expr_eqb defs dst (set_add Nat.eqb lbl blocks)
  end.

Definition instruction_pointer (ira : IRA) : list expr := arch_pc ira ++ [IRDst ira].

Definition init_defs_block (ira : IRA) (ib : irbloc) (defs : list (expr * list label))
  : list (expr * list label) :=
  fold_left
    (fun defs dst =>
       if is_ExprId dst then
         if set_mem expr_eqb dst (instruction_pointer ira) then defs
         else defs_add defs dst (ib_label ib)
       else defs)
    (ir_dsts ib) defs.

Fixpoint init_defs_walk (ira : IRA) (walk : list label) (s : SSA) : result SSA :=
  match walk with
  | [] => Ok s
  | block_label :: rest =>
      '(r, s1) <- get_block ira block_label s ;;
      match nth_error (store s1) r with
      | None => KeyError
      | Some ib => init_defs_walk ira rest (set_defs (init_defs_block ira ib (defs s1)) s1)
      end
  end.

(** [SSADiGraph._init_variable_defs] *)
Definition _init_variable_defs (ira : IRA) (head : label) (s : SSA) : result SSA :=
  init_defs_walk ira (walk_depth_first_forward ira head) s.

(** [Expr.size]; an operation has the size of its first argument. *)
Definition size_of (e : expr) : nat :=
  match e with
  | ExprId _ size | ExprInt _ size | ExprMem _ size => size
  | ExprOp _ (ExprId _ size :: _) | ExprOp _ (ExprInt _ size :: _)
  | ExprOp _ (ExprMem _ size :: _) => size
  | ExprOp _ _ => 0
  end.

(** [SSADiGraph._gen_empty_phi], of which only the source is used. *)
Definition _gen_empty_phi (variable : expr) : expr :=
  ExprId (NStr "phi") (size_of variable).

(** [self._phinodes.setdefault(node, dict())[variable] = phi] *)
Definition phinodes_place (phinodes : list (label * list (expr * expr)))
  (node : label) (variable phi : expr) : list (label * list (expr * expr)) :=
  match dict_get Nat.eqb phinodes node with
  | None => dict_set Nat.eqb phinodes node [(variable, phi)]
  | Some d => dict_set Nat.eqb phinodes node (dict_set expr_eqb d variable phi)
  end.

(** The worklist state of [_place_phi] for one variable. *)
Record placing : Type := mk_placing {
  todo : list label;
  intodo : list label;
  done : list label;
  placed : list (label * list (expr * expr))
}.

(** The body of the walk through a block's dominance frontier. *)
Definition place_node (variable : expr) (p : placing) (node : label) : placing :=
  if set_mem Nat.eqb node (done p) then p
  else
    let phinodes := phinodes_place (placed p) node variable (_gen_empty_phi variable) in
    let done' := set_add Nat.eqb node (done p) in
    if negb (set_mem Nat.eqb node (intodo p))
    then mk_placing (set_add Nat.eqb node (todo p)) (set_add Nat.eqb node (intodo p))
                    done' phinodes
    else mk_placing (todo p) (intodo p) done' phinodes.

(** [frontier.get(block_label, [])] *)
Definition frontier_get (frontier : list (label * list label)) (block_label : label)
  : list label :=
  match dict_get Nat.eqb frontier block_label with
  | Some nodes => nodes
  | None => []
  end.

(** The [while todo] loop of [_place_phi]. *)
Fixpoint place_loop (choose : list label -> nat) (frontier : list (label * list label))
  (variable : expr) (fuel : nat) (p : placing) {struct fuel} : result placing :=
  match todo p with
  | [] => Ok p
  | _ :: _ =>
      match fuel with
      | O => OutOfFuel
      | S fuel' =>
          match set_pop choose (todo p) with
          | None => IndexError
          | Some (block_label, todo1) =>
              place_loop choose frontier variable fuel'
                (fold_left (place_node variable) (frontier_get frontier block_label)
                   (mk_placing todo1 (intodo p) (done p) (placed p)))
          end
      end
  end.

(** The worklist of one variable before the loop: its definition blocks. *)
Definition place_start (blocks : list label) (phinodes : list (label * list (expr * expr)))
  : placing :=
  fold_left
    (fun p block_label =>
       mk_placing (set_add Nat.eqb block_label (todo p))
                  (set_add Nat.eqb block_label (intodo p)) (done p) (placed p))
    blocks (mk_placing [] [] [] phinodes).

(** The body of [for variable in self.defs]. *)
Definition place_variable (choose : list label -> nat) (frontier : list (label * list label))
  (fuel : nat) (variable : expr) (blocks : list label)
  (phinodes : list (label * list (expr * expr))) : result placing :=
  place_loop choose frontier variable fuel (place_start blocks phinodes).

Fixpoint place_defs (choose : list label -> nat) (frontier : list (label * list label))
  (fuel : nat) (defs : list (expr * list label))
  (phinodes : list (label * list (expr * expr)))
  : result (list (label * list (expr * expr))) :=
  match defs with
  | [] => Ok phinodes
  | (variable, blocks) :: rest =>
      p <- place_variable choose frontier fuel variable blocks phinodes ;;
      place_defs choose frontier fuel rest (placed p)
  end.

(** [SSADiGraph._place_phi] *)
Definition _place_phi (choose : list label -> nat) (fuel : nat) (ira : IRA) (head : label)
  (s : SSA) : result SSA :=
  phinodes <- place_defs choose (compute_dominance_frontier ira head) fuel (defs s)
                (_phinodes s) ;;
  Ok (set_phinodes phinodes s).

(** [SSADiGraph._fill_phi] *)
Definition _fill_phi (args : list expr) : expr := ExprOp "phi" args.

(** [SSADiGraph._transform_phi_rhs] *)
Definition _transform_phi_rhs (src : expr) (s : SSA) : result expr :=
  e <- reverse_variable src ;;
  _transform_expression_rhs e s.

(** [self._phinodes.get(lbl, [])], as the list of its keys. *)
Definition phinodes_keys (s : SSA) (lbl : label) : list expr :=
  match dict_get Nat.eqb (_phinodes s) lbl with
  | Some d => dict_keys d
  | None => []
  end.

(** The body of the loop of [_rename_phi_lhs]: the payload is popped,
    then the destination is renamed and takes the payload. *)
Definition rename_phi_lhs_dst (lbl : label) (s : SSA) (dst : expr) : result SSA :=
  match dict_get Nat.eqb (_phinodes s) lbl with
  | None => KeyError
  | Some d =>
      match dict_get expr_eqb d dst with
      | None => KeyError
      | Some payload =>
          let s1 := set_phinodes (dict_set Nat.eqb (_phinodes s) lbl (dict_del expr_eqb d dst)) s in
          '(dst_ssa, s2) <- _transform_expression_lhs dst s1 ;;
          match dict_get Nat.eqb (_phinodes s2) lbl with
          | None => KeyError
          | Some d2 =>
              Ok (set_phinodes
                    (dict_set Nat.eqb (_phinodes s2) lbl (dict_set expr_eqb d2 dst_ssa payload))
                    s2)
          end
      end
  end.

(** [SSADiGraph._rename_phi_lhs] *)
Definition _rename_phi_lhs (lbl : label) (s : SSA) : result SSA :=
  fold_left (fun acc dst => s1 <- acc ;; rename_phi_lhs_dst lbl s1 dst)
            (phinodes_keys s lbl) (Ok s).

Definition is_empty_phi (src : expr) : bool :=
  match src with
  | ExprId n _ => name_eqb n (NStr "phi")
  | _ => false
  end.

(** The body of the loop of [_rename_phi_rhs]. *)
Definition rename_phi_rhs_dst (successor : label) (s : SSA) (dst : expr) : result SSA :=
  match dict_get Nat.eqb (_phinodes s) successor with
  | None => KeyError
  | Some d =>
      match dict_get expr_eqb d dst with
      | None => KeyError
      | Some src =>
          src_ssa <- _transform_phi_rhs dst s ;;
          e <- (if is_empty_phi src then Ok (_fill_phi [src_ssa])
                else match src with
                     | ExprOp _ args => Ok (_fill_phi (src_ssa :: args))
                     | _ => AttributeError
                     end) ;;
          Ok (set_phinodes (dict_set Nat.eqb (_phinodes s) successor (dict_set expr_eqb d dst e)) s)
      end
  end.

(** [SSADiGraph._rename_phi_rhs] *)
Definition _rename_phi_rhs (successor : label) (s : SSA) : result SSA :=
  fold_left (fun acc dst => s1 <- acc ;; rename_phi_rhs_dst successor s1 dst)
            (phinodes_keys s successor) (Ok s).

(** The body of the walk of [_rename] over one block. The list [stack]
    has its top at the head. *)
Definition rename_block (ira : IRA) (head : label) (block_label : label)
  (stack : list (list (expr * nat))) (s : SSA)
  : result (list (list (expr * nat)) * SSA) :=
  match stack with
  | [] => IndexError
  | top :: stack1 =>
      let s0 := set_stack_rhs top s in
      s1 <- _rename_phi_lhs block_label s0 ;;
      s2 <- _rename_expressions ira block_label s1 ;;
      s3 <- fold_left (fun acc successor => s' <- acc ;; _rename_phi_rhs successor s')
              (successors_iter ira block_label) (Ok s2) ;;
      Ok (fold_left (fun stack _ => _stack_rhs s3 :: stack)
            (dominator_tree_successors ira head block_label) stack1, s3)
  end.

Fixpoint rename_walk (ira : IRA) (head : label) (walk : list label)
  (stack : list (list (expr * nat))) (s : SSA) : result SSA :=
  match walk with
  | [] => Ok s
  | block_label :: rest =>
      '(stack1, s1) <- rename_block ira head block_label stack s ;;
      rename_walk ira head rest stack1 s1
  end.

(** [SSADiGraph._rename] *)
Definition _rename (ira : IRA) (head : label) (s : SSA) : result SSA :=
  rename_walk ira head (dominator_tree_walk ira head) [_stack_rhs s] s.

(** [SSADiGraph._insert_phi] *)
Definition _insert_phi (s : SSA) : SSA :=
  fold_left
    (fun s block =>
       fold_left
         (fun s phi => set_expressions (dict_set expr_eqb (expressions s) (fst phi) (snd phi)) s)
         (snd block) s)
    (_phinodes s) s.

(** [ib.irs.insert(0, assignblk)] on the block object at [r]. *)
Definition insert_irs0 (r : ref) (a : AssignBlock) (h : heap) : heap :=
  match nth_error h r with
  | None => h
  | Some ib => list_set h r (mk_irbloc (ib_label ib) (insert0 a (irs ib)))
  end.

Fixpoint convert_phi_blocks (ira : IRA) (nodes : list (label * list (expr * expr)))
  (s : SSA) : result SSA :=
  match nodes with
  | [] => Ok s
  | (block_label, phis) :: rest =>
      '(ib, s1) <- get_block ira block_label s ;;
      let assignblk :=
        fold_left (fun a phi => dict_set expr_eqb a (fst phi) (snd phi)) phis [] in
      convert_phi_blocks ira rest (set_store (insert_irs0 ib assignblk (store s1)) s1)
  end.

(** [SSADiGraph._convert_phi] *)
Definition _convert_phi (ira : IRA) (s : SSA) : result SSA :=
  convert_phi_blocks ira (_phinodes s) s.

(** [SSADiGraph.transform] *)
Definition transform (choose : list label -> nat) (fuel : nat) (ira : IRA) (head : label)
  (s : SSA) : result SSA :=
  s1 <- _init_variable_defs ira head s ;;
  s2 <- _place_phi choose fuel ira head s1 ;;
  s3 <- _rename ira head s2 ;;
  _convert_phi ira (_insert_phi s3).

End SSADiGraph.

(** ** Statements of the specification, for comparison *)

Definition dst_is_mem (aff : expr * expr) : bool := is_ExprMem (fst aff).

(** Section 4.1 of the specification: memory destinations first, then
    identifier destinations, each group in input order. *)
Definition memory_first_in_order (assignblk : AssignBlock) : list (expr * expr) :=
  filter dst_is_mem assignblk ++ filter (fun aff => negb (dst_is_mem aff)) assignblk.

(** The version the next definition of [v] receives, [counter[v]] in the
    words of the specification. *)
Definition counter (s : SSA) (v : expr) : nat :=
  match dict_get expr_eqb (_stack_lhs s) v with
  | Some n => n
  | None => 0
  end.

(** Section 4.1, phase 1: an identifier [v] with a reaching version becomes
    the SSA name of that version, any other is left as it is. *)
Definition rename_var (stack_rhs : list (expr * nat)) (v : expr) : expr :=
  match v, dict_get expr_eqb stack_rhs v with
  | ExprId n size, Some index => ExprId (NTup n index) size
  | _, _ => v
  end.

Definition rename_rhs (stack_rhs : list (expr * nat)) (src : expr) : expr :=
  fold_left (fun acc v => replace_expr v (rename_var stack_rhs v) acc) (variables src) src.

(** Section 4.1, phase 2: an identifier destination takes the version
    [counter[v]], a memory destination is rewritten as a right-hand side. *)
Definition rename_dst (s : SSA) (dst : expr) : expr :=
  match dst with
  | ExprId n size => ExprId (NTup n (counter s dst)) size
  | _ => rename_rhs (_stack_rhs s) dst
  end.

(** Section 4.1, the two-phase rename of an AssignBlock: every source, and
    every memory destination, is renamed with the versions that reach the
    block; every identifier destination takes its counter. *)
Definition two_phase_rename (s : SSA) (assignblk : AssignBlock) : AssignBlock :=
  fold_left
    (fun out aff =>
       dict_set expr_eqb out (rename_dst s (fst aff)) (rename_rhs (_stack_rhs s) (snd aff)))
    (_parallel_instructions assignblk) [].

Definition supported_dst (dst : expr) : bool :=
  match dst with
  | ExprId _ _ | ExprMem _ _ => true
  | _ => false
  end.

(** The blocks of the IRA are registered under their own label, in the
    store [h] the pass starts from. *)
Definition well_labelled (ira : IRA) (h : heap) : bool :=
  forallb
    (fun entry =>
       match nth_error h (snd entry) with
       | Some ib => Nat.eqb (ib_label ib) (fst entry)
       | None => false
       end)
    (ira_blocks ira).

(** The pass owns its copies only: the block objects of the store [h] it
    started from are as they were, and every block it holds was allocated
    after them. *)
Definition owned (h : heap) (s : SSA) : Prop :=
  firstn (List.length h) (store s) = h
  /\ forall lbl r, In (lbl, r) (blocks s) -> List.length h <= r.

(** A label that has a copy keeps that copy. *)
Definition keeps_clones (s s' : SSA) : Prop :=
  forall lbl r, dict_get Nat.eqb (blocks s) lbl = Some r ->
                dict_get Nat.eqb (blocks s') lbl = Some r.

(** The operands of a phi function; the empty phi has none. *)
Definition phi_operands (src : expr) : list expr :=
  match src with
  | ExprOp _ args => args
  | _ => []
  end.

(** The number of edges of the CFG into [lbl] that leave one of [blocks]. *)
Definition in_edges_from (ira : IRA) (blocks : list label) (lbl : label) : nat :=
  count_occ Nat.eq_dec (flat_map (successors_iter ira) blocks) lbl.

(** The phi functions of every block have distinct destinations, and as
    many operands as [seen] holds occurrences of the block. *)
Definition phis_arity (seen : list label) (phinodes : list (label * list (expr * expr)))
  : Prop :=
  forall lbl phis,
    dict_get Nat.eqb phinodes lbl = Some phis ->
    NoDup (dict_keys phis)
    /\ forall dst src, In (dst, src) phis ->
         List.length (phi_operands src) = count_occ Nat.eq_dec seen lbl.

(** [versions v dst]: [dst] is the variable [v], or an SSA name made from
    it by [_gen_var_expr]. *)
Inductive versions (v : expr) : expr -> Prop :=
| versions_refl : versions v v
| versions_step (n : name) (size index : nat) :
    versions v (ExprId n size) -> versions v (ExprId (NTup n index) size).

(** Section 4.3: the iterated dominance frontier of a set of blocks in the
    map [DF] of the graph service, the least set that holds [DF[b]] for
    every block [b] of [blocks] and for every block of the set itself. A
    block without an entry in the map has no frontier. *)
Inductive idf (frontier : list (label * list label)) (blocks : list label)
  : label -> Prop :=
| idf_def (b n : label) (nodes : list label) :
    In b blocks -> dict_get Nat.eqb frontier b = Some nodes -> In n nodes ->
    idf frontier blocks n
| idf_step (b n : label) (nodes : list label) :
    idf frontier blocks b -> dict_get Nat.eqb frontier b = Some nodes -> In n nodes ->
    idf frontier blocks n.

(** The phi function of [variable] in the block [node], [PhiNodes[n][v]]. *)
Definition phi_at (phinodes : list (label * list (expr * expr))) (node : label)
  (variable : expr) : option expr :=
  match dict_get Nat.eqb phinodes node with
  | Some d => dict_get expr_eqb d variable
  | None => None
  end.

(** Modelled from the spec: the dominator tree returned by
    [graph.compute_dominator_tree] and its walk are not among the sources;
    section 4.4 gives the walk as the depth-first pre-order of the tree.
    The children of a block are listed in the order in which the walk
    visits them. *)
Inductive tree : Type :=
| Node (root : label) (children : list tree).

(** Modelled from the spec: [walk_depth_first_forward] of the dominator
    tree, the depth-first pre-order walk of section 4.4. *)
Fixpoint preorder (t : tree) : list label :=
  match t with
  | Node root children => root :: flat_map preorder children
  end.

(** The dominator tree service of the IRA has, for every block of the
    tree, as many successors as the block has children. *)
Fixpoint agrees (ira : IRA) (head : label) (t : tree) : bool :=
  match t with
  | Node root children =>
      Nat.eqb (List.length (dominator_tree_successors ira head root)) (List.length children)
      && forallb (agrees ira head) children
  end.

(** Steps 2 to 4 of section 4.4 for one block, the processing of the block
    proper: the phi destinations, the body, the operands of the phi
    functions of the successors. *)
Definition rename_body (ira : IRA) (block_label : label) (s : SSA) : result SSA :=
  s1 <- SSADiGraph._rename_phi_lhs block_label s ;;
  s2 <- _rename_expressions ira block_label s1 ;;
  fold_left (fun acc successor => s' <- acc ;; SSADiGraph._rename_phi_rhs successor s')
    (successors_iter ira block_label) (Ok s2).

(** Section 9: the walk as a recursion over the dominator tree whose calls
    carry the [rhs_stack] by value. A block starts from the [rhs_stack] it
    is given; each of its children is given the [rhs_stack] the block has
    at the end of its own processing, whatever the children before it did;
    everything else is threaded through the calls in the order of the
    walk. *)
Fixpoint rename_tree (ira : IRA) (t : tree) (rhs_stack : list (expr * nat)) (s : SSA)
  {struct t} : result SSA :=
  match t with
  | Node root children =>
      s1 <- rename_body ira root (set_stack_rhs rhs_stack s) ;;
      (fix rename_children (children : list tree) (s : SSA) {struct children}
         : result SSA :=
         match children with
         | [] => Ok s
         | child :: rest =>
             s' <- rename_tree ira child (_stack_rhs s1) s ;;
             rename_children rest s'
         end) children s1
  end.

(** The children of a block, each started from [rhs_stack]. *)
Fixpoint rename_forest (ira : IRA) (children : list tree) (rhs_stack : list (expr * nat))
  (s : SSA) : result SSA :=
  match children with
  | [] => Ok s
  | child :: rest =>
      s' <- rename_tree ira child rhs_stack s ;;
      rename_forest ira rest rhs_stack s'
  end.

(** A table of expressions is ranked by [rank] when every key outranks
    the keys among the identifiers of its right-hand side: the table has no
    cyclic reference. *)
Definition ranked (rank : expr -> nat) (tbl : list (expr * expr)) : bool :=
  forallb
    (fun entry =>
       forallb (fun x => negb (dict_mem expr_eqb tbl x) || Nat.ltb (rank x) (rank (fst entry)))
               (id_ (snd entry)))
    tbl.

(** The weight of a worklist: a key of rank [r] weighs [(n + 1) ^ r]. *)
Fixpoint weight (n : nat) (rank : expr -> nat) (todo : list expr) : nat :=
  match todo with
  | [] => 0
  | x :: todo' => (S n ^ rank x + weight n rank todo')%nat
  end.

(** ** Invariants of the pass *)

(** The loop [for x in l: s = f(s, x)], stopping at the first error. *)
Fixpoint fold_m {X S : Type} (f : S -> X -> result S) (l : list X) (s : S) : result S :=
  match l with
  | [] => Ok s
  | x :: l' => s1 <- f s x ;; fold_m f l' s1
  end.

(** The fields that the renaming of expressions never writes. *)
Definition same_frame (s s' : SSA) : Prop :=
  store s' = store s /\ blocks s' = blocks s /\ defs s' = defs s
  /\ _phinodes s' = _phinodes s.

(** What [_transform_expression_lhs] does to the state for the identifier
    [d]: it bumps the counter of [d], records the version as the one that
    reaches, and writes nothing else. *)
Definition defines (s : SSA) (d : expr) (s' : SSA) : Prop :=
  dict_get expr_eqb (_stack_lhs s') d = Some (counter s d + 1)
  /\ dict_get expr_eqb (_stack_rhs s') d = Some (counter s d)
  /\ (forall d', d' <> d ->
        dict_get expr_eqb (_stack_lhs s') d' = dict_get expr_eqb (_stack_lhs s) d'
        /\ dict_get expr_eqb (_stack_rhs s') d' = dict_get expr_eqb (_stack_rhs s) d')
  /\ store s' = store s /\ blocks s' = blocks s
  /\ defs s' = defs s /\ _phinodes s' = _phinodes s.

(** What the methods on phi functions leave untouched: the store, the
    copies and the definitions. *)
Definition untouched (s s' : SSA) : Prop :=
  store s' = store s /\ blocks s' = blocks s /\ defs s' = defs s.

(** [_rename_phi_rhs] writes the phi functions only. *)
Definition phis_only (s s' : SSA) : Prop :=
  untouched s s' /\ _stack_rhs s' = _stack_rhs s /\ _stack_lhs s' = _stack_lhs s
  /\ expressions s' = expressions s.

(** The state of the phi functions of [successor] while [_rename_phi_rhs]
    walks over its destinations: those in [done] have one operand more. *)
Definition filling (seen : list label) (successor : label) (keys done : list expr)
  (s : SSA) : Prop :=
  (forall l phis, l <> successor -> dict_get Nat.eqb (_phinodes s) l = Some phis ->
     NoDup (dict_keys phis)
     /\ forall dst src, In (dst, src) phis ->
          List.length (phi_operands src) = count_occ Nat.eq_dec seen l)
  /\ exists d, dict_get Nat.eqb (_phinodes s) successor = Some d
       /\ dict_keys d = keys
       /\ forall dst src, In (dst, src) d ->
            (In dst done ->
               List.length (phi_operands src) = S (count_occ Nat.eq_dec seen successor))
            /\ (~ In dst done ->
               List.length (phi_operands src) = count_occ Nat.eq_dec seen successor).

(** Every phi function is for a variable of [vars]. *)
Definition phis_for (vars : list expr) (phinodes : list (label * list (expr * expr)))
  : Prop :=
  forall lbl phis dst src,
    dict_get Nat.eqb phinodes lbl = Some phis -> In (dst, src) phis ->
    exists v, In v vars /\ versions v dst.

(** The recorded definitions are identifiers, and none is [IRDst] or a
    program counter. *)
Definition defs_ok (ira : IRA) (defs : list (expr * list label)) : Prop :=
  forall v, In v (dict_keys defs) ->
            SSADiGraph.is_ExprId v = true
            /\ set_mem expr_eqb v (SSADiGraph.instruction_pointer ira) = false.

(** What the renaming walk keeps: the recorded definitions, and that every
    phi function is for one of [vars]. *)
Definition keeps_phis_for (vars : list expr) (s s' : SSA) : Prop :=
  defs s' = defs s
  /\ (phis_for vars (_phinodes s) -> phis_for vars (_phinodes s')).

(** The pass keeps owning its copies only, and keeps every copy. *)
Definition stays_owned (h : heap) (s s' : SSA) : Prop :=
  owned h s -> owned h s' /\ keeps_clones s s'.

(** What holds of the worklist state of a variable all along: [done] is
    within the iterated dominance frontier, [intodo] is the definition
    blocks and [done], the worklist is within [intodo], and the variable has
    its empty phi function in the blocks of [done] and nothing else changed
    since [phinodes0]. *)
Definition placing_ok (frontier : list (label * list label)) (variable : expr)
  (blocks : list label) (phinodes0 : list (label * list (expr * expr)))
  (p : SSADiGraph.placing) : Prop :=
  (forall n, In n (SSADiGraph.done p) -> idf frontier blocks n)
  /\ (forall n, In n (SSADiGraph.intodo p) <-> In n blocks \/ In n (SSADiGraph.done p))
  /\ (forall n, In n (SSADiGraph.todo p) -> In n (SSADiGraph.intodo p))
  /\ (forall n, In n (SSADiGraph.done p) ->
        phi_at (SSADiGraph.placed p) n variable = Some (SSADiGraph._gen_empty_phi variable))
  /\ (forall n, ~ In n (SSADiGraph.done p) ->
        phi_at (SSADiGraph.placed p) n variable = phi_at phinodes0 n variable)
  /\ (forall n v, v <> variable ->
        phi_at (SSADiGraph.placed p) n v = phi_at phinodes0 n v).

(** How the worklist state moves: the three sets grow, and a block new in
    [intodo] is in the worklist. *)
Definition grows (p p' : SSADiGraph.placing) : Prop :=
  (forall x, In x (SSADiGraph.done p) -> In x (SSADiGraph.done p'))
  /\ (forall x, In x (SSADiGraph.intodo p) -> In x (SSADiGraph.intodo p'))
  /\ (forall x, In x (SSADiGraph.todo p) -> In x (SSADiGraph.todo p'))
  /\ (forall x, In x (SSADiGraph.intodo p') -> ~ In x (SSADiGraph.intodo p) ->
        In x (SSADiGraph.todo p')).

(** The targets of the frontier, and the measure of the worklist state:
    the targets not yet put on the worklist, and the worklist. *)
Definition targets (frontier : list (label * list label)) : list label :=
  flat_map snd frontier.

Definition measure (frontier : list (label * list label)) (p : SSADiGraph.placing) : nat :=
  List.length
    (filter (fun x => negb (set_mem Nat.eqb x (SSADiGraph.intodo p))) (targets frontier))
  + List.length (SSADiGraph.todo p).

(** Every block that left the worklist has its frontier done. *)
Definition processed (frontier : list (label * list label)) (p : SSADiGraph.placing)
  : Prop :=
  forall b, In b (SSADiGraph.intodo p) -> ~ In b (SSADiGraph.todo p) ->
            forall n, In n (SSADiGraph.frontier_get frontier b) -> In n (SSADiGraph.done p).

(** ** Concrete inputs *)

(** A [set.pop()] that takes the first element. *)
Definition pop_first {A : Type} (s : list A) : nat := 0.

Definition var (n : string) : expr := ExprId (NStr n) 32.
Definition ssa_var (n : string) (index : nat) : expr := ExprId (NTup (NStr n) index) 32.

(** The expressions of [a = 1; a = a + 2; b = a] in SSA form. *)
Definition straight_line_table : list (expr * expr) :=
  [ (ssa_var "a" 0, ExprInt 1 32);
    (ssa_var "a" 1, ExprOp "+" [ssa_var "a" 0; ExprInt 2 32]);
    (ssa_var "b" 0, ssa_var "a" 1) ].

Definition straight_line_rank (e : expr) : nat :=
  match e with
  | ExprId (NTup (NStr n) index) _ => if String.eqb n "b" then 2 else index
  | _ => 0
  end.

(** The expressions of a loop [i = i + 1]: [i.1 = phi(i.0, i.2)] and
    [i.2 = i.1 + 1]. *)
Definition loop_table : list (expr * expr) :=
  [ (ssa_var "i" 1, ExprOp "phi" [ssa_var "i" 0; ssa_var "i" 2]);
    (ssa_var "i" 2, ExprOp "+" [ssa_var "i" 1; ExprInt 1 32]) ].

(** The assignment blocks of the copy that the pass holds for a label. *)
Definition block_irs (s : SSA) (lbl : label) : option (list AssignBlock) :=
  match dict_get Nat.eqb (blocks s) lbl with
  | Some r => option_map irs (nth_error (store s) r)
  | None => None
  end.

(** A state in which [a.0] reaches and the next version of [a] is 1. *)
Definition after_a0 : SSA :=
  set_stack_lhs [(var "a", 1)] (set_stack_rhs [(var "a", 0)] (init [])).

(** The diamond [H -> {L, R} -> J] (labels 0, 1, 2, 3): [H] defines [x],
    [L] redefines it, [R] holds the parallel [{x = x + 1, y = x}], and [J]
    reads [x]. *)
Definition diamond_store : heap :=
  [ mk_irbloc 0 [ [(var "x", ExprInt 1 32)] ];
    mk_irbloc 1 [ [(var "x", ExprInt 2 32)] ];
    mk_irbloc 2 [ [(var "x", ExprOp "+" [var "x"; ExprInt 1 32]); (var "y", var "x")] ];
    mk_irbloc 3 [ [(var "z", var "x")] ] ].

Definition diamond_successors (l : label) : list label :=
  match l with
  | 0 => [1; 2]
  | 1 => [3]
  | 2 => [3]
  | _ => []
  end.

Definition diamond : IRA :=
  mk_IRA [(0, 0); (1, 1); (2, 2); (3, 3)] (var "IRDst") [var "EIP"]
    diamond_successors
    (fun _ => [0; 1; 3; 2])
    (fun _ => [(1, [3]); (2, [3])])
    (fun _ => [0; 1; 2; 3])
    (fun _ l => match l with 0 => [1; 2; 3] | _ => [] end).

(** The state after the transform of the diamond. *)
Definition diamond_ssa : SSA :=
  match SSADiGraph.transform pop_first 4 diamond 0 (init diamond_store) with
  | Ok s => s
  | _ => init []
  end.

(** The diamond with a side entry: a block [U] (label 4) that no path from
    the head reaches jumps to the join [J]. The walks from the head and
    the dominance frontier do not see it. *)
Definition side_entry_store : heap :=
  [ mk_irbloc 0 [ [(var "x", ExprInt 1 32)] ];
    mk_irbloc 1 [ [(var "x", ExprInt 2 32)] ];
    mk_irbloc 2 [ [(var "y", var "x")] ];
    mk_irbloc 3 [ [(var "z", var "x")] ];
    mk_irbloc 4 [ [(var "x", ExprInt 3 32)] ] ].

Definition side_entry : IRA :=
  mk_IRA [(0, 0); (1, 1); (2, 2); (3, 3); (4, 4)] (var "IRDst") [var "EIP"]
    (fun l => match l with 0 => [1; 2] | 1 => [3] | 2 => [3] | 4 => [3] | _ => [] end)
    (fun _ => [0; 1; 3; 2])
    (fun _ => [(1, [3]); (2, [3])])
    (fun _ => [0; 1; 2; 3])
    (fun _ l => match l with 0 => [1; 2; 3] | _ => [] end).

(** A block that sets a register and the next program counter. *)
Definition jump_store : heap :=
  [ mk_irbloc 0 [ [(var "IRDst", ExprInt 5 32); (var "r", ExprInt 0 32)] ] ].

Definition jump : IRA :=
  mk_IRA [(0, 0)] (var "IRDst") [var "EIP"]
    (fun _ => []) (fun l => [l]) (fun _ => []) (fun l => [l]) (fun _ _ => []).

(** The diamond with its jumps: every block sets [IRDst], and [L] sets the
    program counter [EIP] as well. *)
Definition branch_store : heap :=
  [ mk_irbloc 0 [ [(var "x", ExprInt 1 32); (var "IRDst", ExprInt 1 32)] ];
    mk_irbloc 1 [ [(var "x", ExprInt 2 32); (var "EIP", ExprInt 3 32);
                   (var "IRDst", ExprInt 3 32)] ];
    mk_irbloc 2 [ [(var "IRDst", ExprInt 3 32)] ];
    mk_irbloc 3 [ [(var "z", var "x"); (var "IRDst", var "z")] ] ].

Definition branch : IRA :=
  mk_IRA [(0, 0); (1, 1); (2, 2); (3, 3)] (var "IRDst") [var "EIP"]
    diamond_successors
    (fun _ => [0; 1; 3; 2])
    (fun _ => [(1, [3]); (2, [3])])
    (fun _ => [0; 1; 2; 3])
    (fun _ l => match l with 0 => [1; 2; 3] | _ => [] end).

(** The state after the transform of it. *)
Definition branch_ssa : SSA :=
  match SSADiGraph.transform pop_first 7 branch 0 (init branch_store) with
  | Ok s => s
  | _ => init []
  end.

(** A branch inside a branch (labels 0 to 4): [0 -> {1, 4}], [1 -> {2, 3}],
    [2 -> 3] and [3 -> 4]. The blocks 0 and 2 define [x]. The dominance
    frontier of the block 2 is the block 3, and the frontier of the block 3
    is the block 4, which the frontier of no definition block of [x]
    holds. *)
Definition nested_store : heap :=
  [ mk_irbloc 0 [ [(var "x", ExprInt 0 32)] ];
    mk_irbloc 1 [ [(var "y", var "x")] ];
    mk_irbloc 2 [ [(var "x", ExprInt 2 32)] ];
    mk_irbloc 3 [ [(var "z", var "x")] ];
    mk_irbloc 4 [ [(var "w", var "x")] ] ].

Definition nested : IRA :=
  mk_IRA [(0, 0); (1, 1); (2, 2); (3, 3); (4, 4)] (var "IRDst") [var "EIP"]
    (fun l => match l with 0 => [1; 4] | 1 => [2; 3] | 2 => [3] | 3 => [4] | _ => [] end)
    (fun _ => [0; 1; 2; 3; 4])
    (fun _ => [(1, [4]); (2, [3]); (3, [4])])
    (fun _ => [0; 1; 2; 3; 4])
    (fun _ l => match l with 0 => [1; 4] | 1 => [2; 3] | _ => [] end).

(** The state of the pass on it after [_init_variable_defs]. *)
Definition nested_defs : SSA :=
  match SSADiGraph._init_variable_defs nested 0 (init nested_store) with
  | Ok s => s
  | _ => init []
  end.

(** The state of the pass on the diamond after [_init_variable_defs]. *)
Definition diamond_defs : SSA :=
  match SSADiGraph._init_variable_defs diamond 0 (init diamond_store) with
  | Ok s => s
  | _ => init []
  end.

(** The dominator tree of the diamond. *)
Definition diamond_tree : tree := Node 0 [Node 1 []; Node 2 []; Node 3 []].

(** ** Further statements about the renaming *)

(** An identifier that is not in SSA form: its name is a [str]. *)
Definition plain_id (e : expr) : bool :=
  match e with
  | ExprId (NStr _) _ => true
  | _ => false
  end.

(** The rewriting of all the identifier leaves of an expression at once,
    each with the version that reaches it. *)
Fixpoint subst_versions (stack_rhs : list (expr * nat)) (e : expr) : expr :=
  match e with
  | ExprId _ _ => rename_var stack_rhs e
  | ExprInt _ _ => e
  | ExprMem a size => ExprMem (subst_versions stack_rhs a) size
  | ExprOp op args => ExprOp op (map (subst_versions stack_rhs) args)
  end.

(** The same for the identifiers of [vs] only: the expression that the loop
    of [_transform_expression_rhs] holds once it went through [vs]. *)
Fixpoint subst_some (vs : list expr) (stack_rhs : list (expr * nat)) (e : expr) : expr :=
  match e with
  | ExprId _ _ => if set_mem expr_eqb e vs then rename_var stack_rhs e else e
  | ExprInt _ _ => e
  | ExprMem a size => ExprMem (subst_some vs stack_rhs a) size
  | ExprOp op args => ExprOp op (map (subst_some vs stack_rhs) args)
  end.

(** The two stacks go together: a variable has a reaching version exactly
    when it has a counter, and the counter is the reaching version plus
    one. *)
Definition paired (s : SSA) : Prop :=
  forall v, dict_get expr_eqb (_stack_lhs s) v
            = option_map S (dict_get expr_eqb (_stack_rhs s) v).

(** Every SSA name among the keys of [expressions] has a version below the
    counter of its variable. *)
Definition fresh_keys (s : SSA) : Prop :=
  forall n c size,
    In (ExprId (NTup n c) size) (dict_keys (expressions s)) ->
    c < counter s (ExprId n size).

(** An entry of [expressions] under an identifier is written once: later
    steps keep it, and keep the keys fresh. *)
Definition write_once (s s' : SSA) : Prop :=
  (forall v, counter s v <= counter s' v)
  /\ (fresh_keys s ->
      fresh_keys s'
      /\ forall n size e,
           dict_get expr_eqb (expressions s) (ExprId n size) = Some e ->
           dict_get expr_eqb (expressions s') (ExprId n size) = Some e).

(** The renaming of a list of AssignBlocks one after the other, without
    the block object. *)
Fixpoint rename_list (todo : list AssignBlock) (s : SSA)
  : result (list AssignBlock * SSA) :=
  match todo with
  | [] => Ok ([], s)
  | assignblk :: rest =>
      '(assignblk_ssa, s1) <- rename_assignblk assignblk s ;;
      '(rest_ssa, s2) <- rename_list rest s1 ;;
      Ok (assignblk_ssa :: rest_ssa, s2)
  end.

(** The operand that [_rename_phi_rhs] adds to the phi function of [dst]:
    the reaching version of the variable that [dst] is a version of. *)
Definition phi_operand (stack_rhs : list (expr * nat)) (dst : expr) : expr :=
  match dst with
  | ExprId (NTup n _) size => rename_var stack_rhs (ExprId n size)
  | _ => rename_var stack_rhs dst
  end.

(** A phi function with one operand more, put in front. *)
Definition phi_extend (stack_rhs : list (expr * nat)) (phi : expr * expr) : expr * expr :=
  (fst phi, ExprOp "phi" (phi_operand stack_rhs (fst phi) :: phi_operands (snd phi))).

(** A phi function whose destination has taken the next version of its
    variable. *)
Definition phi_define (s : SSA) (phi : expr * expr) : expr * expr :=
  (rename_dst s (fst phi), snd phi).

(** All the phi functions, in the order in which [_insert_phi] walks over
    them. *)
Definition all_phis (phinodes : list (label * list (expr * expr))) : list (expr * expr) :=
  flat_map snd phinodes.

(** The phi functions of a block while [_rename_phi_rhs] walks over them:
    those with a destination in [done] have their new operand. *)
Definition phi_extend_in (done : list expr) (stack_rhs : list (expr * nat))
  (phi : expr * expr) : expr * expr :=
  if set_mem expr_eqb (fst phi) done then phi_extend stack_rhs phi else phi.

(** What a phi function must be for [_rename_phi_rhs]: its destination an
    identifier, its source the empty phi or an operation. *)
Definition phi_entry_ok (phi : expr * expr) : bool :=
  SSADiGraph.is_ExprId (fst phi)
  && match snd phi with
     | ExprOp _ _ => true
     | src => SSADiGraph.is_empty_phi src
     end.

(** The block [lbl] is among the definition blocks recorded for [v]. *)
Definition defined_in (defs : list (expr * list label)) (v : expr) (lbl : label) : Prop :=
  exists ls, dict_get expr_eqb defs v = Some ls /\ In lbl ls.

(** The copy of the block [lbl] assigns the identifier [v], and [v] is
    neither [IRDst] nor a program counter. *)
Definition assigns (ira : IRA) (s : SSA) (lbl : label) (v : expr) : Prop :=
  exists l, block_irs s lbl = Some l
            /\ In v (flat_map (fun assignblk : AssignBlock => dict_keys assignblk) l)
            /\ SSADiGraph.is_ExprId v = true
            /\ set_mem expr_eqb v (SSADiGraph.instruction_pointer ira) = false.

(** Every copy is registered under its own label. *)
Definition labelled (s : SSA) : Prop :=
  forall lbl r, dict_get Nat.eqb (blocks s) lbl = Some r ->
                exists b, nth_error (store s) r = Some b /\ ib_label b = lbl.

(** Every destination of the block is an identifier or a memory
    expression. *)
Definition block_supported (b : irbloc) : bool :=
  forallb (fun assignblk : AssignBlock =>
             forallb (fun aff => supported_dst (fst aff)) assignblk)
          (irs b).

(** The copies that the pass holds have supported destinations only. *)
Definition copies_supported (s : SSA) : Prop :=
  forall lbl r b,
    dict_get Nat.eqb (blocks s) lbl = Some r -> nth_error (store s) r = Some b ->
    block_supported b = true.

(** The IRA has a block for the label, with supported destinations only. *)
Definition renamable (ira : IRA) (h : heap) (lbl : label) : Prop :=
  exists r b,
    dict_get Nat.eqb (ira_blocks ira) lbl = Some r /\ nth_error h r = Some b
    /\ block_supported b = true.

(** The expansion of an expression by the table [tbl]: every identifier
    that is a key is replaced by its right-hand side, expanded in turn, down
    to [n] nested definitions. *)
Fixpoint expand (tbl : list (expr * expr)) (n : nat) (e : expr) {struct n} : expr :=
  (fix go (e : expr) : expr :=
     match e with
     | ExprId _ _ =>
         match n with
         | O => e
         | S n' =>
             match dict_get expr_eqb tbl e with
             | Some rhs => expand tbl n' rhs
             | None => e
             end
         end
     | ExprInt _ _ => e
     | ExprMem a size => ExprMem (go a) size
     | ExprOp op args => ExprOp op (map go args)
     end) e.

(** Every key of the table has a rank below [n]. *)
Definition ranks_below (rank : expr -> nat) (n : nat) (tbl : list (expr * expr)) : bool :=
  forallb (fun entry => Nat.ltb (rank (fst entry)) n) tbl.

(** The phi functions stand in distinct blocks, all of them blocks of
    [allowed]; those of a block have distinct destinations, which are
    identifiers, and sources that are the empty phi or an operation. *)
Definition phis_ok (allowed : label -> Prop) (phinodes : list (label * list (expr * expr)))
  : Prop :=
  NoDup (dict_keys phinodes)
  /\ forall lbl d, dict_get Nat.eqb phinodes lbl = Some d ->
       allowed lbl /\ NoDup (dict_keys d) /\ forallb phi_entry_ok d = true.

(** The state of the pass between two steps of a transform over the store
    [h]: it owns its copies, each under its own label and with supported
    destinations, and the phi functions are well formed. *)
Definition ready (h : heap) (allowed : label -> Prop) (s : SSA) : Prop :=
  owned h s /\ labelled s /\ copies_supported s /\ phis_ok allowed (_phinodes s).

(** The definition blocks recorded for every variable are distinct blocks
    of [walk]. *)
Definition defs_within (walk : list label) (defs : list (expr * list label)) : Prop :=
  forall v blocks, In (v, blocks) defs -> NoDup blocks /\ incl blocks walk.

(** [SSA.reset] *)
Definition reset (s : SSA) : SSA :=
  set_stack_lhs [] (set_stack_rhs [] (set_expressions [] (set_blocks [] s))).

(** [SSADiGraph.reset] *)
Definition digraph_reset (s : SSA) : SSA :=
  set_phinodes [] (set_defs [] (reset s)).

(** ** Further concrete inputs *)

(** The state after the transform of the path [H; L] of the diamond. *)
Definition diamond_path : SSA :=
  match SSAPath.transform diamond [0; 1] (init diamond_store) with
  | Ok s => s
  | _ => init []
  end.

(** The state after the transform of [R; J] from there. *)
Definition diamond_path_end : SSA :=
  match SSAPath.transform diamond [2; 3] diamond_path with
  | Ok s => s
  | _ => init []
  end.

(** The state of the pass on the diamond after [_place_phi]. *)
Definition diamond_placed : SSA :=
  match SSADiGraph._place_phi pop_first 4 diamond 0 diamond_defs with
  | Ok s => s
  | _ => init []
  end.

(** The state of the pass on the diamond after [_rename]. *)
Definition diamond_renamed : SSA :=
  match SSADiGraph._rename diamond 0 diamond_placed with
  | Ok s => s
  | _ => init []
  end.

(** A state of the pass on the diamond after the renaming of the blocks
    [H] and [L], with the phi functions of [J] still empty. *)
Definition diamond_after_L : SSA :=
  match
    (s1 <- SSADiGraph._rename_phi_lhs 0 diamond_placed ;;
     s2 <- _rename_expressions diamond 0 s1 ;;
     s3 <- SSADiGraph._rename_phi_lhs 1 s2 ;;
     _rename_expressions diamond 1 s3)
  with
  | Ok s => s
  | _ => init []
  end.

(** The state after the first access to the block [H] of the diamond. *)
Definition diamond_copied : SSA :=
  match get_block diamond 0 (init diamond_store) with
  | Ok (_, s) => s
  | _ => init []
  end.

(** The state after the transform of the diamond with a bound of 7
    iterations. *)
Definition diamond_transformed : SSA :=
  match SSADiGraph.transform pop_first 7 diamond 0 (init diamond_store) with
  | Ok s => s
  | _ => init []
  end.

(** * Properties *)

(** ** Equality of expressions *)

Lemma name_eqb_eq (a b : name) : name_eqb a b = true <-> a = b.
Proof.
  revert b; induction a as [s | n IH i]; intros [t | m j]; simpl;
    try (split; discriminate).
  - rewrite String.eqb_eq. split; congruence.
  - rewrite andb_true_iff, IH, Nat.eqb_eq. split; [intros []|intros [=]]; subst; auto.
Qed.

Lemma expr_ind_nested (P : expr -> Prop)
  (HId : forall n s, P (ExprId n s))
  (HInt : forall v s, P (ExprInt v s))
  (HMem : forall a s, P a -> P (ExprMem a s))
  (HOp : forall o args, Forall P args -> P (ExprOp o args)) :
  forall e, P e.
Proof.
  fix IH 1. intros [n s | v s | a s | o args].
  - apply HId.
  - apply HInt.
  - apply HMem, IH.
  - apply HOp. induction args as [| x xs IHxs]; constructor; [apply IH | exact IHxs].
Qed.

Lemma expr_eqb_eq (a b : expr) : expr_eqb a b = true <-> a = b.
Proof.
  revert b; induction a as [n s | v s | a s IH | o args IH] using expr_ind_nested;
    intros [m t | w t | b t | p bs]; simpl; try (split; discriminate).
  - rewrite andb_true_iff, name_eqb_eq, Nat.eqb_eq. split; [intros []|intros [=]]; subst; auto.
  - rewrite andb_true_iff, Z.eqb_eq, Nat.eqb_eq. split; [intros []|intros [=]]; subst; auto.
  - rewrite andb_true_iff, IH, Nat.eqb_eq. split; [intros []|intros [=]]; subst; auto.
  - rewrite andb_true_iff, String.eqb_eq.
    match goal with |- context [?f args bs] => set (all2 := f) end.
    assert (Hall : forall bs, all2 args bs = true <-> args = bs).
    { clear p bs. induction IH as [| x xs Hx _ IHxs]; intros [| y ys]; simpl;
        try (split; (discriminate || reflexivity)).
      rewrite andb_true_iff, Hx, IHxs. split; [intros []|intros [=]]; subst; auto. }
    rewrite Hall. split; [intros []|intros [=]]; subst; auto.
Qed.

Lemma expr_eqb_refl (a : expr) : expr_eqb a a = true.
Proof. now apply expr_eqb_eq. Qed.

Lemma expr_eqb_neq (a b : expr) : expr_eqb a b = false <-> a <> b.
Proof.
  rewrite <- expr_eqb_eq. destruct (expr_eqb a b); split; congruence.
Qed.

Lemma expr_eq_dec (a b : expr) : {a = b} + {a <> b}.
Proof.
  destruct (expr_eqb a b) eqn:E.
  - left. now apply expr_eqb_eq.
  - right. now apply expr_eqb_neq.
Qed.

(** ** Sets and dictionaries *)

Section ContainerFacts.
Context {A : Type} (eqb : A -> A -> bool).
Hypothesis eqb_eq : forall a b, eqb a b = true <-> a = b.

Lemma set_mem_In (x : A) (s : list A) : set_mem eqb x s = true <-> In x s.
Proof.
  induction s as [| y s IH]; simpl.
  - split; [discriminate | tauto].
  - rewrite orb_true_iff, IH, eqb_eq. split; intros [H | H]; auto.
Qed.

Lemma set_mem_false (x : A) (s : list A) : set_mem eqb x s = false <-> ~ In x s.
Proof.
  rewrite <- set_mem_In. destruct (set_mem eqb x s); split; congruence.
Qed.

Lemma set_add_In (x y : A) (s : list A) : In y (set_add eqb x s) <-> y = x \/ In y s.
Proof.
  unfold set_add. destruct (set_mem eqb x s) eqn:E.
  - apply set_mem_In in E. split; [auto | intros [-> | H]; auto].
  - rewrite in_app_iff. simpl. split; [intros [H | [H | []]] | intros [H | H]]; auto.
Qed.

Lemma set_add_NoDup (x : A) (s : list A) : NoDup s -> NoDup (set_add eqb x s).
Proof.
  intros Hs. unfold set_add. destruct (set_mem eqb x s) eqn:E; [exact Hs |].
  apply set_mem_false in E.
  apply NoDup_rev in Hs. rewrite <- (rev_involutive (s ++ [x])).
  apply NoDup_rev. rewrite rev_app_distr. simpl. constructor; [| exact Hs].
  now rewrite <- in_rev.
Qed.

Lemma remove_nth_In (i : nat) (x : A) (s : list A) : In x (remove_nth i s) -> In x s.
Proof.
  revert i; induction s as [| y s IH]; intros [| i]; simpl; auto.
  intros [H | H]; eauto.
Qed.

Lemma set_pop_In (choose : list A -> nat) (s : list A) (x : A) (s' : list A) :
  set_pop choose s = Some (x, s') -> In x s /\ forall y, In y s' -> In y s.
Proof.
  unfold set_pop. destruct s as [| a s0]; [discriminate |].
  destruct (nth_error _ _) eqn:E; [| discriminate].
  intros [= <- <-]. split.
  - eapply nth_error_In; eauto.
  - intros y. apply remove_nth_In.
Qed.

Lemma set_pop_nonempty (choose : list A -> nat) (a : A) (s : list A) :
  exists x s', set_pop choose (a :: s) = Some (x, s').
Proof.
  unfold set_pop.
  destruct (nth_error (a :: s) (Nat.modulo (choose (a :: s)) (List.length (a :: s)))) eqn:E.
  - eauto.
  - apply nth_error_None in E.
    pose proof (Nat.mod_upper_bound (choose (a :: s)) (List.length (a :: s))) as Hb.
    simpl in *. lia.
Qed.
End ContainerFacts.

Section DictFacts.
Context {K V : Type} (eqb : K -> K -> bool).
Hypothesis eqb_eq : forall a b, eqb a b = true <-> a = b.

Lemma eqb_refl_of (k : K) : eqb k k = true.
Proof. now apply eqb_eq. Qed.

Lemma eqb_false_of (a b : K) : eqb a b = false <-> a <> b.
Proof. rewrite <- eqb_eq. destruct (eqb a b); split; congruence. Qed.

Lemma dict_get_set_same (d : list (K * V)) (k : K) (v : V) :
  dict_get eqb (dict_set eqb d k v) k = Some v.
Proof.
  induction d as [| [k' v'] d IH]; simpl.
  - now rewrite eqb_refl_of.
  - destruct (eqb k k') eqn:E; simpl; rewrite E; auto.
Qed.

Lemma dict_get_set_other (d : list (K * V)) (k k0 : K) (v : V) :
  k0 <> k -> dict_get eqb (dict_set eqb d k v) k0 = dict_get eqb d k0.
Proof.
  intros Hne. induction d as [| [k' v'] d IH]; simpl.
  - apply eqb_false_of in Hne. now rewrite Hne.
  - destruct (eqb k k') eqn:E; simpl.
    + apply eqb_eq in E. subst k'. apply eqb_false_of in Hne. now rewrite Hne.
    + now rewrite IH.
Qed.

Lemma dict_get_In (d : list (K * V)) (k : K) (v : V) :
  dict_get eqb d k = Some v -> In (k, v) d.
Proof.
  induction d as [| [k' v'] d IH]; simpl; [discriminate |].
  destruct (eqb k k') eqn:E.
  - apply eqb_eq in E. intros [= ->]. subst. now left.
  - auto.
Qed.

Lemma dict_get_None (d : list (K * V)) (k : K) :
  dict_get eqb d k = None <-> ~ In k (dict_keys d).
Proof.
  induction d as [| [k' v'] d IH]; simpl; [tauto |].
  destruct (eqb k k') eqn:E.
  - apply eqb_eq in E. subst. split; [discriminate | intros H; exfalso; auto].
  - apply eqb_false_of in E. rewrite IH. split; intros H; [intros [H1 | H1] |]; auto.
Qed.

Lemma dict_mem_In (d : list (K * V)) (k : K) :
  dict_mem eqb d k = true <-> In k (dict_keys d).
Proof.
  unfold dict_mem. pose proof (dict_get_None d k) as H.
  destruct (dict_get eqb d k).
  - split; [intros _ | reflexivity].
    destruct (in_dec (fun a b => match eqb a b as x return eqb a b = x -> {a = b} + {a <> b} with
                                 | true => fun E => left (proj1 (eqb_eq a b) E)
                                 | false => fun E => right (proj1 (eqb_false_of a b) E)
                                 end eq_refl) k (dict_keys d)) as [Hi | Hn]; auto.
    apply H in Hn. discriminate.
  - split; [discriminate |]. intros Hi. destruct H as [H _]. now specialize (H eq_refl).
Qed.
End DictFacts.

(** ** The order of the parallel instructions *)

Lemma parallel_instructions_fold (l acc : list (expr * expr)) :
  fold_left
    (fun instructions aff =>
       if is_ExprMem (fst aff) then insert0 aff instructions else instructions ++ [aff])
    l acc
  = rev (filter dst_is_mem l) ++ acc ++ filter (fun aff => negb (dst_is_mem aff)) l.
Proof.
  revert acc; induction l as [| aff l IH]; intros acc; simpl.
  - now rewrite app_nil_r.
  - rewrite IH. unfold dst_is_mem at 1 3.
    destruct (is_ExprMem (fst aff)) eqn:E; unfold dst_is_mem; rewrite E; simpl.
    + unfold insert0. now rewrite <- app_assoc.
    + now rewrite <- app_assoc.
Qed.

(** C4 (as amended): for every AssignBlock, the instruction list built by
    [_parallel_instructions] consists of all memory-destination assignments
    first, in the reverse of their input order (each is inserted at the
    start of the list), followed by all identifier-destination assignments
    in their input order. *)
Theorem parallel_instructions_order (assignblk : AssignBlock) :
  _parallel_instructions assignblk
  = rev (filter dst_is_mem assignblk)
    ++ filter (fun aff => negb (dst_is_mem aff)) assignblk.
Proof.
  unfold _parallel_instructions. now rewrite parallel_instructions_fold.
Qed.

(** C4 (as stated) fails: with two memory destinations the second one comes
    first, so the input order is not preserved within the memory group. *)
Lemma parallel_instructions_memory_group_reversed :
  _parallel_instructions
    [ (ExprMem (ExprId (NStr "p") 32) 32, ExprId (NStr "x") 32);
      (ExprId (NStr "y") 32, ExprMem (ExprId (NStr "p") 32) 32);
      (ExprMem (ExprId (NStr "q") 32) 32, ExprId (NStr "x") 32) ]
  <> memory_first_in_order
       [ (ExprMem (ExprId (NStr "p") 32) 32, ExprId (NStr "x") 32);
         (ExprId (NStr "y") 32, ExprMem (ExprId (NStr "p") 32) 32);
         (ExprMem (ExprId (NStr "q") 32) 32, ExprId (NStr "x") 32) ].
Proof. vm_compute. discriminate. Qed.

(** ** Identifier leaves and replacement *)

Lemma fold_set_add_In (x : expr) (l acc : list expr) :
  In x (fold_left (fun s y => set_add expr_eqb y s) l acc) <-> In x acc \/ In x l.
Proof.
  revert acc; induction l as [| y l IH]; intros acc; simpl.
  - tauto.
  - rewrite IH, (set_add_In expr_eqb expr_eqb_eq). intuition (subst; auto).
Qed.

Lemma fold_set_add_NoDup (l acc : list expr) :
  NoDup acc -> NoDup (fold_left (fun s y => set_add expr_eqb y s) l acc).
Proof.
  revert acc; induction l as [| y l IH]; intros acc Hacc; simpl; auto.
  apply IH, (set_add_NoDup expr_eqb expr_eqb_eq), Hacc.
Qed.

Lemma id_args_In (x : expr) (args acc : list expr) :
  In x (fold_left (fun acc a => fold_left (fun s y => set_add expr_eqb y s) (id_ a) acc)
          args acc)
  <-> In x acc \/ exists a, In a args /\ In x (id_ a).
Proof.
  revert acc; induction args as [| a args IH]; intros acc; simpl.
  - split; [auto | intros [H | (a & [] & _)]; auto].
  - rewrite IH, fold_set_add_In. split.
    + intros [[H | H] | (b & Hb & Hx)]; eauto.
    + intros [H | (b & [<- | Hb] & Hx)]; eauto.
Qed.

Lemma id_op_In (x : expr) (o : string) (args : list expr) :
  In x (id_ (ExprOp o args)) <-> exists a, In a args /\ In x (id_ a).
Proof.
  simpl. rewrite id_args_In. split; [intros [[] | H] | intros H]; auto.
Qed.

Lemma replace_expr_eq (k v e : expr) :
  replace_expr k v e =
  match e with
  | ExprId _ _ => if expr_eqb e k then v else e
  | ExprInt _ _ => e
  | ExprMem a s => ExprMem (replace_expr k v a) s
  | ExprOp o args => ExprOp o (map (replace_expr k v) args)
  end.
Proof. destruct e; reflexivity. Qed.

(** An identifier of a replaced expression comes from the substituted
    value, or was in the expression and is not the replaced key. *)
Lemma id_replace_expr (k v x e : expr) :
  In x (id_ (replace_expr k v e)) -> In x (id_ v) \/ (In x (id_ e) /\ x <> k).
Proof.
  induction e as [n s | w s | a s IH | o args IH] using expr_ind_nested;
    rewrite replace_expr_eq; intros Hx.
  - destruct (expr_eqb (ExprId n s) k) eqn:E; auto.
    apply expr_eqb_neq in E. simpl in Hx. destruct Hx as [<- | []]. right. simpl. auto.
  - destruct Hx.
  - auto.
  - apply id_op_In in Hx. destruct Hx as (a' & Ha' & Hx).
    apply in_map_iff in Ha'. destruct Ha' as (a & <- & Ha).
    rewrite Forall_forall in IH. destruct (IH a Ha Hx) as [H | [H1 H2]]; auto.
    right. split; auto. apply id_op_In. eauto.
Qed.

(** The replacement of an identifier in itself gives the substituted
    value. *)
Lemma replace_expr_self (n : name) (size : nat) (v : expr) :
  replace_expr (ExprId n size) v (ExprId n size) = v.
Proof. rewrite replace_expr_eq. now rewrite expr_eqb_refl. Qed.

(** ** The worklist of [reassemble_expr] *)

Lemma set_pop_singleton {A : Type} (choose : list A -> nat) (x : A) :
  set_pop choose [x] = Some (x, []).
Proof. unfold set_pop. simpl. reflexivity. Qed.

Lemma remove_nth_split {A : Type} (i : nat) (s : list A) (x y : A) :
  nth_error s i = Some x -> In y s -> y = x \/ In y (remove_nth i s).
Proof.
  revert i; induction s as [| a s IH]; intros [| i]; simpl; try discriminate.
  - intros [= ->] [-> | H]; auto.
  - intros Hn [-> | H]; [right; now left |].
    destruct (IH i Hn H); auto.
Qed.

Lemma remove_nth_NoDup {A : Type} (i : nat) (s : list A) :
  NoDup s -> NoDup (remove_nth i s).
Proof.
  revert i; induction s as [| a s IH]; intros [| i] Hs; simpl; auto.
  - now inversion Hs.
  - inversion Hs as [| ? ? Hn Hs']; subst. constructor; auto.
    intros H. apply Hn. revert H. clear. revert i.
    induction s as [| b s IH]; intros [| i]; simpl; auto. intros [H | H]; eauto.
Qed.

Lemma set_pop_split {A : Type} (choose : list A -> nat) (s : list A) (x : A) (s' : list A) :
  set_pop choose s = Some (x, s') -> forall y, In y s -> y = x \/ In y s'.
Proof.
  unfold set_pop. destruct s as [| a s0]; [discriminate |].
  destruct (nth_error _ _) eqn:E; [| discriminate].
  intros [= <- <-] y. now apply remove_nth_split.
Qed.

Lemma add_rhs_ids_In (tbl : list (expr * expr)) (ids todo : list expr) (x : expr) :
  In x (SSABlock.add_rhs_ids tbl ids todo)
  <-> In x todo \/ (In x ids /\ dict_mem expr_eqb tbl x = true).
Proof.
  unfold SSABlock.add_rhs_ids. revert todo; induction ids as [| y ids IH]; intros todo; simpl.
  - tauto.
  - rewrite IH. destruct (dict_mem expr_eqb tbl y) eqn:E.
    + rewrite (set_add_In expr_eqb expr_eqb_eq). intuition (subst; auto).
    + intuition (subst; auto; congruence).
Qed.

Lemma reassemble_loop_key_error (choose : list expr -> nat) (tbl : list (expr * expr))
  (fuel : nat) (e e0 : expr) :
  dict_get expr_eqb tbl e = None ->
  SSABlock.reassemble_loop choose tbl (S fuel) [e] e0 = KeyError.
Proof.
  intros H. cbn [SSABlock.reassemble_loop]. rewrite set_pop_singleton. now rewrite H.
Qed.

(** Once every identifier of the expression that is a key is in the
    worklist, the result of the loop has no identifier that is a key. *)
Lemma reassemble_loop_no_key (choose : list expr -> nat) (tbl : list (expr * expr))
  (fuel : nat) : forall (todo : list expr) (e r : expr),
  (forall x, In x (id_ e) -> dict_mem expr_eqb tbl x = true -> In x todo) ->
  SSABlock.reassemble_loop choose tbl fuel todo e = Ok r ->
  forall x, In x (id_ r) -> dict_mem expr_eqb tbl x = false.
Proof.
  induction fuel as [| fuel IH]; intros todo e r Hinv Hrun x Hx.
  - destruct todo; simpl in Hrun; [| discriminate].
    injection Hrun as <-. destruct (dict_mem expr_eqb tbl x) eqn:E; auto.
    destruct (Hinv x Hx E).
  - destruct todo as [| t todo'].
    + simpl in Hrun. injection Hrun as <-.
      destruct (dict_mem expr_eqb tbl x) eqn:E; auto. destruct (Hinv x Hx E).
    + cbn [SSABlock.reassemble_loop] in Hrun.
      destruct (set_pop choose (t :: todo')) as [[cur todo1] |] eqn:Hpop; [| discriminate].
      destruct (dict_get expr_eqb tbl cur) as [cur_rhs |] eqn:Hget; [| discriminate].
      eapply IH; [| exact Hrun | exact Hx].
      intros y Hy Hkey. apply add_rhs_ids_In.
      destruct (id_replace_expr _ _ _ _ Hy) as [H | [H Hne]]; auto.
      left. destruct (set_pop_split choose _ _ _ Hpop y (Hinv y H Hkey)); [contradiction | auto].
Qed.

Lemma reassemble_expr_no_key (choose : list expr -> nat) (fuel : nat) (s : SSA)
  (n : name) (size : nat) (r : expr) :
  SSABlock.reassemble_expr choose fuel s (ExprId n size) = Ok r ->
  forall x, In x (id_ r) -> dict_mem expr_eqb (expressions s) x = false.
Proof.
  unfold SSABlock.reassemble_expr. destruct fuel as [| fuel]; [discriminate |].
  cbn [SSABlock.reassemble_loop]. rewrite set_pop_singleton.
  destruct (dict_get expr_eqb (expressions s) (ExprId n size)) as [rhs |] eqn:Hget;
    [| discriminate].
  rewrite replace_expr_self. apply reassemble_loop_no_key.
  intros x Hx Hkey. apply add_rhs_ids_In. auto.
Qed.

(** C10: [reassemble_expr] called on an expression that is not a key of
    [expressions] raises [KeyError] in its first iteration, whatever the
    expression is; it does not return the expression unchanged. *)
Theorem reassemble_expr_requires_key (choose : list expr -> nat) (fuel : nat) (s : SSA)
  (e : expr) :
  dict_get expr_eqb (expressions s) e = None ->
  SSABlock.reassemble_expr choose (S fuel) s e = KeyError.
Proof. intros H. now apply reassemble_loop_key_error. Qed.

Lemma reassemble_expr_requires_key_witness :
  SSABlock.reassemble_expr pop_first 1 (set_expressions straight_line_table (init []))
    (ExprOp "+" [ssa_var "a" 1; ssa_var "b" 0]) = KeyError.
Proof.
  apply (reassemble_expr_requires_key pop_first 0
           (set_expressions straight_line_table (init []))
           (ExprOp "+" [ssa_var "a" 1; ssa_var "b" 0])).
  reflexivity.
Defined.

(** C8 (as amended): when [reassemble_expr] returns [r] for an identifier
    (the keys of [expressions] that the renaming writes for registers are
    identifiers), no identifier of [r] is a key of [expressions], so the
    substitution has reached its fixed point; but [reassemble_expr] itself
    cannot be applied again: on [r] it raises [KeyError] unless [r] is itself
    a key. *)
Theorem reassemble_expr_fixed_point (choose : list expr -> nat) (fuel : nat) (s : SSA)
  (n : name) (size : nat) (r : expr) :
  SSABlock.reassemble_expr choose fuel s (ExprId n size) = Ok r ->
  (forall x, In x (id_ r) -> dict_get expr_eqb (expressions s) x = None)
  /\ (dict_get expr_eqb (expressions s) r = None ->
      forall fuel', SSABlock.reassemble_expr choose (S fuel') s r = KeyError).
Proof.
  intros Hrun. split.
  - intros x Hx. pose proof (reassemble_expr_no_key _ _ _ _ _ _ Hrun x Hx) as H.
    unfold dict_mem in H. now destruct (dict_get expr_eqb (expressions s) x).
  - intros Hr fuel'. now apply reassemble_loop_key_error.
Qed.

Lemma reassemble_expr_fixed_point_witness :
  (forall x, In x (id_ (ExprOp "+" [ExprInt 1 32; ExprInt 2 32])) ->
             dict_get expr_eqb straight_line_table x = None)
  /\ (dict_get expr_eqb straight_line_table (ExprOp "+" [ExprInt 1 32; ExprInt 2 32]) = None ->
      forall fuel',
        SSABlock.reassemble_expr pop_first (S fuel')
          (set_expressions straight_line_table (init []))
          (ExprOp "+" [ExprInt 1 32; ExprInt 2 32]) = KeyError).
Proof.
  apply (reassemble_expr_fixed_point pop_first 4
           (set_expressions straight_line_table (init [])) (NTup (NStr "b") 0) 32).
  reflexivity.
Defined.

(** C8 (as stated) fails: [reassemble_expr] returns [1 + 2] for [b.0], and
    raises [KeyError] on [1 + 2]. *)
Lemma reassemble_expr_not_idempotent :
  SSABlock.reassemble_expr pop_first 4 (set_expressions straight_line_table (init []))
    (ssa_var "b" 0) = Ok (ExprOp "+" [ExprInt 1 32; ExprInt 2 32])
  /\ SSABlock.reassemble_expr pop_first 4 (set_expressions straight_line_table (init []))
       (ExprOp "+" [ExprInt 1 32; ExprInt 2 32]) = KeyError.
Proof. split; reflexivity. Qed.

(** ** Termination of [reassemble_expr] *)

Lemma ranked_spec (rank : expr -> nat) (tbl : list (expr * expr)) (k rhs x : expr) :
  ranked rank tbl = true ->
  dict_get expr_eqb tbl k = Some rhs -> In x (id_ rhs) ->
  dict_mem expr_eqb tbl x = true -> rank x < rank k.
Proof.
  unfold ranked. rewrite forallb_forall. intros Hr Hget Hx Hkey.
  apply (dict_get_In expr_eqb expr_eqb_eq) in Hget. specialize (Hr _ Hget). simpl in Hr.
  rewrite forallb_forall in Hr. specialize (Hr _ Hx).
  rewrite Hkey in Hr. simpl in Hr. now apply Nat.ltb_lt.
Qed.

Lemma weight_app (n : nat) (rank : expr -> nat) (a b : list expr) :
  weight n rank (a ++ b) = weight n rank a + weight n rank b.
Proof. induction a as [| x a IH]; simpl; [reflexivity | rewrite IH; lia]. Qed.

Lemma pow_S_pos (n r : nat) : 0 < S n ^ r.
Proof. induction r as [| r IH]; simpl; lia. Qed.

Lemma weight_zero (n : nat) (rank : expr -> nat) (todo : list expr) :
  weight n rank todo = 0 -> todo = [].
Proof.
  destruct todo as [| x todo]; simpl; auto. pose proof (pow_S_pos n (rank x)). lia.
Qed.

Lemma weight_bound (n : nat) (rank : expr -> nat) (r : nat) (l : list expr) :
  (forall x, In x l -> rank x <= r) -> weight n rank l <= List.length l * S n ^ r.
Proof.
  induction l as [| x l IH]; intros H; simpl; [lia |].
  assert (S n ^ rank x <= S n ^ r) by (apply Nat.pow_le_mono_r; [lia | apply H; now left]).
  specialize (IH (fun y Hy => H y (or_intror Hy))). lia.
Qed.

Lemma weight_remove_nth (n : nat) (rank : expr -> nat) (i : nat) (s : list expr) (x : expr) :
  nth_error s i = Some x ->
  weight n rank s = S n ^ rank x + weight n rank (remove_nth i s).
Proof.
  revert i; induction s as [| a s IH]; intros [| i]; simpl; try discriminate.
  - now intros [= ->].
  - intros H. rewrite (IH i H). lia.
Qed.

Lemma weight_pop (n : nat) (rank : expr -> nat) (choose : list expr -> nat)
  (s : list expr) (x : expr) (s' : list expr) :
  set_pop choose s = Some (x, s') -> weight n rank s = S n ^ rank x + weight n rank s'.
Proof.
  unfold set_pop. destruct s as [| a s0]; [discriminate |].
  destruct (nth_error _ _) eqn:E; [| discriminate].
  intros [= <- <-]. now apply weight_remove_nth.
Qed.

Lemma set_pop_NoDup {A : Type} (choose : list A -> nat) (s : list A) (x : A) (s' : list A) :
  set_pop choose s = Some (x, s') -> NoDup s -> NoDup s'.
Proof.
  unfold set_pop. destruct s as [| a s0]; [discriminate |].
  destruct (nth_error _ _) eqn:E; [| discriminate].
  intros [= <- <-]. apply remove_nth_NoDup.
Qed.

(** The identifiers added to the worklist come after it. *)
Lemma add_rhs_ids_app (tbl : list (expr * expr)) (ids : list expr) :
  forall todo, NoDup todo ->
  exists new, SSABlock.add_rhs_ids tbl ids todo = todo ++ new
              /\ NoDup (todo ++ new)
              /\ forall x, In x new -> In x ids /\ dict_mem expr_eqb tbl x = true.
Proof.
  unfold SSABlock.add_rhs_ids. induction ids as [| y ids IH]; intros todo Hnd; simpl.
  - exists []. rewrite app_nil_r. intuition.
  - destruct (dict_mem expr_eqb tbl y) eqn:Ekey.
    + unfold set_add at 2. destruct (set_mem expr_eqb y todo) eqn:Emem.
      * destruct (IH todo Hnd) as (new & -> & Hn & Hin). exists new. intuition.
        right. now apply Hin. now apply Hin.
      * assert (Hnd' : NoDup (todo ++ [y])).
        { generalize (set_add_NoDup expr_eqb expr_eqb_eq y todo Hnd).
          unfold set_add. now rewrite Emem. }
        destruct (IH _ Hnd') as (new & -> & Hn & Hin). exists (y :: new).
        rewrite <- app_assoc in *. simpl in *. intuition; subst; auto.
        right. now apply Hin. now apply Hin.
    + destruct (IH todo Hnd) as (new & -> & Hn & Hin). exists new. intuition.
      right. now apply Hin. now apply Hin.
Qed.

Lemma reassemble_loop_terminates (choose : list expr -> nat) (tbl : list (expr * expr))
  (rank : expr -> nat) :
  ranked rank tbl = true ->
  forall (fuel : nat) (todo : list expr) (e : expr),
    NoDup todo -> (forall x, In x todo -> dict_mem expr_eqb tbl x = true) ->
    weight (List.length tbl) rank todo <= fuel ->
    exists r, SSABlock.reassemble_loop choose tbl fuel todo e = Ok r.
Proof.
  intros Hranked. induction fuel as [| fuel IH]; intros todo e Hnd Hkeys Hw.
  - assert (todo = []) as -> by (apply (weight_zero (List.length tbl) rank); lia).
    simpl. eauto.
  - destruct todo as [| t todo']; [simpl; eauto |].
    cbn [SSABlock.reassemble_loop].
    destruct (set_pop_nonempty choose t todo') as (cur & todo1 & Hpop). rewrite Hpop.
    destruct (set_pop_In choose _ _ _ Hpop) as [Hcur Hsub].
    pose proof (Hkeys cur Hcur) as Hcur_key. unfold dict_mem in Hcur_key.
    destruct (dict_get expr_eqb tbl cur) as [cur_rhs |] eqn:Hget; [| discriminate].
    pose proof (set_pop_NoDup choose _ _ _ Hpop Hnd) as Hnd1.
    destruct (add_rhs_ids_app tbl (id_ cur_rhs) todo1 Hnd1) as (new & -> & Hnd2 & Hnew).
    apply IH; auto.
    + intros x Hx. apply in_app_iff in Hx. destruct Hx as [Hx | Hx]; [auto | now apply Hnew].
    + rewrite weight_app. rewrite (weight_pop _ rank choose _ _ _ Hpop) in Hw.
      assert (Hlt : forall x, In x new -> rank x < rank cur).
      { intros x Hx. destruct (Hnew x Hx). eapply ranked_spec; eauto. }
      assert (Hlen : List.length new <= List.length tbl).
      { rewrite <- (length_map fst tbl). apply NoDup_incl_length.
        - now apply NoDup_app_remove_l in Hnd2.
        - intros x Hx. apply (dict_mem_In expr_eqb expr_eqb_eq). now apply Hnew. }
      destruct (rank cur) as [| r] eqn:Hr.
      * destruct new as [| x new']; [simpl in *; lia |]. specialize (Hlt x (or_introl eq_refl)). lia.
      * assert (Hb : weight (List.length tbl) rank new <= List.length new * S (List.length tbl) ^ r).
        { apply weight_bound. intros x Hx. specialize (Hlt x Hx). lia. }
        pose proof (pow_S_pos (List.length tbl) r) as Hpos.
        change (S (List.length tbl) ^ S r) with (S (List.length tbl) * S (List.length tbl) ^ r) in Hw.
        nia.
Qed.

(** C2 (as amended): on a table without cyclic references (every key
    outranks the keys among the identifiers of its right-hand side),
    [reassemble_expr] applied to a key ends and returns an expression,
    whatever the order in which the worklist is popped. A key can be
    processed several times, and termination is not claimed for a table with
    a cyclic reference. *)
Theorem reassemble_expr_terminates_acyclic (choose : list expr -> nat) (s : SSA)
  (rank : expr -> nat) (e : expr) (fuel : nat) :
  ranked rank (expressions s) = true ->
  dict_mem expr_eqb (expressions s) e = true ->
  S (List.length (expressions s)) ^ rank e <= fuel ->
  exists r, SSABlock.reassemble_expr choose fuel s e = Ok r.
Proof.
  intros Hr Hkey Hfuel. unfold SSABlock.reassemble_expr.
  apply (reassemble_loop_terminates choose _ rank Hr).
  - repeat constructor. simpl. tauto.
  - intros x [<- | []]. exact Hkey.
  - simpl. lia.
Qed.

Lemma reassemble_expr_terminates_acyclic_witness :
  exists r, SSABlock.reassemble_expr pop_first 16
              (set_expressions straight_line_table (init [])) (ssa_var "b" 0) = Ok r.
Proof.
  apply (reassemble_expr_terminates_acyclic pop_first
           (set_expressions straight_line_table (init [])) straight_line_rank
           (ssa_var "b" 0) 16).
  - reflexivity.
  - reflexivity.
  - simpl. lia.
Defined.

Lemma loop_table_runs_forever (choose : list expr -> nat) (fuel : nat) :
  forall e,
    SSABlock.reassemble_loop choose loop_table fuel [ssa_var "i" 1] e = OutOfFuel
    /\ SSABlock.reassemble_loop choose loop_table fuel [ssa_var "i" 2] e = OutOfFuel.
Proof.
  induction fuel as [| fuel IH]; intros e; [split; reflexivity |].
  split; cbn [SSABlock.reassemble_loop]; rewrite set_pop_singleton.
  - change (dict_get expr_eqb loop_table (ssa_var "i" 1))
      with (Some (ExprOp "phi" [ssa_var "i" 0; ssa_var "i" 2])).
    change (SSABlock.add_rhs_ids loop_table (id_ (ExprOp "phi" [ssa_var "i" 0; ssa_var "i" 2])) [])
      with [ssa_var "i" 2].
    apply IH.
  - change (dict_get expr_eqb loop_table (ssa_var "i" 2))
      with (Some (ExprOp "+" [ssa_var "i" 1; ExprInt 1 32])).
    change (SSABlock.add_rhs_ids loop_table (id_ (ExprOp "+" [ssa_var "i" 1; ExprInt 1 32])) [])
      with [ssa_var "i" 1].
    apply IH.
Qed.

(** C2 (as stated) fails: on the table of a loop, [i.1 = phi(i.0, i.2)] and
    [i.2 = i.1 + 1], the worklist holds [i.1] and [i.2] in turn for ever:
    no number of iterations makes [reassemble_expr] return, whatever the
    order of [set.pop()]. *)
Lemma reassemble_expr_cycle_never_returns :
  ~ exists (choose : list expr -> nat) (fuel : nat) (r : expr),
      SSABlock.reassemble_expr choose fuel (set_expressions loop_table (init []))
        (ssa_var "i" 1) = Ok r.
Proof.
  intros (choose & fuel & r & H). unfold SSABlock.reassemble_expr in H.
  simpl expressions in H.
  destruct (loop_table_runs_forever choose fuel (ssa_var "i" 1)) as [H1 _].
  rewrite H1 in H. discriminate.
Qed.

(** ** Renaming of an AssignBlock *)

Lemma bind_ok {A B : Type} (r : result A) (f : A -> result B) (b : B) :
  bind r f = Ok b -> exists a, r = Ok a /\ f a = Ok b.
Proof. destruct r; simpl; try discriminate. eauto. Qed.

Lemma id_is_ExprId (e x : expr) : In x (id_ e) -> exists n size, x = ExprId n size.
Proof.
  induction e as [n s | w s | a s IH | o args IH] using expr_ind_nested; intros Hx.
  - destruct Hx as [<- | []]. eauto.
  - destruct Hx.
  - auto.
  - apply id_op_In in Hx. destruct Hx as (a & Ha & Hx).
    rewrite Forall_forall in IH. eauto.
Qed.

Lemma transform_var_rhs_ok (n : name) (size : nat) (s : SSA) :
  _transform_var_rhs (ExprId n size) s = Ok (rename_var (_stack_rhs s) (ExprId n size)).
Proof.
  unfold _transform_var_rhs, _gen_var_expr, dict_mem, rename_var.
  now destruct (dict_get expr_eqb (_stack_rhs s) (ExprId n size)).
Qed.

Lemma transform_expression_rhs_ok (src : expr) (s : SSA) :
  _transform_expression_rhs src s = Ok (rename_rhs (_stack_rhs s) src).
Proof.
  unfold _transform_expression_rhs, rename_rhs.
  assert (Hids : forall v, In v (variables src) -> exists n size, v = ExprId n size)
    by (intros v; apply id_is_ExprId).
  revert Hids. generalize (variables src) as vs. generalize src as acc.
  intros acc vs. revert acc. induction vs as [| v vs IH]; intros acc Hids; simpl; auto.
  destruct (Hids v (or_introl eq_refl)) as (n & size & ->).
  rewrite transform_var_rhs_ok. simpl. apply IH. intros w Hw. apply Hids. now right.
Qed.

Lemma transform_rhs_ok (instructions : list (expr * expr)) (s : SSA) :
  transform_rhs instructions s
  = Ok (map (fun aff => rename_rhs (_stack_rhs s) (snd aff)) instructions).
Proof.
  induction instructions as [| e rest IH]; simpl; auto.
  rewrite transform_expression_rhs_ok, IH. reflexivity.
Qed.

Lemma transform_expression_lhs_id (n : name) (size : nat) (s : SSA) :
  exists s', _transform_expression_lhs (ExprId n size) s
             = Ok (ExprId (NTup n (counter s (ExprId n size))) size, s')
             /\ defines s (ExprId n size) s'.
Proof.
  set (d := ExprId n size).
  unfold _transform_expression_lhs, _transform_var_lhs, _gen_var_expr, counter, dict_mem.
  change (is_ExprMem d) with false. cbv iota.
  destruct (dict_get expr_eqb (_stack_lhs s) d) as [c |] eqn:Hc; simpl.
  - repeat (rewrite Hc; simpl). eexists. split; [reflexivity |].
    unfold defines, counter. simpl. rewrite Hc.
    rewrite !(dict_get_set_same expr_eqb expr_eqb_eq).
    repeat split; auto; now rewrite (dict_get_set_other expr_eqb expr_eqb_eq).
  - rewrite !(dict_get_set_same expr_eqb expr_eqb_eq). simpl.
    rewrite !(dict_get_set_same expr_eqb expr_eqb_eq). simpl.
    eexists. split; [reflexivity |].
    unfold defines, counter. simpl. rewrite Hc.
    rewrite !(dict_get_set_same expr_eqb expr_eqb_eq).
    repeat split; auto; now rewrite !(dict_get_set_other expr_eqb expr_eqb_eq).
Qed.

Lemma transform_expression_lhs_mem (a : expr) (size : nat) (s : SSA) :
  _transform_expression_lhs (ExprMem a size) s
  = Ok (rename_rhs (_stack_rhs s) (ExprMem a size), s).
Proof.
  unfold _transform_expression_lhs. simpl is_ExprMem. cbv iota.
  now rewrite transform_expression_rhs_ok.
Qed.

Lemma replace_id_in_mem (n : name) (size : nat) (v a : expr) (sz : nat) :
  replace_expr (ExprId n size) v (ExprMem a sz)
  = ExprMem (replace_expr (ExprId n size) v a) sz.
Proof. rewrite replace_expr_eq. reflexivity. Qed.

(** The renaming of a memory expression is a memory expression. *)
Lemma rename_rhs_mem (stack_rhs : list (expr * nat)) (a : expr) (sz : nat) :
  exists a', rename_rhs stack_rhs (ExprMem a sz) = ExprMem a' sz.
Proof.
  unfold rename_rhs.
  assert (Hids : forall v, In v (variables (ExprMem a sz)) -> exists n size, v = ExprId n size)
    by (intros v; apply id_is_ExprId).
  revert Hids. generalize (variables (ExprMem a sz)) as vs. generalize a as acc.
  intros acc vs. revert acc.
  induction vs as [| v vs IH]; intros acc Hids; cbn [fold_left]; eauto.
  destruct (Hids v (or_introl eq_refl)) as (n & size & ->).
  rewrite replace_id_in_mem. apply IH. intros w Hw. apply Hids. now right.
Qed.

Lemma fold_left_ext_in {A B : Type} (f g : A -> B -> A) (l : list B) :
  (forall a x, In x l -> f a x = g a x) -> forall a, fold_left f l a = fold_left g l a.
Proof.
  induction l as [| x l IH]; intros H a; simpl; auto.
  rewrite H by now left. apply IH. intros b y Hy. apply H. now right.
Qed.

Lemma transform_lhs_mems (g : expr * expr -> expr) (rest : list (expr * expr)) :
  forall (ms : list (expr * expr)) (acc : AssignBlock) (s : SSA),
    Forall (fun aff => is_ExprMem (fst aff) = true) ms ->
    exists s1,
      transform_lhs (ms ++ rest) (map g (ms ++ rest)) acc s
      = transform_lhs rest (map g rest)
          (fold_left (fun out aff => dict_set expr_eqb out (rename_dst s (fst aff)) (g aff))
             ms acc) s1
      /\ _stack_rhs s1 = _stack_rhs s /\ _stack_lhs s1 = _stack_lhs s /\ same_frame s s1.
Proof.
  induction ms as [| [dst src] ms IH]; intros acc s Hms; simpl.
  - exists s. unfold same_frame. repeat split.
  - inversion Hms as [| ? ? Hd Hms']; subst. simpl in Hd.
    destruct dst as [n sz | v sz | a sz | o args]; try discriminate.
    rewrite transform_expression_lhs_mem. simpl.
    match goal with |- context [transform_lhs _ _ ?acc' ?s'] =>
      destruct (IH acc' s' Hms') as (s1 & Heq & Hr & Hl & Hf) end.
    exists s1. rewrite Heq. split; [| split; [| split]]; auto.
Qed.

Lemma counter_defines_other (s s' : SSA) (d d' : expr) :
  defines s d s' -> d' <> d -> counter s' d' = counter s d'.
Proof.
  intros (_ & _ & Hother & _) Hne. unfold counter. now rewrite (proj1 (Hother d' Hne)).
Qed.

Lemma transform_lhs_ids (g : expr * expr -> expr) :
  forall (ids : list (expr * expr)) (acc : AssignBlock) (s : SSA),
    Forall (fun aff => SSADiGraph.is_ExprId (fst aff) = true) ids ->
    NoDup (map fst ids) ->
    exists s',
      transform_lhs ids (map g ids) acc s
      = Ok (fold_left (fun out aff => dict_set expr_eqb out (rename_dst s (fst aff)) (g aff))
              ids acc, s')
      /\ (forall d, In d (map fst ids) ->
            dict_get expr_eqb (_stack_lhs s') d = Some (counter s d + 1)
            /\ dict_get expr_eqb (_stack_rhs s') d = Some (counter s d))
      /\ (forall d, ~ In d (map fst ids) ->
            dict_get expr_eqb (_stack_lhs s') d = dict_get expr_eqb (_stack_lhs s) d
            /\ dict_get expr_eqb (_stack_rhs s') d = dict_get expr_eqb (_stack_rhs s) d)
      /\ same_frame s s'.
Proof.
  induction ids as [| [dst src] ids IH]; intros acc s Hids Hnd; simpl.
  - exists s. unfold same_frame. repeat split; auto; contradiction.
  - inversion Hids as [| ? ? Hd Hids']; subst. simpl in Hd.
    inversion Hnd as [| ? ? Hnotin Hnd']; subst.
    destruct dst as [n sz | v sz | a sz | o args]; try discriminate.
    destruct (transform_expression_lhs_id n sz s) as (s1 & -> & Hdef). simpl.
    set (d := ExprId n sz) in *.
    set (s2 := set_expressions _ s1).
    assert (Hdef2 : defines s d s2).
    { unfold defines in *. subst s2. simpl. intuition. }
    destruct (IH (dict_set expr_eqb acc (ExprId (NTup n (counter s d)) sz) (g (d, src)))
                s2 Hids' Hnd') as (s' & Heq & Hin & Hout & Hf).
    exists s'. rewrite Heq. split; [| split; [| split]].
    + f_equal. f_equal. apply fold_left_ext_in. intros a [d' src'] Hx. simpl.
      assert (Hne : d' <> d).
      { intros ->. apply Hnotin. apply in_map_iff. exists (d, src'). auto. }
      rewrite Forall_forall in Hids'. specialize (Hids' _ Hx). simpl in Hids'.
      destruct d'; try discriminate. simpl.
      now rewrite (counter_defines_other _ _ _ _ Hdef2 Hne).
    + intros d' [<- | Hd'].
      * destruct (Hout d Hnotin) as [Hl Hr]. rewrite Hl, Hr.
        destruct Hdef2 as (H1 & H2 & _). auto.
      * assert (Hne : d' <> d) by (intros ->; contradiction).
        rewrite <- (counter_defines_other _ _ _ _ Hdef2 Hne). auto.
    + intros d' Hd'. assert (Hne : d' <> d) by (intros ->; apply Hd'; now left).
      destruct (Hout d') as [Hl Hr]; [intros H; apply Hd'; now right |].
      destruct Hdef2 as (_ & _ & Hother & _). destruct (Hother d' Hne) as [Hl' Hr'].
      rewrite Hl, Hr. auto.
    + destruct Hdef2 as (_ & _ & _ & H1 & H2 & H3 & H4).
      destruct Hf as (F1 & F2 & F3 & F4). unfold same_frame.
      rewrite F1, F2, F3, F4. auto.
Qed.

Lemma filter_distinct_dsts (keep : expr * expr -> bool) (assignblk : AssignBlock) :
  NoDup (dict_keys assignblk) -> NoDup (dict_keys (filter keep assignblk)).
Proof.
  unfold dict_keys. induction assignblk as [| aff rest IH]; simpl; auto.
  intros Hnd. inversion Hnd as [| ? ? Hfresh Hrest]; subst.
  destruct (keep aff); simpl; auto. constructor; auto.
  intros Hin. apply Hfresh. apply in_map_iff in Hin. destruct Hin as (y & Hy & Hin).
  apply filter_In in Hin. apply in_map_iff. exists y. tauto.
Qed.

(** The renaming of an AssignBlock, with what it does to the two stacks
    and what it leaves as it was. *)
Lemma rename_assignblk_run (assignblk : AssignBlock) (s : SSA) :
  NoDup (dict_keys assignblk) ->
  forallb (fun aff => supported_dst (fst aff)) assignblk = true ->
  exists s',
    rename_assignblk assignblk s = Ok (two_phase_rename s assignblk, s')
    /\ (forall d, In d (dict_keys (filter (fun aff => negb (dst_is_mem aff)) assignblk)) ->
          dict_get expr_eqb (_stack_lhs s') d = Some (counter s d + 1)
          /\ dict_get expr_eqb (_stack_rhs s') d = Some (counter s d))
    /\ same_frame s s'.
Proof.
  intros Hnd Hsup. unfold rename_assignblk, two_phase_rename.
  rewrite transform_rhs_ok. simpl bind.
  unfold _parallel_instructions. rewrite parallel_instructions_fold. cbn [app].
  set (g := fun aff : expr * expr => rename_rhs (_stack_rhs s) (snd aff)).
  set (ms := rev (filter dst_is_mem assignblk)).
  set (ids := filter (fun aff => negb (dst_is_mem aff)) assignblk).
  assert (Hms : Forall (fun aff => is_ExprMem (fst aff) = true) ms).
  { apply Forall_forall. intros x Hx. unfold ms in Hx. rewrite <- in_rev in Hx.
    apply filter_In in Hx. apply Hx. }
  assert (Hids : Forall (fun aff => SSADiGraph.is_ExprId (fst aff) = true) ids).
  { apply Forall_forall. intros x Hx. unfold ids in Hx. apply filter_In in Hx.
    destruct Hx as [Hx Hm]. rewrite forallb_forall in Hsup. specialize (Hsup x Hx).
    unfold dst_is_mem in Hm. destruct (fst x); simpl in *; congruence. }
  destruct (transform_lhs_mems g ids ms [] s Hms) as (s1 & -> & Hr & Hl & Hf).
  destruct (transform_lhs_ids g ids
              (fold_left (fun out aff => dict_set expr_eqb out (rename_dst s (fst aff)) (g aff))
                 ms []) s1 Hids (filter_distinct_dsts _ _ Hnd))
    as (s' & -> & Hin & Hout & Hf').
  assert (Hc : forall d, counter s1 d = counter s d) by (intros d; unfold counter; now rewrite Hl).
  exists s'. split; [| split].
  - f_equal. f_equal. rewrite fold_left_app. apply fold_left_ext_in.
    intros a x Hx. rewrite Forall_forall in Hids. specialize (Hids x Hx).
    destruct (fst x); try discriminate. simpl. now rewrite Hc.
  - intros d Hd. rewrite <- Hc. apply Hin. exact Hd.
  - destruct Hf as (A1 & A2 & A3 & A4). destruct Hf' as (B1 & B2 & B3 & B4).
    unfold same_frame. rewrite B1, B2, B3, B4. auto.
Qed.

(** C3 (as amended): for every AssignBlock (a [dict], so with distinct
    destinations, each an identifier or a memory expression), the renaming
    succeeds and its output is the two-phase rename of section 4.1: every
    right-hand side, and every memory destination, is rewritten with the
    versions that reach the AssignBlock, also for an identifier that the
    AssignBlock defines; every identifier destination [v] takes the fresh
    version [counter[v]], which becomes the reaching version afterwards,
    and the counter is incremented. The fresh version is the counter, not
    the reaching version plus one. *)
Theorem rename_assignblk_two_phase (assignblk : AssignBlock) (s : SSA) :
  NoDup (dict_keys assignblk) ->
  forallb (fun aff => supported_dst (fst aff)) assignblk = true ->
  exists s',
    rename_assignblk assignblk s = Ok (two_phase_rename s assignblk, s')
    /\ forall n size, In (ExprId n size) (dict_keys assignblk) ->
         dict_get expr_eqb (_stack_lhs s') (ExprId n size)
           = Some (counter s (ExprId n size) + 1)
         /\ dict_get expr_eqb (_stack_rhs s') (ExprId n size)
           = Some (counter s (ExprId n size)).
Proof.
  intros Hnd Hsup.
  destruct (rename_assignblk_run assignblk s Hnd Hsup) as (s' & Hrun & Hdsts & _).
  exists s'. split; [exact Hrun |].
  intros n size Hd. apply Hdsts.
  unfold dict_keys in *. apply in_map_iff in Hd. destruct Hd as (aff & Hfst & Hin).
  apply in_map_iff. exists aff. split; [exact Hfst |].
  apply filter_In. split; [exact Hin |].
  unfold dst_is_mem. now rewrite Hfst.
Qed.

Lemma rename_assignblk_two_phase_witness :
  exists s',
    rename_assignblk
      [(var "a", ExprOp "+" [var "a"; ExprInt 1 32]); (var "b", var "a")] after_a0
    = Ok (two_phase_rename after_a0
            [(var "a", ExprOp "+" [var "a"; ExprInt 1 32]); (var "b", var "a")], s')
    /\ forall n size,
         In (ExprId n size)
            (dict_keys [(var "a", ExprOp "+" [var "a"; ExprInt 1 32]); (var "b", var "a")]) ->
         dict_get expr_eqb (_stack_lhs s') (ExprId n size)
           = Some (counter after_a0 (ExprId n size) + 1)
         /\ dict_get expr_eqb (_stack_rhs s') (ExprId n size)
           = Some (counter after_a0 (ExprId n size)).
Proof.
  apply (rename_assignblk_two_phase
           [(var "a", ExprOp "+" [var "a"; ExprInt 1 32]); (var "b", var "a")] after_a0).
  - repeat constructor; simpl; intuition discriminate.
  - reflexivity.
Defined.

(** The parallel pair of section 8: for [{x = f(x), y = x}], where [x] is
    the only identifier of [f(x)] and [x.k] reaches, the output is
    [x.c = f(x.k)] and [y.c' = x.k], with [c] and [c'] the counters of [x]
    and [y]. *)
Lemma rename_parallel_pair (nx ny : name) (sx sy k : nat) (fx : expr) (s : SSA) :
  ExprId nx sx <> ExprId ny sy ->
  id_ fx = [ExprId nx sx] ->
  dict_get expr_eqb (_stack_rhs s) (ExprId nx sx) = Some k ->
  exists s',
    rename_assignblk [(ExprId nx sx, fx); (ExprId ny sy, ExprId nx sx)] s
    = Ok ([ (ExprId (NTup nx (counter s (ExprId nx sx))) sx,
             replace_expr (ExprId nx sx) (ExprId (NTup nx k) sx) fx);
            (ExprId (NTup ny (counter s (ExprId ny sy))) sy, ExprId (NTup nx k) sx) ], s').
Proof.
  intros Hne Hid Hk.
  destruct (rename_assignblk_run
              [(ExprId nx sx, fx); (ExprId ny sy, ExprId nx sx)] s) as (s' & Hrun & _).
  - repeat constructor; simpl; intuition congruence.
  - reflexivity.
  - exists s'. rewrite Hrun. f_equal. f_equal.
    unfold two_phase_rename, _parallel_instructions. simpl.
    unfold rename_rhs, variables. rewrite Hid. simpl. unfold rename_var. rewrite Hk.
    assert (Hrefl : (name_eqb nx nx && Nat.eqb sx sx)%bool = true)
      by (rewrite (proj2 (name_eqb_eq nx nx) eq_refl), Nat.eqb_refl; reflexivity).
    rewrite Hrefl.
    assert (Hneq : (name_eqb ny nx && Nat.eqb (counter s (ExprId ny sy)) (counter s (ExprId nx sx))
                    && Nat.eqb sy sx)%bool = false).
    { destruct (name_eqb ny nx) eqn:En; auto. destruct (Nat.eqb sy sx) eqn:Es.
      - apply name_eqb_eq in En. apply Nat.eqb_eq in Es. subst. congruence.
      - now rewrite andb_false_r. }
    now rewrite Hneq.
Qed.

(** C3 (as stated) fails on the version of the destination: in the diamond,
    [R] is renamed after [L], [x.0] reaches it and the counter of [x] is 2,
    so [{x = x + 1, y = x}] becomes [x.2 = x.0 + 1] and [y.0 = x.0]; the
    name [x.1] is the definition of [L], not [x.0 + 1]. *)
Lemma diamond_fresh_version_is_counter :
  exists s',
    SSADiGraph.transform pop_first 4 diamond 0 (init diamond_store) = Ok s'
    /\ block_irs s' 2
       = Some [ [ (ssa_var "x" 2, ExprOp "+" [ssa_var "x" 0; ExprInt 1 32]);
                  (ssa_var "y" 0, ssa_var "x" 0) ] ]
    /\ dict_get expr_eqb (expressions s') (ssa_var "x" (0 + 1)) = Some (ExprInt 2 32).
Proof. eexists. split; [vm_compute; reflexivity | split; vm_compute; reflexivity]. Qed.

(** ** What each method leaves untouched *)

Lemma same_frame_refl (s : SSA) : same_frame s s.
Proof. unfold same_frame. auto. Qed.

Lemma same_frame_trans (s1 s2 s3 : SSA) :
  same_frame s1 s2 -> same_frame s2 s3 -> same_frame s1 s3.
Proof.
  unfold same_frame. intros (A1 & A2 & A3 & A4) (B1 & B2 & B3 & B4).
  rewrite B1, B2, B3, B4. auto.
Qed.

Lemma transform_var_lhs_frame (v e : expr) (s s' : SSA) :
  _transform_var_lhs v s = Ok (e, s') ->
  same_frame s s' /\ expressions s' = expressions s.
Proof.
  unfold _transform_var_lhs.
  destruct (negb (dict_mem expr_eqb (_stack_lhs s) v)); simpl;
    match goal with |- context [dict_get expr_eqb ?d v] =>
      destruct (dict_get expr_eqb d v) end; try discriminate;
    intros H; apply bind_ok in H; destruct H as (x & _ & [= _ <-]);
    unfold same_frame; simpl; auto.
Qed.

Lemma transform_expression_lhs_frame (dst e : expr) (s s' : SSA) :
  _transform_expression_lhs dst s = Ok (e, s') ->
  same_frame s s' /\ expressions s' = expressions s.
Proof.
  unfold _transform_expression_lhs. destruct (is_ExprMem dst).
  - intros H. apply bind_ok in H. destruct H as (x & _ & [= _ <-]).
    split; [apply same_frame_refl | reflexivity].
  - intros H. apply bind_ok in H. destruct H as ([e1 s1] & H1 & H).
    apply transform_var_lhs_frame in H1. destruct H1 as [F1 E1].
    destruct (dict_get expr_eqb (_stack_lhs s1) dst); [| discriminate].
    injection H as _ <-. split; [| exact E1].
    eapply same_frame_trans; [exact F1 |]. unfold same_frame. simpl. auto.
Qed.

Lemma transform_lhs_frame (instructions : list (expr * expr)) :
  forall (rhs : list expr) (acc out : AssignBlock) (s s' : SSA),
    transform_lhs instructions rhs acc s = Ok (out, s') -> same_frame s s'.
Proof.
  induction instructions as [| e rest IH]; intros rhs acc out s s'; simpl.
  - intros [= _ <-]. apply same_frame_refl.
  - intros H. apply bind_ok in H. destruct H as ([d s1] & H1 & H).
    apply transform_expression_lhs_frame in H1. destruct H1 as [F1 _].
    destruct rhs as [| src_ssa rhs']; [discriminate |].
    apply IH in H. eapply same_frame_trans; [exact F1 |].
    eapply same_frame_trans; [| exact H]. unfold same_frame. simpl. auto.
Qed.

Lemma rename_assignblk_frame (assignblk out : AssignBlock) (s s' : SSA) :
  rename_assignblk assignblk s = Ok (out, s') -> same_frame s s'.
Proof.
  unfold rename_assignblk. intros H. apply bind_ok in H. destruct H as (rhs & _ & H).
  eapply transform_lhs_frame; eauto.
Qed.

Lemma firstn_list_set {A : Type} (n r : nat) (x : A) (l : list A) :
  n <= r -> firstn n (list_set l r x) = firstn n l.
Proof.
  revert n r; induction l as [| y l IH]; intros [| n] [| r] H; simpl; auto; try lia.
  f_equal. apply IH. lia.
Qed.

Lemma length_list_set {A : Type} (r : nat) (x : A) (l : list A) :
  List.length (list_set l r x) = List.length l.
Proof. revert r; induction l as [| y l IH]; intros [| r]; simpl; auto. Qed.

Lemma firstn_set_irs_at (n r index : nat) (a : AssignBlock) (h : heap) :
  n <= r -> firstn n (set_irs_at r index a h) = firstn n h.
Proof.
  intros H. unfold set_irs_at. destruct (nth_error h r); auto. now apply firstn_list_set.
Qed.

(** The renaming of the assignment blocks of the block object at [r]
    writes that object only. *)
Lemma rename_irs_frame (r : ref) (todo : list AssignBlock) :
  forall (index : nat) (s s' : SSA),
    rename_irs r index todo s = Ok s' ->
    blocks s' = blocks s /\ defs s' = defs s /\ _phinodes s' = _phinodes s
    /\ forall n, n <= r -> firstn n (store s') = firstn n (store s).
Proof.
  induction todo as [| ab rest IH]; intros index s s'; simpl.
  - intros [= <-]. auto.
  - intros H. apply bind_ok in H. destruct H as ([out s1] & H1 & H).
    apply rename_assignblk_frame in H1. destruct H1 as (F1 & F2 & F3 & F4).
    apply IH in H. simpl in H. destruct H as (G1 & G2 & G3 & G4).
    rewrite G1, G2, G3, F2, F3, F4. repeat split; auto.
    intros n Hn. rewrite (G4 n Hn), firstn_set_irs_at by exact Hn. now rewrite F1.
Qed.

Lemma dict_set_In {K V : Type} (eqb : K -> K -> bool) (d : list (K * V)) (k k' : K) (v v' : V) :
  In (k', v') (dict_set eqb d k v) -> In (k', v') d \/ v' = v.
Proof.
  induction d as [| [k0 v0] d IH]; simpl.
  - intros [[= <- <-] | []]. auto.
  - destruct (eqb k k0); simpl.
    + intros [[= <- <-] | H]; auto.
    + intros [H | H]; auto. destruct (IH H); auto.
Qed.

Section Ownership.
Variable ira : IRA.
Variable h : heap.
Hypothesis Hwf : well_labelled ira h = true.

Lemma owned_length (s : SSA) : owned h s -> List.length h <= List.length (store s).
Proof.
  intros [H _]. apply (f_equal (@List.length irbloc)) in H.
  rewrite length_firstn in H. lia.
Qed.

Lemma copy_block_label (lbl : label) (s : SSA) (r : ref) (h' : heap) :
  owned h s -> copy_block ira lbl (store s) = Ok (r, h') ->
  r = List.length (store s)
  /\ exists ib, h' = store s ++ [ib] /\ ib_label ib = lbl.
Proof.
  intros Hown. unfold copy_block.
  destruct (dict_get Nat.eqb (ira_blocks ira) lbl) as [r0 |] eqn:Hget; [| discriminate].
  apply (dict_get_In Nat.eqb Nat.eqb_eq) in Hget.
  unfold well_labelled in Hwf. rewrite forallb_forall in Hwf. specialize (Hwf _ Hget).
  simpl in Hwf. destruct (nth_error h r0) as [ib0 |] eqn:Hn; [| discriminate].
  apply Nat.eqb_eq in Hwf.
  assert (Hs : nth_error (store s) r0 = Some ib0).
  { destruct Hown as [Hf _]. rewrite <- Hf in Hn.
    rewrite nth_error_firstn in Hn. destruct (Nat.ltb r0 (List.length h)); [auto | discriminate]. }
  rewrite Hs. intros [= <- <-]. split; auto. eexists. split; [reflexivity | exact Hwf].
Qed.

(** [get_block] returns the copy of the label, made on the first access
    and kept afterwards; it writes no block object. *)
Lemma get_block_owned (lbl : label) (s s' : SSA) (r : ref) :
  owned h s -> get_block ira lbl s = Ok (r, s') ->
  owned h s' /\ keeps_clones s s' /\ List.length h <= r
  /\ dict_get Nat.eqb (blocks s') lbl = Some r
  /\ _stack_rhs s' = _stack_rhs s /\ _stack_lhs s' = _stack_lhs s
  /\ expressions s' = expressions s /\ defs s' = defs s /\ _phinodes s' = _phinodes s.
Proof.
  intros Hown. unfold get_block.
  destruct (dict_get Nat.eqb (blocks s) lbl) as [r0 |] eqn:Hget.
  - intros [= <- <-]. repeat split; auto; try apply Hown.
    + intros l r1 H. exact H.
    + destruct Hown as [_ Hb]. eapply Hb. eapply (dict_get_In Nat.eqb Nat.eqb_eq); eauto.
  - unfold _copy_block. intros H. apply bind_ok in H. destruct H as ([r1 h1] & Hc & H).
    destruct (copy_block_label _ _ _ _ Hown Hc) as (-> & ib & -> & Hlbl).
    rewrite nth_error_app2 in H by lia. rewrite Nat.sub_diag in H. simpl in H.
    injection H as <- <-. pose proof (owned_length s Hown) as Hlen.
    destruct Hown as [Hf Hb]. rewrite Hlbl.
    repeat split; simpl; auto.
    + rewrite firstn_app. replace (List.length h - List.length (store s)) with 0 by lia.
      simpl. now rewrite app_nil_r.
    + intros l r1 Hin. apply dict_set_In in Hin. destruct Hin as [Hin | ->]; eauto.
    + intros l r1 Hl. simpl. rewrite (dict_get_set_other Nat.eqb Nat.eqb_eq); auto.
      intros ->. congruence.
    + apply (dict_get_set_same Nat.eqb Nat.eqb_eq).
Qed.

Lemma keeps_clones_refl (s : SSA) : keeps_clones s s.
Proof. intros l r H. exact H. Qed.

Lemma keeps_clones_trans (s1 s2 s3 : SSA) :
  keeps_clones s1 s2 -> keeps_clones s2 s3 -> keeps_clones s1 s3.
Proof. intros H1 H2 l r H. auto. Qed.

Lemma owned_same_blocks (s s' : SSA) :
  owned h s -> blocks s' = blocks s ->
  firstn (List.length h) (store s') = firstn (List.length h) (store s) ->
  owned h s' /\ keeps_clones s s'.
Proof.
  intros [Hf Hb] E1 E2. split; [split |].
  - now rewrite E2.
  - now rewrite E1.
  - intros l r H. now rewrite E1.
Qed.

Lemma rename_expressions_owned (lbl : label) (s s' : SSA) :
  owned h s -> _rename_expressions ira lbl s = Ok s' ->
  owned h s' /\ keeps_clones s s'
  /\ defs s' = defs s /\ _phinodes s' = _phinodes s.
Proof.
  intros Hown. unfold _rename_expressions. intros H.
  apply bind_ok in H. destruct H as ([r s1] & Hg & H).
  destruct (get_block_owned _ _ _ _ Hown Hg) as (O1 & K1 & Hr & _ & _ & _ & _ & D1 & P1).
  destruct (nth_error (store s1) r) as [b |]; [| discriminate].
  apply rename_irs_frame in H. destruct H as (B & D & P & Hf).
  destruct (owned_same_blocks s1 s' O1 B (Hf _ Hr)) as [O2 K2].
  repeat split; try apply O2; try congruence.
  eapply keeps_clones_trans; eauto.
Qed.
End Ownership.

(** ** Loops that thread the state *)

Section FoldM.
Context {X S : Type} (f : S -> X -> result S).

Lemma fold_left_bind (F : result S -> X -> result S) (l : list X) (r : result S) :
  (forall acc x, F acc x = bind acc (fun s => f s x)) ->
  fold_left F l r = bind r (fold_m f l).
Proof.
  intros HF. revert r; induction l as [| x l IH]; intros r; simpl.
  - now destruct r.
  - rewrite IH, HF. now destruct r.
Qed.

Lemma fold_m_inv (R : S -> S -> Prop) :
  (forall s, R s s) -> (forall a b c, R a b -> R b c -> R a c) ->
  forall l : list X,
    (forall s x s', In x l -> f s x = Ok s' -> R s s') ->
    forall s s', fold_m f l s = Ok s' -> R s s'.
Proof.
  intros Hrefl Htrans. induction l as [| x l IH]; intros Hf s s'; simpl.
  - intros [= <-]. apply Hrefl.
  - intros H. apply bind_ok in H. destruct H as (s1 & H1 & H).
    eapply Htrans; [eapply Hf; [now left | exact H1] |].
    eapply IH; eauto. intros s0 y s0' Hy. apply Hf. now right.
Qed.
End FoldM.

Lemma untouched_refl (s : SSA) : untouched s s.
Proof. unfold untouched. auto. Qed.

Lemma untouched_trans (a b c : SSA) : untouched a b -> untouched b c -> untouched a c.
Proof.
  unfold untouched. intros (A1 & A2 & A3) (B1 & B2 & B3). rewrite B1, B2, B3. auto.
Qed.

Lemma rename_phi_lhs_dst_untouched (lbl : label) (s s' : SSA) (dst : expr) :
  SSADiGraph.rename_phi_lhs_dst lbl s dst = Ok s' -> untouched s s'.
Proof.
  unfold SSADiGraph.rename_phi_lhs_dst.
  destruct (dict_get Nat.eqb (_phinodes s) lbl) as [d |]; [| discriminate].
  destruct (dict_get expr_eqb d dst) as [payload |]; [| discriminate].
  intros H. apply bind_ok in H. destruct H as ([e s2] & H1 & H).
  apply transform_expression_lhs_frame in H1. destruct H1 as [(F1 & F2 & F3 & _) _].
  destruct (dict_get Nat.eqb (_phinodes s2) lbl); [| discriminate].
  injection H as <-. unfold untouched. simpl in *. auto.
Qed.

Lemma rename_phi_lhs_untouched (lbl : label) (s s' : SSA) :
  SSADiGraph._rename_phi_lhs lbl s = Ok s' -> untouched s s'.
Proof.
  unfold SSADiGraph._rename_phi_lhs.
  rewrite (fold_left_bind (SSADiGraph.rename_phi_lhs_dst lbl)) by reflexivity. simpl.
  apply (fold_m_inv _ untouched untouched_refl untouched_trans).
  intros s0 x s0' _. apply rename_phi_lhs_dst_untouched.
Qed.

Lemma phis_only_refl (s : SSA) : phis_only s s.
Proof. unfold phis_only. auto using untouched_refl. Qed.

Lemma phis_only_trans (a b c : SSA) : phis_only a b -> phis_only b c -> phis_only a c.
Proof.
  unfold phis_only. intros (A1 & A2 & A3 & A4) (B1 & B2 & B3 & B4).
  rewrite B2, B3, B4. eauto using untouched_trans.
Qed.

Lemma rename_phi_rhs_dst_phis_only (successor : label) (s s' : SSA) (dst : expr) :
  SSADiGraph.rename_phi_rhs_dst successor s dst = Ok s' -> phis_only s s'.
Proof.
  unfold SSADiGraph.rename_phi_rhs_dst.
  destruct (dict_get Nat.eqb (_phinodes s) successor) as [d |]; [| discriminate].
  destruct (dict_get expr_eqb d dst) as [src |]; [| discriminate].
  intros H. apply bind_ok in H. destruct H as (src_ssa & _ & H).
  apply bind_ok in H. destruct H as (e & _ & [= <-]).
  unfold phis_only, untouched. simpl. auto.
Qed.

Lemma rename_phi_rhs_phis_only (successor : label) (s s' : SSA) :
  SSADiGraph._rename_phi_rhs successor s = Ok s' -> phis_only s s'.
Proof.
  unfold SSADiGraph._rename_phi_rhs.
  rewrite (fold_left_bind (SSADiGraph.rename_phi_rhs_dst successor)) by reflexivity. simpl.
  apply (fold_m_inv _ phis_only phis_only_refl phis_only_trans).
  intros s0 x s0' _. apply rename_phi_rhs_dst_phis_only.
Qed.

Section OwnershipDiGraph.
Variable ira : IRA.
Variable h : heap.
Hypothesis Hwf : well_labelled ira h = true.

Lemma stays_owned_refl (s : SSA) : stays_owned h s s.
Proof. intros H. split; [exact H | apply keeps_clones_refl]. Qed.

Lemma stays_owned_trans (a b c : SSA) :
  stays_owned h a b -> stays_owned h b c -> stays_owned h a c.
Proof.
  intros H1 H2 Ha. destruct (H1 Ha) as [Hb K1]. destruct (H2 Hb) as [Hc K2].
  split; [exact Hc | eapply keeps_clones_trans; eauto].
Qed.

Lemma same_store_stays_owned (s s' : SSA) :
  store s' = store s -> blocks s' = blocks s -> stays_owned h s s'.
Proof.
  intros E1 E2 Hown. apply (owned_same_blocks h s s' Hown E2). now rewrite E1.
Qed.

Lemma untouched_stays_owned (s s' : SSA) : untouched s s' -> stays_owned h s s'.
Proof. intros (E1 & E2 & _). now apply same_store_stays_owned. Qed.

Lemma rename_expressions_stays_owned (lbl : label) (s s' : SSA) :
  _rename_expressions ira lbl s = Ok s' -> stays_owned h s s'.
Proof.
  intros H Hown. destruct (rename_expressions_owned ira h Hwf lbl s s' Hown H) as (A & B & _).
  auto.
Qed.

Lemma path_transform_stays_owned (path : list label) :
  forall s s', SSAPath.transform ira path s = Ok s' -> stays_owned h s s'.
Proof.
  induction path as [| b rest IH]; intros s s'; simpl.
  - intros [= <-]. apply stays_owned_refl.
  - intros H. apply bind_ok in H. destruct H as (s1 & H1 & H).
    eapply stays_owned_trans; [eapply rename_expressions_stays_owned; eauto | eauto].
Qed.

Lemma init_defs_walk_stays_owned (walk : list label) :
  forall s s', SSADiGraph.init_defs_walk ira walk s = Ok s' -> stays_owned h s s'.
Proof.
  induction walk as [| b rest IH]; intros s s'; simpl.
  - intros [= <-]. apply stays_owned_refl.
  - intros H. apply bind_ok in H. destruct H as ([r s1] & H1 & H).
    destruct (nth_error (store s1) r) as [ib |]; [| discriminate].
    apply IH in H. eapply stays_owned_trans; [| eapply stays_owned_trans; [| exact H]].
    + intros Hown. destruct (get_block_owned ira h Hwf _ _ _ _ Hown H1) as (A & B & _).
      split; [exact A | exact B].
    + now apply same_store_stays_owned.
Qed.

Lemma rename_block_stays_owned (head lbl : label) (stack stack' : list (list (expr * nat)))
  (s s' : SSA) :
  SSADiGraph.rename_block ira head lbl stack s = Ok (stack', s') -> stays_owned h s s'.
Proof.
  unfold SSADiGraph.rename_block. destruct stack as [| top stack1]; [discriminate |].
  intros H. apply bind_ok in H. destruct H as (s1 & H1 & H).
  apply bind_ok in H. destruct H as (s2 & H2 & H).
  apply bind_ok in H. destruct H as (s3 & H3 & [= _ <-]).
  apply rename_phi_lhs_untouched in H1.
  rewrite (fold_left_bind (fun s x => SSADiGraph._rename_phi_rhs x s)) in H3 by reflexivity.
  simpl in H3.
  apply (fold_m_inv _ phis_only phis_only_refl phis_only_trans) in H3;
    [| intros s0 x s0' _; apply rename_phi_rhs_phis_only].
  eapply stays_owned_trans; [| eapply stays_owned_trans; [| eapply stays_owned_trans]].
  - apply untouched_stays_owned with (s' := set_stack_rhs top s). unfold untouched. auto.
  - apply untouched_stays_owned. exact H1.
  - eapply rename_expressions_stays_owned; eauto.
  - apply untouched_stays_owned. apply H3.
Qed.

Lemma rename_walk_stays_owned (head : label) (walk : list label) :
  forall stack s s', SSADiGraph.rename_walk ira head walk stack s = Ok s' -> stays_owned h s s'.
Proof.
  induction walk as [| b rest IH]; intros stack s s'; simpl.
  - intros [= <-]. apply stays_owned_refl.
  - intros H. apply bind_ok in H. destruct H as ([stack1 s1] & H1 & H).
    eapply stays_owned_trans; [eapply rename_block_stays_owned; eauto | eauto].
Qed.

Lemma insert_phi_untouched (s : SSA) : untouched s (SSADiGraph._insert_phi s).
Proof.
  unfold SSADiGraph._insert_phi. generalize (_phinodes s) as nodes. intros nodes.
  revert s. induction nodes as [| [lbl phis] nodes IH]; intros s; simpl.
  - apply untouched_refl.
  - eapply untouched_trans; [| apply IH]. clear IH.
    revert s. induction phis as [| phi phis IH]; intros s; simpl.
    + apply untouched_refl.
    + eapply untouched_trans; [| apply IH]. unfold untouched. simpl. auto.
Qed.

Lemma firstn_insert_irs0 (n r : nat) (a : AssignBlock) (h0 : heap) :
  n <= r -> firstn n (SSADiGraph.insert_irs0 r a h0) = firstn n h0.
Proof.
  intros H. unfold SSADiGraph.insert_irs0. destruct (nth_error h0 r); auto.
  now apply firstn_list_set.
Qed.

Lemma convert_phi_blocks_stays_owned (nodes : list (label * list (expr * expr))) :
  forall s s', SSADiGraph.convert_phi_blocks ira nodes s = Ok s' -> stays_owned h s s'.
Proof.
  induction nodes as [| [lbl phis] nodes IH]; intros s s'; simpl.
  - intros [= <-]. apply stays_owned_refl.
  - intros H. apply bind_ok in H. destruct H as ([r s1] & H1 & H).
    apply IH in H. intros Hown.
    destruct (get_block_owned ira h Hwf _ _ _ _ Hown H1) as (A & B & Hr & _).
    match type of H with stays_owned h ?s2 _ =>
      assert (Hs2 : owned h s2 /\ keeps_clones s1 s2)
        by (apply (owned_same_blocks h s1 s2 A eq_refl); simpl;
            now apply firstn_insert_irs0) end.
    destruct Hs2 as [A2 B2]. destruct (H A2) as [A3 B3]. split; auto.
    eapply keeps_clones_trans; [exact B |].
    eapply keeps_clones_trans; [exact B2 | exact B3].
Qed.

Lemma digraph_transform_stays_owned (choose : list label -> nat) (fuel : nat)
  (head : label) (s s' : SSA) :
  SSADiGraph.transform choose fuel ira head s = Ok s' -> stays_owned h s s'.
Proof.
  unfold SSADiGraph.transform, SSADiGraph._init_variable_defs, SSADiGraph._place_phi,
    SSADiGraph._rename, SSADiGraph._convert_phi.
  intros H. apply bind_ok in H. destruct H as (s1 & H1 & H).
  apply bind_ok in H. destruct H as (s2 & H2 & H).
  apply bind_ok in H. destruct H as (s3 & H3 & H).
  apply bind_ok in H2. destruct H2 as (phinodes & _ & [= <-]).
  apply init_defs_walk_stays_owned in H1. apply rename_walk_stays_owned in H3.
  apply convert_phi_blocks_stays_owned in H.
  eapply stays_owned_trans; [exact H1 |].
  eapply stays_owned_trans; [| eapply stays_owned_trans; [exact H3 |]].
  - apply untouched_stays_owned. unfold untouched. simpl. auto.
  - eapply stays_owned_trans; [| exact H]. apply untouched_stays_owned, insert_phi_untouched.
Qed.
End OwnershipDiGraph.

(** C9: over an IRA whose blocks are registered under their own label, and
    from any state in which the pass owns its copies only (as the initial
    state does), [get_block] returns a copy allocated after the blocks of
    the IRA, and the same copy on every later access; each of the three
    transforms leaves every block object of the IRA as it was and keeps the
    copy already made for a label. *)
Theorem transforms_write_copies_only (ira : IRA) (h : heap) (s : SSA) :
  well_labelled ira h = true ->
  owned h s ->
  (forall lbl r s1,
      get_block ira lbl s = Ok (r, s1) ->
      List.length h <= r /\ owned h s1 /\ keeps_clones s s1
      /\ get_block ira lbl s1 = Ok (r, s1))
  /\ (forall lbl s', SSABlock.transform ira lbl s = Ok s' ->
        owned h s' /\ keeps_clones s s')
  /\ (forall path s', SSAPath.transform ira path s = Ok s' ->
        owned h s' /\ keeps_clones s s')
  /\ (forall choose fuel head s',
        SSADiGraph.transform choose fuel ira head s = Ok s' ->
        owned h s' /\ keeps_clones s s').
Proof.
  intros Hwf Hown. split; [| split; [| split]].
  - intros lbl r s1 H.
    destruct (get_block_owned ira h Hwf _ _ _ _ Hown H) as (A & B & C & D & _).
    repeat split; auto; try apply A. unfold get_block. now rewrite D.
  - intros lbl s' H. exact (rename_expressions_stays_owned ira h Hwf lbl s s' H Hown).
  - intros path s' H. exact (path_transform_stays_owned ira h Hwf path s s' H Hown).
  - intros choose fuel head s' H.
    exact (digraph_transform_stays_owned ira h Hwf choose fuel head s s' H Hown).
Qed.

Lemma transforms_write_copies_only_witness :
  (forall lbl r s1,
      get_block diamond lbl (init diamond_store) = Ok (r, s1) ->
      List.length diamond_store <= r /\ owned diamond_store s1
      /\ keeps_clones (init diamond_store) s1
      /\ get_block diamond lbl s1 = Ok (r, s1))
  /\ (forall lbl s', SSABlock.transform diamond lbl (init diamond_store) = Ok s' ->
        owned diamond_store s' /\ keeps_clones (init diamond_store) s')
  /\ (forall path s', SSAPath.transform diamond path (init diamond_store) = Ok s' ->
        owned diamond_store s' /\ keeps_clones (init diamond_store) s')
  /\ (forall choose fuel head s',
        SSADiGraph.transform choose fuel diamond head (init diamond_store) = Ok s' ->
        owned diamond_store s' /\ keeps_clones (init diamond_store) s').
Proof.
  apply (transforms_write_copies_only diamond diamond_store (init diamond_store)).
  - reflexivity.
  - split; [reflexivity | intros lbl r []].
Defined.

(** ** Dictionaries with distinct keys *)

Section DictKeys.
Context {K V : Type} (eqb : K -> K -> bool).
Hypothesis eqb_eq : forall a b, eqb a b = true <-> a = b.

Lemma dict_get_keys (d : list (K * V)) (k : K) (v : V) :
  dict_get eqb d k = Some v -> In k (dict_keys d).
Proof.
  intros H. apply (dict_get_In eqb eqb_eq) in H.
  apply in_map_iff. exists (k, v). auto.
Qed.

Lemma dict_del_In (d : list (K * V)) (k0 k : K) (v : V) :
  In (k, v) (dict_del eqb d k0) -> In (k, v) d.
Proof.
  induction d as [| [k1 v1] d IH]; simpl; auto.
  destruct (eqb k0 k1); simpl; intuition.
Qed.

Lemma dict_del_NoDup (d : list (K * V)) (k0 : K) :
  NoDup (dict_keys d) -> NoDup (dict_keys (dict_del eqb d k0)).
Proof.
  induction d as [| [k1 v1] d IH]; simpl; auto.
  intros H. inversion H as [| ? ? Hn Hd]; subst.
  destruct (eqb k0 k1); simpl; auto. constructor; auto.
  intros Hin. apply Hn. unfold dict_keys in *. apply in_map_iff in Hin.
  destruct Hin as ([k v] & <- & Hin). apply dict_del_In in Hin.
  apply in_map_iff. exists (k, v). auto.
Qed.

Lemma dict_set_keys_In (d : list (K * V)) (k k' : K) (v : V) :
  In k' (dict_keys (dict_set eqb d k v)) -> k' = k \/ In k' (dict_keys d).
Proof.
  induction d as [| [k1 v1] d IH]; simpl.
  - intros [<- | []]. auto.
  - destruct (eqb k k1); simpl; intuition.
Qed.

Lemma dict_set_NoDup (d : list (K * V)) (k : K) (v : V) :
  NoDup (dict_keys d) -> NoDup (dict_keys (dict_set eqb d k v)).
Proof.
  induction d as [| [k1 v1] d IH]; simpl.
  - intros _. repeat constructor. intros [].
  - intros H. inversion H as [| ? ? Hn Hd]; subst.
    destruct (eqb k k1) eqn:E; simpl.
    + constructor; auto.
    + constructor; auto. intros Hin. apply dict_set_keys_In in Hin.
      destruct Hin as [-> | Hin]; [| contradiction].
      rewrite (eqb_refl_of eqb eqb_eq) in E. discriminate.
Qed.

Lemma dict_set_keys_same (d : list (K * V)) (k : K) (v : V) :
  In k (dict_keys d) -> dict_keys (dict_set eqb d k v) = dict_keys d.
Proof.
  induction d as [| [k1 v1] d IH]; simpl; [tauto |].
  destruct (eqb k k1) eqn:E; simpl; auto.
  intros [-> | H]; [rewrite (eqb_refl_of eqb eqb_eq) in E; discriminate |].
  now rewrite IH.
Qed.

Lemma dict_set_In_keyed (d : list (K * V)) (k k' : K) (v v' : V) :
  In (k', v') (dict_set eqb d k v) -> In (k', v') d \/ (k' = k /\ v' = v).
Proof.
  induction d as [| [k1 v1] d IH]; simpl.
  - intros [[= <- <-] | []]. auto.
  - destruct (eqb k k1) eqn:E; simpl.
    + apply eqb_eq in E. subst. intros [[= <- <-] | H]; auto.
    + intros [H | H]; auto. destruct (IH H); auto.
Qed.

Lemma dict_set_In_NoDup (d : list (K * V)) (k k' : K) (v v' : V) :
  NoDup (dict_keys d) ->
  In (k', v') (dict_set eqb d k v) -> (k' = k /\ v' = v) \/ (k' <> k /\ In (k', v') d).
Proof.
  induction d as [| [k1 v1] d IH]; simpl.
  - intros _ [[= <- <-] | []]. auto.
  - intros H. inversion H as [| ? ? Hn Hd]; subst.
    destruct (eqb k k1) eqn:E; simpl.
    + apply eqb_eq in E. subst. intros [[= <- <-] | Hin]; auto.
      right. split; auto. intros ->. apply Hn. apply in_map_iff. exists (k1, v'). auto.
    + apply (eqb_false_of eqb eqb_eq) in E. intros [[= <- <-] | Hin]; auto.
      destruct (IH Hd Hin) as [? | [? ?]]; auto.
Qed.
End DictKeys.

(** ** The operands of the phi functions *)

Lemma get_block_frame (ira : IRA) (lbl : label) (s s' : SSA) (r : ref) :
  get_block ira lbl s = Ok (r, s') ->
  _stack_rhs s' = _stack_rhs s /\ _stack_lhs s' = _stack_lhs s
  /\ expressions s' = expressions s /\ defs s' = defs s /\ _phinodes s' = _phinodes s.
Proof.
  unfold get_block, _copy_block.
  destruct (dict_get Nat.eqb (blocks s) lbl).
  - intros [= _ <-]. auto.
  - intros H. apply bind_ok in H. destruct H as ([r1 h1] & _ & H).
    destruct (nth_error h1 r1); [| discriminate]. injection H as _ <-. simpl. auto.
Qed.

Lemma rename_expressions_phinodes (ira : IRA) (lbl : label) (s s' : SSA) :
  _rename_expressions ira lbl s = Ok s' ->
  _phinodes s' = _phinodes s /\ defs s' = defs s.
Proof.
  unfold _rename_expressions. intros H. apply bind_ok in H. destruct H as ([r s1] & Hg & H).
  apply get_block_frame in Hg. destruct Hg as (_ & _ & _ & D & P).
  destruct (nth_error (store s1) r); [| discriminate].
  apply rename_irs_frame in H. destruct H as (_ & D' & P' & _). split; congruence.
Qed.

Lemma rename_phi_lhs_dst_arity (seen : list label) (lbl : label) (s s' : SSA) (dst : expr) :
  SSADiGraph.rename_phi_lhs_dst lbl s dst = Ok s' ->
  phis_arity seen (_phinodes s) -> phis_arity seen (_phinodes s').
Proof.
  unfold SSADiGraph.rename_phi_lhs_dst.
  destruct (dict_get Nat.eqb (_phinodes s) lbl) as [d |] eqn:Hd; [| discriminate].
  destruct (dict_get expr_eqb d dst) as [payload |] eqn:Hp; [| discriminate].
  intros H Hinv. apply bind_ok in H. destruct H as ([e s2] & H1 & H).
  apply transform_expression_lhs_frame in H1. destruct H1 as [(_ & _ & _ & P) _].
  simpl in P. rewrite P in H. rewrite (dict_get_set_same Nat.eqb Nat.eqb_eq) in H.
  injection H as <-. simpl.
  intros l phis Hl. destruct (Nat.eq_dec l lbl) as [-> | Hne].
  - rewrite (dict_get_set_same Nat.eqb Nat.eqb_eq) in Hl. injection Hl as <-.
    destruct (Hinv lbl d Hd) as [Hnd Har]. split.
    + apply (dict_set_NoDup expr_eqb expr_eqb_eq), (dict_del_NoDup expr_eqb), Hnd.
    + intros k v Hin. apply (dict_set_In_keyed expr_eqb expr_eqb_eq) in Hin.
      destruct Hin as [Hin | [_ ->]].
      * apply dict_del_In in Hin. eauto.
      * apply (dict_get_In expr_eqb expr_eqb_eq) in Hp. eauto.
  - rewrite !(dict_get_set_other Nat.eqb Nat.eqb_eq) in Hl by auto. auto.
Qed.

Lemma rename_phi_lhs_arity (seen : list label) (lbl : label) (s s' : SSA) :
  SSADiGraph._rename_phi_lhs lbl s = Ok s' ->
  phis_arity seen (_phinodes s) -> phis_arity seen (_phinodes s').
Proof.
  unfold SSADiGraph._rename_phi_lhs.
  rewrite (fold_left_bind (SSADiGraph.rename_phi_lhs_dst lbl)) by reflexivity. simpl.
  apply (fold_m_inv _ (fun a b => phis_arity seen (_phinodes a) -> phis_arity seen (_phinodes b)));
    auto.
  intros s0 x s0' _. apply rename_phi_lhs_dst_arity.
Qed.

Section FoldPrefix.
Context {X S : Type} (f : S -> X -> result S).

(** An invariant that follows the part of the list already visited. *)
Lemma fold_m_prefix (full : list X) (J : list X -> S -> Prop) :
  (forall done x rest s s',
      full = done ++ x :: rest -> J done s -> f s x = Ok s' -> J (done ++ [x]) s') ->
  forall l done s s',
    full = done ++ l -> J done s -> fold_m f l s = Ok s' -> J full s'.
Proof.
  intros Hstep. induction l as [| x l IH]; intros done s s' Hfull HJ; simpl.
  - intros [= <-]. rewrite Hfull, app_nil_r. exact HJ.
  - intros H. apply bind_ok in H. destruct H as (s1 & H1 & H).
    apply (IH (done ++ [x]) s1 s'); auto.
    + rewrite <- app_assoc. exact Hfull.
    + eapply Hstep; eauto.
Qed.
End FoldPrefix.

Lemma rename_phi_rhs_dst_spec (successor : label) (s s' : SSA) (dst : expr) :
  SSADiGraph.rename_phi_rhs_dst successor s dst = Ok s' ->
  exists d src e,
    dict_get Nat.eqb (_phinodes s) successor = Some d
    /\ dict_get expr_eqb d dst = Some src
    /\ List.length (phi_operands e) = S (List.length (phi_operands src))
    /\ _phinodes s' = dict_set Nat.eqb (_phinodes s) successor (dict_set expr_eqb d dst e).
Proof.
  unfold SSADiGraph.rename_phi_rhs_dst.
  destruct (dict_get Nat.eqb (_phinodes s) successor) as [d |]; [| discriminate].
  destruct (dict_get expr_eqb d dst) as [src |] eqn:Hsrc; [| discriminate].
  intros H. apply bind_ok in H. destruct H as (src_ssa & _ & H).
  apply bind_ok in H. destruct H as (e & He & [= <-]).
  exists d, src, e. repeat split; auto.
  destruct (SSADiGraph.is_empty_phi src) eqn:Hempty.
  - injection He as <-. destruct src; try discriminate. reflexivity.
  - destruct src; try discriminate. injection He as <-. reflexivity.
Qed.

Lemma rename_phi_rhs_dst_filling (seen : list label) (successor : label)
  (keys done rest : list expr) (x : expr) (s s' : SSA) :
  NoDup keys -> keys = done ++ x :: rest ->
  filling seen successor keys done s ->
  SSADiGraph.rename_phi_rhs_dst successor s x = Ok s' ->
  filling seen successor keys (done ++ [x]) s'.
Proof.
  intros Hnd Hkeys (Hother & d & Hd & Hk & Hent) Hrun.
  destruct (rename_phi_rhs_dst_spec _ _ _ _ Hrun) as (d1 & src & e & Hd1 & Hsrc & He & Hp).
  rewrite Hd in Hd1. injection Hd1 as <-.
  assert (Hx : ~ In x done).
  { rewrite Hkeys in Hnd. apply NoDup_remove_2 in Hnd. intros H. apply Hnd.
    apply in_app_iff. auto. }
  assert (Hdnd : NoDup (dict_keys d)) by now rewrite Hk.
  split.
  - intros l phis Hl Hget. rewrite Hp in Hget.
    rewrite (dict_get_set_other Nat.eqb Nat.eqb_eq) in Hget by auto. eauto.
  - exists (dict_set expr_eqb d x e). rewrite Hp. split; [| split].
    + apply (dict_get_set_same Nat.eqb Nat.eqb_eq).
    + rewrite (dict_set_keys_same expr_eqb expr_eqb_eq); auto.
      eapply (dict_get_keys expr_eqb expr_eqb_eq); eauto.
    + intros dst v Hin.
      apply (dict_set_In_NoDup expr_eqb expr_eqb_eq _ _ _ _ _ Hdnd) in Hin.
      destruct Hin as [[-> ->] | [Hne Hin]].
      * apply (dict_get_In expr_eqb expr_eqb_eq) in Hsrc.
        destruct (Hent _ _ Hsrc) as [_ H0]. rewrite He, (H0 Hx). split; auto.
        intros H. exfalso. apply H. apply in_app_iff. right. now left.
      * destruct (Hent _ _ Hin) as [H1 H0]. split.
        -- intros H. apply in_app_iff in H. destruct H as [H | [H | []]]; auto.
           congruence.
        -- intros H. apply H0. intros H'. apply H. apply in_app_iff. auto.
Qed.

Lemma count_occ_snoc_same (seen : list label) (l : label) :
  count_occ Nat.eq_dec (seen ++ [l]) l = S (count_occ Nat.eq_dec seen l).
Proof.
  rewrite count_occ_app, count_occ_cons_eq by reflexivity. simpl.
  now rewrite Nat.add_1_r.
Qed.

Lemma count_occ_snoc_other (seen : list label) (l l' : label) :
  l' <> l -> count_occ Nat.eq_dec (seen ++ [l]) l' = count_occ Nat.eq_dec seen l'.
Proof.
  intros H. rewrite count_occ_app, count_occ_cons_neq by congruence. simpl.
  now rewrite Nat.add_0_r.
Qed.

(** [_rename_phi_rhs] gives every phi function of [successor] one operand
    more. *)
Lemma rename_phi_rhs_arity (seen : list label) (successor : label) (s s' : SSA) :
  SSADiGraph._rename_phi_rhs successor s = Ok s' ->
  phis_arity seen (_phinodes s) -> phis_arity (seen ++ [successor]) (_phinodes s').
Proof.
  unfold SSADiGraph._rename_phi_rhs, SSADiGraph.phinodes_keys.
  rewrite (fold_left_bind (SSADiGraph.rename_phi_rhs_dst successor)) by reflexivity. simpl.
  destruct (dict_get Nat.eqb (_phinodes s) successor) as [d |] eqn:Hd.
  - intros Hrun Hinv. destruct (Hinv successor d Hd) as [Hnd Har].
    assert (Hfill : filling seen successor (dict_keys d) (dict_keys d) s').
    { apply (fold_m_prefix (SSADiGraph.rename_phi_rhs_dst successor) (dict_keys d)
               (filling seen successor (dict_keys d))
               ltac:(intros; eapply rename_phi_rhs_dst_filling; eauto)
               (dict_keys d) [] s s' eq_refl); auto.
      split.
      - intros l phis _ Hl. apply (Hinv l phis Hl).
      - exists d. repeat split; auto. intros []. intros _. eauto. }
    destruct Hfill as (Hother & d' & Hd' & Hk & Hent).
    intros l phis Hl. destruct (Nat.eq_dec l successor) as [-> | Hne].
    + rewrite Hd' in Hl. injection Hl as <-. split; [now rewrite Hk |].
      intros dst src Hin. rewrite count_occ_snoc_same. apply (Hent _ _ Hin).
      rewrite <- Hk. apply in_map_iff. exists (dst, src). auto.
    + rewrite (count_occ_snoc_other _ _ _ Hne).
      destruct (Hother l phis Hne Hl). split; auto.
  - simpl. intros [= <-] Hinv l phis Hl.
    assert (Hne : l <> successor) by (intros ->; congruence).
    rewrite (count_occ_snoc_other _ _ _ Hne). auto.
Qed.

Lemma rename_block_arity (ira : IRA) (head lbl : label) (seen : list label)
  (stack stack' : list (list (expr * nat))) (s s' : SSA) :
  SSADiGraph.rename_block ira head lbl stack s = Ok (stack', s') ->
  phis_arity seen (_phinodes s) ->
  phis_arity (seen ++ successors_iter ira lbl) (_phinodes s').
Proof.
  unfold SSADiGraph.rename_block. destruct stack as [| top stack1]; [discriminate |].
  intros H Hinv. apply bind_ok in H. destruct H as (s1 & H1 & H).
  apply bind_ok in H. destruct H as (s2 & H2 & H).
  apply bind_ok in H. destruct H as (s3 & H3 & [= _ <-]).
  apply (rename_phi_lhs_arity seen) in H1; [| exact Hinv].
  apply rename_expressions_phinodes in H2. destruct H2 as [P2 _]. rewrite <- P2 in H1.
  rewrite (fold_left_bind (fun s x => SSADiGraph._rename_phi_rhs x s)) in H3 by reflexivity.
  simpl in H3.
  apply (fold_m_prefix (fun s x => SSADiGraph._rename_phi_rhs x s) (successors_iter ira lbl)
           (fun done st => phis_arity (seen ++ done) (_phinodes st)))
    with (l := successors_iter ira lbl) (done := []) (s := s2); auto.
  - intros done x rest st st' _ HJ Hrun. rewrite app_assoc.
    eapply rename_phi_rhs_arity; eauto.
  - now rewrite app_nil_r.
Qed.

Lemma rename_walk_arity (ira : IRA) (head : label) (walk : list label) :
  forall (seen : list label) (stack : list (list (expr * nat))) (s s' : SSA),
    SSADiGraph.rename_walk ira head walk stack s = Ok s' ->
    phis_arity seen (_phinodes s) ->
    phis_arity (seen ++ flat_map (successors_iter ira) walk) (_phinodes s').
Proof.
  induction walk as [| b rest IH]; intros seen stack s s'; simpl.
  - intros [= <-]. now rewrite app_nil_r.
  - intros H Hinv. apply bind_ok in H. destruct H as ([stack1 s1] & H1 & H).
    rewrite app_assoc. eapply IH; [exact H |].
    eapply rename_block_arity; eauto.
Qed.

(** The phi functions placed by [_place_phi] have no operand. *)
Lemma phinodes_place_arity (phinodes : list (label * list (expr * expr)))
  (node : label) (variable : expr) :
  phis_arity [] phinodes ->
  phis_arity [] (SSADiGraph.phinodes_place phinodes node variable
                   (SSADiGraph._gen_empty_phi variable)).
Proof.
  intros Hinv l phis. unfold SSADiGraph.phinodes_place.
  destruct (dict_get Nat.eqb phinodes node) as [d |] eqn:Hd;
    (destruct (Nat.eq_dec l node) as [-> | Hne];
     [rewrite (dict_get_set_same Nat.eqb Nat.eqb_eq); intros [= <-]
     | rewrite (dict_get_set_other Nat.eqb Nat.eqb_eq) by auto; apply Hinv]).
  - destruct (Hinv node d Hd) as [Hnd Har]. split.
    + now apply (dict_set_NoDup expr_eqb expr_eqb_eq).
    + intros dst src Hin. apply (dict_set_In_keyed expr_eqb expr_eqb_eq) in Hin.
      destruct Hin as [Hin | [_ ->]]; eauto.
  - split.
    + repeat constructor. intros [].
    + intros dst src [[= <- <-] | []]. reflexivity.
Qed.

Lemma place_node_arity (variable : expr) (p : SSADiGraph.placing) (node : label) :
  phis_arity [] (SSADiGraph.placed p) ->
  phis_arity [] (SSADiGraph.placed (SSADiGraph.place_node variable p node)).
Proof.
  intros H. unfold SSADiGraph.place_node.
  destruct (set_mem Nat.eqb node (SSADiGraph.done p)); auto.
  destruct (negb (set_mem Nat.eqb node (SSADiGraph.intodo p))); simpl;
    now apply phinodes_place_arity.
Qed.

Lemma place_nodes_arity (variable : expr) (nodes : list label) :
  forall p, phis_arity [] (SSADiGraph.placed p) ->
            phis_arity [] (SSADiGraph.placed (fold_left (SSADiGraph.place_node variable) nodes p)).
Proof.
  induction nodes as [| n nodes IH]; intros p H; simpl; auto.
  apply IH. now apply place_node_arity.
Qed.

Lemma place_loop_arity (choose : list label -> nat) (frontier : list (label * list label))
  (variable : expr) (fuel : nat) :
  forall p p', SSADiGraph.place_loop choose frontier variable fuel p = Ok p' ->
               phis_arity [] (SSADiGraph.placed p) -> phis_arity [] (SSADiGraph.placed p').
Proof.
  induction fuel as [| fuel IH]; intros p p'; simpl.
  - destruct (SSADiGraph.todo p); [| discriminate]. now intros [= <-].
  - destruct (SSADiGraph.todo p) as [| t todo'] eqn:Htodo; [now intros [= <-] |].
    destruct (set_pop choose (t :: todo')) as [[b todo1] |]; [| discriminate].
    intros H Hinv. eapply IH; [exact H |]. now apply place_nodes_arity.
Qed.

Lemma place_start_placed (blocks : list label) (phinodes : list (label * list (expr * expr))) :
  SSADiGraph.placed (SSADiGraph.place_start blocks phinodes) = phinodes.
Proof.
  unfold SSADiGraph.place_start.
  change phinodes with (SSADiGraph.placed (SSADiGraph.mk_placing [] [] [] phinodes)) at 2.
  generalize (SSADiGraph.mk_placing [] [] [] phinodes) as p.
  induction blocks as [| b blocks IH]; intros p; simpl; auto. now rewrite IH.
Qed.

Lemma place_defs_arity (choose : list label -> nat) (frontier : list (label * list label))
  (fuel : nat) (defs : list (expr * list label)) :
  forall phinodes phinodes',
    SSADiGraph.place_defs choose frontier fuel defs phinodes = Ok phinodes' ->
    phis_arity [] phinodes -> phis_arity [] phinodes'.
Proof.
  induction defs as [| [variable blocks] defs IH]; intros phinodes phinodes'; simpl.
  - now intros [= <-].
  - intros H Hinv. apply bind_ok in H. destruct H as (p & Hp & H).
    eapply IH; [exact H |]. unfold SSADiGraph.place_variable in Hp.
    eapply place_loop_arity; [exact Hp |]. now rewrite place_start_placed.
Qed.

Lemma init_defs_walk_phinodes (ira : IRA) (walk : list label) :
  forall s s', SSADiGraph.init_defs_walk ira walk s = Ok s' -> _phinodes s' = _phinodes s.
Proof.
  induction walk as [| b rest IH]; intros s s'; simpl.
  - now intros [= <-].
  - intros H. apply bind_ok in H. destruct H as ([r s1] & Hg & H).
    apply get_block_frame in Hg. destruct Hg as (_ & _ & _ & _ & P).
    destruct (nth_error (store s1) r); [| discriminate].
    apply IH in H. simpl in H. congruence.
Qed.

Lemma insert_phi_phinodes (s : SSA) : _phinodes (SSADiGraph._insert_phi s) = _phinodes s.
Proof.
  unfold SSADiGraph._insert_phi. generalize (_phinodes s) at 1 as nodes. intros nodes.
  revert s. induction nodes as [| [lbl phis] nodes IH]; intros s; simpl; auto.
  rewrite IH. clear IH. revert s. induction phis as [| phi phis IH]; intros s; simpl; auto.
  now rewrite IH.
Qed.

Lemma convert_phi_blocks_phinodes (ira : IRA) (nodes : list (label * list (expr * expr))) :
  forall s s', SSADiGraph.convert_phi_blocks ira nodes s = Ok s' ->
               _phinodes s' = _phinodes s.
Proof.
  induction nodes as [| [lbl phis] nodes IH]; intros s s'; simpl.
  - now intros [= <-].
  - intros H. apply bind_ok in H. destruct H as ([r s1] & Hg & H).
    apply get_block_frame in Hg. destruct Hg as (_ & _ & _ & _ & P).
    apply IH in H. simpl in H. congruence.
Qed.

(** C5 (as amended): after the full-CFG transform, the operand count of
    every phi function equals the number of CFG edges into its block that
    leave a block processed by the dominator-tree walk, one operand being
    added when each such predecessor is processed. A predecessor that the
    walk does not reach adds no operand. *)
Theorem phi_arity_is_walked_in_edges (choose : list label -> nat) (fuel : nat) (ira : IRA)
  (head : label) (h : heap) (s' : SSA) :
  SSADiGraph.transform choose fuel ira head (init h) = Ok s' ->
  forall lbl phis dst src,
    dict_get Nat.eqb (_phinodes s') lbl = Some phis -> In (dst, src) phis ->
    List.length (phi_operands src) = in_edges_from ira (dominator_tree_walk ira head) lbl.
Proof.
  unfold SSADiGraph.transform, SSADiGraph._init_variable_defs, SSADiGraph._place_phi,
    SSADiGraph._rename, SSADiGraph._convert_phi.
  intros H. apply bind_ok in H. destruct H as (s1 & H1 & H).
  apply bind_ok in H. destruct H as (s2 & H2 & H).
  apply bind_ok in H. destruct H as (s3 & H3 & H).
  apply bind_ok in H2. destruct H2 as (phinodes & H2 & [= <-]).
  apply init_defs_walk_phinodes in H1. simpl in H1. rewrite H1 in H2.
  apply place_defs_arity in H2; [| intros l phis; discriminate].
  apply (rename_walk_arity ira head _ []) in H3; [| exact H2].
  apply convert_phi_blocks_phinodes in H. rewrite insert_phi_phinodes in H.
  rewrite <- H in H3. intros lbl phis dst src Hl Hin.
  destruct (H3 lbl phis Hl) as [_ Har]. exact (Har dst src Hin).
Qed.

Lemma phi_arity_is_walked_in_edges_witness :
  List.length (phi_operands (ExprOp "phi" [ssa_var "x" 2; ssa_var "x" 1]))
  = in_edges_from diamond (dominator_tree_walk diamond 0) 3.
Proof.
  eapply (phi_arity_is_walked_in_edges pop_first 4 diamond 0 diamond_store diamond_ssa)
    with (dst := ssa_var "x" 3).
  - vm_compute. reflexivity.
  - vm_compute. reflexivity.
  - left. reflexivity.
Defined.

(** C5 (as stated) fails: the join [J] of the diamond with a side entry
    has three predecessors in the CFG, and its phi functions have two
    operands, since the walk never processes the unreachable block [U]. *)
Lemma side_entry_phi_misses_predecessor :
  exists s',
    SSADiGraph.transform pop_first 4 side_entry 0 (init side_entry_store) = Ok s'
    /\ dict_get Nat.eqb (_phinodes s') 3
       = Some [ (ssa_var "x" 2, ExprOp "phi" [ssa_var "x" 0; ssa_var "x" 1]);
                (ssa_var "y" 1, ExprOp "phi" [ssa_var "y" 0; var "y"]) ]
    /\ in_edges_from side_entry (dict_keys (ira_blocks side_entry)) 3 = 3.
Proof. eexists. split; [vm_compute; reflexivity | split; vm_compute; reflexivity]. Qed.

(** ** The variables that receive a phi function *)

Lemma versions_is_ExprId (v dst : expr) :
  versions v dst -> SSADiGraph.is_ExprId v = true -> SSADiGraph.is_ExprId dst = true.
Proof. intros H Hv. destruct H; auto. Qed.

Lemma defs_add_ok (ira : IRA) (defs : list (expr * list label)) (dst : expr) (lbl : label) :
  SSADiGraph.is_ExprId dst = true ->
  set_mem expr_eqb dst (SSADiGraph.instruction_pointer ira) = false ->
  defs_ok ira defs -> defs_ok ira (SSADiGraph.defs_add defs dst lbl).
Proof.
  intros Hid Hip Hok v Hv. unfold SSADiGraph.defs_add in Hv.
  destruct (dict_get expr_eqb defs dst);
    apply (dict_set_keys_In expr_eqb) in Hv; destruct Hv as [-> | Hv]; auto.
Qed.

Lemma init_defs_block_ok (ira : IRA) (ib : irbloc) (defs : list (expr * list label)) :
  defs_ok ira defs -> defs_ok ira (SSADiGraph.init_defs_block ira ib defs).
Proof.
  unfold SSADiGraph.init_defs_block. generalize (SSADiGraph.ir_dsts ib) as dsts.
  intros dsts. revert defs. induction dsts as [| dst dsts IH]; intros defs Hok; simpl; auto.
  apply IH. destruct (SSADiGraph.is_ExprId dst) eqn:Hid; auto.
  destruct (set_mem expr_eqb dst (SSADiGraph.instruction_pointer ira)) eqn:Hip; auto.
  now apply defs_add_ok.
Qed.

Lemma init_defs_walk_ok (ira : IRA) (walk : list label) :
  forall s s', SSADiGraph.init_defs_walk ira walk s = Ok s' ->
               defs_ok ira (defs s) -> defs_ok ira (defs s').
Proof.
  induction walk as [| b rest IH]; intros s s'; simpl.
  - now intros [= <-].
  - intros H Hok. apply bind_ok in H. destruct H as ([r s1] & Hg & H).
    apply get_block_frame in Hg. destruct Hg as (_ & _ & _ & D & _).
    destruct (nth_error (store s1) r) as [ib |]; [| discriminate].
    eapply IH; [exact H |]. simpl. apply init_defs_block_ok. now rewrite D.
Qed.

Lemma phinodes_place_for (vars : list expr) (phinodes : list (label * list (expr * expr)))
  (node : label) (variable phi : expr) :
  In variable vars -> phis_for vars phinodes ->
  phis_for vars (SSADiGraph.phinodes_place phinodes node variable phi).
Proof.
  intros Hv Hinv l phis dst src. unfold SSADiGraph.phinodes_place.
  destruct (dict_get Nat.eqb phinodes node) as [d |] eqn:Hd;
    (destruct (Nat.eq_dec l node) as [-> | Hne];
     [rewrite (dict_get_set_same Nat.eqb Nat.eqb_eq); intros [= <-]
     | rewrite (dict_get_set_other Nat.eqb Nat.eqb_eq) by auto; apply Hinv]).
  - intros Hin. apply (dict_set_In_keyed expr_eqb expr_eqb_eq) in Hin.
    destruct Hin as [Hin | [-> _]]; [eapply Hinv; eauto |].
    exists variable. split; [exact Hv | constructor].
  - intros [[= <- <-] | []]. exists variable. split; [exact Hv | constructor].
Qed.

Lemma place_nodes_for (vars : list expr) (variable : expr) (nodes : list label) :
  In variable vars ->
  forall p, phis_for vars (SSADiGraph.placed p) ->
            phis_for vars (SSADiGraph.placed (fold_left (SSADiGraph.place_node variable) nodes p)).
Proof.
  intros Hv. induction nodes as [| n nodes IH]; intros p H; simpl; auto.
  apply IH. unfold SSADiGraph.place_node.
  destruct (set_mem Nat.eqb n (SSADiGraph.done p)); auto.
  destruct (negb (set_mem Nat.eqb n (SSADiGraph.intodo p))); simpl;
    now apply phinodes_place_for.
Qed.

Lemma place_loop_for (vars : list expr) (choose : list label -> nat)
  (frontier : list (label * list label)) (variable : expr) (fuel : nat) :
  In variable vars ->
  forall p p', SSADiGraph.place_loop choose frontier variable fuel p = Ok p' ->
               phis_for vars (SSADiGraph.placed p) -> phis_for vars (SSADiGraph.placed p').
Proof.
  intros Hv. induction fuel as [| fuel IH]; intros p p'; simpl.
  - destruct (SSADiGraph.todo p); [| discriminate]. now intros [= <-].
  - destruct (SSADiGraph.todo p) as [| t todo'] eqn:Htodo; [now intros [= <-] |].
    destruct (set_pop choose (t :: todo')) as [[b todo1] |]; [| discriminate].
    intros H Hinv. eapply IH; [exact H |]. now apply place_nodes_for.
Qed.

Lemma place_defs_for (vars : list expr) (choose : list label -> nat)
  (frontier : list (label * list label)) (fuel : nat) (defs : list (expr * list label)) :
  (forall v, In v (dict_keys defs) -> In v vars) ->
  forall phinodes phinodes',
    SSADiGraph.place_defs choose frontier fuel defs phinodes = Ok phinodes' ->
    phis_for vars phinodes -> phis_for vars phinodes'.
Proof.
  induction defs as [| [variable blocks] defs IH]; intros Hsub phinodes phinodes'; simpl.
  - now intros [= <-].
  - intros H Hinv. apply bind_ok in H. destruct H as (p & Hp & H).
    eapply IH; [| exact H |].
    + intros v Hv. apply Hsub. now right.
    + unfold SSADiGraph.place_variable in Hp.
      eapply (place_loop_for vars); [| exact Hp |].
      * apply Hsub. now left.
      * now rewrite place_start_placed.
Qed.

Lemma rename_phi_lhs_dst_for (vars : list expr) (lbl : label) (s s' : SSA) (dst : expr) :
  Forall (fun v => SSADiGraph.is_ExprId v = true) vars ->
  SSADiGraph.rename_phi_lhs_dst lbl s dst = Ok s' ->
  phis_for vars (_phinodes s) -> phis_for vars (_phinodes s').
Proof.
  intros Hids. unfold SSADiGraph.rename_phi_lhs_dst.
  destruct (dict_get Nat.eqb (_phinodes s) lbl) as [d |] eqn:Hd; [| discriminate].
  destruct (dict_get expr_eqb d dst) as [payload |] eqn:Hp; [| discriminate].
  intros H Hinv. apply bind_ok in H. destruct H as ([e s2] & H1 & H).
  pose proof H1 as Hframe.
  apply transform_expression_lhs_frame in Hframe. destruct Hframe as [(_ & _ & _ & P) _].
  simpl in P. rewrite P in H. rewrite (dict_get_set_same Nat.eqb Nat.eqb_eq) in H.
  injection H as <-. simpl.
  apply (dict_get_In expr_eqb expr_eqb_eq) in Hp.
  destruct (Hinv lbl d dst payload Hd Hp) as (v & Hv & Hver).
  intros l phis k src Hl. destruct (Nat.eq_dec l lbl) as [-> | Hne].
  - rewrite (dict_get_set_same Nat.eqb Nat.eqb_eq) in Hl. injection Hl as <-.
    intros Hin. apply (dict_set_In_keyed expr_eqb expr_eqb_eq) in Hin.
    destruct Hin as [Hin | [-> _]].
    + apply dict_del_In in Hin. eapply Hinv; eauto.
    + exists v. split; [exact Hv |].
      rewrite Forall_forall in Hids.
      pose proof (versions_is_ExprId v dst Hver (Hids v Hv)) as Hdst.
      destruct dst as [n size | | |]; try discriminate.
      match type of H1 with _transform_expression_lhs _ ?s1 = _ =>
        destruct (transform_expression_lhs_id n size s1) as (s3 & Heq & _) end.
      rewrite Heq in H1. injection H1 as <- _. now constructor.
  - rewrite !(dict_get_set_other Nat.eqb Nat.eqb_eq) in Hl by auto. eapply Hinv; eauto.
Qed.

Lemma rename_phi_rhs_dst_for (vars : list expr) (successor : label) (s s' : SSA) (dst : expr) :
  SSADiGraph.rename_phi_rhs_dst successor s dst = Ok s' ->
  phis_for vars (_phinodes s) -> phis_for vars (_phinodes s').
Proof.
  intros Hrun Hinv.
  destruct (rename_phi_rhs_dst_spec _ _ _ _ Hrun) as (d & src0 & e & Hd & Hsrc & _ & Hp).
  rewrite Hp. intros l phis k src Hl. destruct (Nat.eq_dec l successor) as [-> | Hne].
  - rewrite (dict_get_set_same Nat.eqb Nat.eqb_eq) in Hl. injection Hl as <-.
    intros Hin. apply (dict_set_In_keyed expr_eqb expr_eqb_eq) in Hin.
    destruct Hin as [Hin | [-> _]]; [eapply Hinv; eauto |].
    apply (dict_get_In expr_eqb expr_eqb_eq) in Hsrc. eapply Hinv; eauto.
  - rewrite (dict_get_set_other Nat.eqb Nat.eqb_eq) in Hl by auto. eapply Hinv; eauto.
Qed.

Lemma keeps_phis_for_refl (vars : list expr) (s : SSA) : keeps_phis_for vars s s.
Proof. split; auto. Qed.

Lemma keeps_phis_for_trans (vars : list expr) (a b c : SSA) :
  keeps_phis_for vars a b -> keeps_phis_for vars b c -> keeps_phis_for vars a c.
Proof. intros [A1 A2] [B1 B2]. split; [congruence | auto]. Qed.

Lemma rename_block_for (vars : list expr) (ira : IRA) (head lbl : label)
  (stack stack' : list (list (expr * nat))) (s s' : SSA) :
  Forall (fun v => SSADiGraph.is_ExprId v = true) vars ->
  SSADiGraph.rename_block ira head lbl stack s = Ok (stack', s') ->
  keeps_phis_for vars s s'.
Proof.
  intros Hids. unfold SSADiGraph.rename_block.
  destruct stack as [| top stack1]; [discriminate |].
  intros H. apply bind_ok in H. destruct H as (s1 & H1 & H).
  apply bind_ok in H. destruct H as (s2 & H2 & H).
  apply bind_ok in H. destruct H as (s3 & H3 & [= _ <-]).
  unfold SSADiGraph._rename_phi_lhs in H1.
  rewrite (fold_left_bind (SSADiGraph.rename_phi_lhs_dst lbl)) in H1 by reflexivity.
  simpl in H1.
  apply (fold_m_inv _ (keeps_phis_for vars) (keeps_phis_for_refl vars)
           (keeps_phis_for_trans vars)) in H1.
  2:{ intros s0 x s0' _ Hx. split.
      - apply rename_phi_lhs_dst_untouched in Hx. apply Hx.
      - now apply (rename_phi_lhs_dst_for vars lbl s0 s0' x). }
  apply rename_expressions_phinodes in H2. destruct H2 as [P2 D2].
  rewrite (fold_left_bind (fun s x => SSADiGraph._rename_phi_rhs x s)) in H3 by reflexivity.
  simpl in H3.
  apply (fold_m_inv _ (keeps_phis_for vars) (keeps_phis_for_refl vars)
           (keeps_phis_for_trans vars)) in H3.
  2:{ intros s0 x s0' _ Hx. unfold SSADiGraph._rename_phi_rhs in Hx.
      rewrite (fold_left_bind (SSADiGraph.rename_phi_rhs_dst x)) in Hx by reflexivity.
      simpl in Hx.
      apply (fold_m_inv _ (keeps_phis_for vars) (keeps_phis_for_refl vars)
               (keeps_phis_for_trans vars)) in Hx; auto.
      intros s4 y s4' _ Hy. split.
      - apply rename_phi_rhs_dst_phis_only in Hy. apply Hy.
      - now apply (rename_phi_rhs_dst_for vars x s4 s4' y). }
  destruct H1 as [A1 A2]. destruct H3 as [B1 B2]. split.
  - simpl in A1. congruence.
  - intros Hinv. apply B2. rewrite P2. apply A2. exact Hinv.
Qed.

Lemma rename_walk_for (vars : list expr) (ira : IRA) (head : label) (walk : list label) :
  Forall (fun v => SSADiGraph.is_ExprId v = true) vars ->
  forall stack s s', SSADiGraph.rename_walk ira head walk stack s = Ok s' ->
                     keeps_phis_for vars s s'.
Proof.
  intros Hids. induction walk as [| b rest IH]; intros stack s s'; simpl.
  - intros [= <-]. apply keeps_phis_for_refl.
  - intros H. apply bind_ok in H. destruct H as ([stack1 s1] & H1 & H).
    eapply keeps_phis_for_trans; [eapply rename_block_for; eauto | eauto].
Qed.

Lemma convert_phi_blocks_defs (ira : IRA) (nodes : list (label * list (expr * expr))) :
  forall s s', SSADiGraph.convert_phi_blocks ira nodes s = Ok s' -> defs s' = defs s.
Proof.
  induction nodes as [| [lbl phis] nodes IH]; intros s s'; simpl.
  - now intros [= <-].
  - intros H. apply bind_ok in H. destruct H as ([r s1] & Hg & H).
    apply get_block_frame in Hg. destruct Hg as (_ & _ & _ & D & _).
    apply IH in H. simpl in H. congruence.
Qed.

Lemma set_mem_app_false {A : Type} (eqb : A -> A -> bool) (x : A) (a b : list A) :
  set_mem eqb x (a ++ b) = false -> set_mem eqb x a = false /\ set_mem eqb x b = false.
Proof.
  induction a as [| y a IH]; simpl; auto.
  destruct (eqb x y); simpl; auto. discriminate.
Qed.

(** The destinations of the parallel instructions are those of the
    AssignBlock. *)
Lemma parallel_instructions_In (assignblk : AssignBlock) (aff : expr * expr) :
  In aff (_parallel_instructions assignblk) <-> In aff assignblk.
Proof.
  unfold _parallel_instructions. rewrite parallel_instructions_fold. cbn [app].
  rewrite in_app_iff, <- in_rev, !filter_In.
  destruct (dst_is_mem aff); simpl; intuition discriminate.
Qed.

(** A destination stands once in an AssignBlock. *)
Lemma assignblk_dst_once (assignblk : AssignBlock) (dst src src' : expr) :
  NoDup (dict_keys assignblk) ->
  In (dst, src) assignblk -> In (dst, src') assignblk -> src = src'.
Proof.
  unfold dict_keys. induction assignblk as [| [k v] rest IH]; simpl; [tauto |].
  intros Hnd. inversion Hnd as [| ? ? Hfresh Hrest]; subst.
  intros [[= -> ->] | H1] [[= <-] | H2]; auto.
  - exfalso. apply Hfresh. apply in_map_iff. exists (dst, src'). auto.
  - exfalso. apply Hfresh. apply in_map_iff. exists (k, src). auto.
Qed.

Lemma fold_dict_set_writes (f g : expr * expr -> expr) (k : expr) (l : list (expr * expr)) :
  forall acc,
    In k (dict_keys (fold_left (fun out aff => dict_set expr_eqb out (f aff) (g aff)) l acc)) ->
    In k (dict_keys acc) \/ exists aff, In aff l /\ k = f aff.
Proof.
  induction l as [| a l IH]; intros acc; simpl; auto.
  intros H. apply IH in H. destruct H as [H | (aff & Hin & ->)]; [| eauto].
  apply (dict_set_keys_In expr_eqb) in H. destruct H as [-> | H]; eauto.
Qed.

Lemma fold_dict_set_reads (f g : expr * expr -> expr) (k v : expr) (l : list (expr * expr)) :
  (forall aff, In aff l -> f aff = k -> g aff = v) ->
  forall acc,
    dict_get expr_eqb acc k = Some v \/ (exists aff, In aff l /\ f aff = k) ->
    dict_get expr_eqb (fold_left (fun out aff => dict_set expr_eqb out (f aff) (g aff)) l acc) k
    = Some v.
Proof.
  induction l as [| a l IH]; intros Hall acc H; simpl.
  - destruct H as [H | (aff & [] & _)]. exact H.
  - apply IH; [intros aff Hin; apply Hall; now right |].
    destruct (expr_eqb (f a) k) eqn:E.
    + apply expr_eqb_eq in E. left. rewrite <- E at 1.
      rewrite (dict_get_set_same expr_eqb expr_eqb_eq). f_equal. apply Hall; auto. now left.
    + apply expr_eqb_neq in E.
      rewrite (dict_get_set_other expr_eqb expr_eqb_eq) by congruence.
      destruct H as [H | (aff & [<- | Hin] & Hk)]; [auto | contradiction | eauto].
Qed.

(** A renamed destination is a memory expression or an SSA name. *)
Lemma rename_dst_versioned (s : SSA) (dst : expr) :
  supported_dst dst = true -> plain_id (rename_dst s dst) = false.
Proof.
  destruct dst as [n size | | a size |]; try discriminate; intros _; [reflexivity |].
  cbn [rename_dst]. now destruct (rename_rhs_mem (_stack_rhs s) a size) as (a' & ->).
Qed.

Lemma two_phase_rename_versioned (s : SSA) (assignblk : AssignBlock) (d : expr) :
  forallb (fun aff => supported_dst (fst aff)) assignblk = true ->
  In d (dict_keys (two_phase_rename s assignblk)) -> plain_id d = false.
Proof.
  intros Hsup Hd. unfold two_phase_rename in Hd.
  apply (fold_dict_set_writes (fun aff => rename_dst s (fst aff))
           (fun aff => rename_rhs (_stack_rhs s) (snd aff))) in Hd.
  destruct Hd as [[] | (aff & Hin & ->)].
  apply rename_dst_versioned. rewrite forallb_forall in Hsup.
  apply Hsup. now apply (proj1 (parallel_instructions_In _ _)).
Qed.

(** The entry of an identifier destination in the renamed AssignBlock. *)
Lemma two_phase_rename_id (s : SSA) (assignblk : AssignBlock) (n : name) (size : nat)
  (src : expr) :
  NoDup (dict_keys assignblk) ->
  forallb (fun aff => supported_dst (fst aff)) assignblk = true ->
  In (ExprId n size, src) assignblk ->
  dict_get expr_eqb (two_phase_rename s assignblk)
    (ExprId (NTup n (counter s (ExprId n size))) size)
  = Some (rename_rhs (_stack_rhs s) src).
Proof.
  intros Hnd Hsup Hin. unfold two_phase_rename.
  apply (fold_dict_set_reads (fun aff => rename_dst s (fst aff))
           (fun aff => rename_rhs (_stack_rhs s) (snd aff))).
  - intros [dst src'] Haff Hk. apply (proj1 (parallel_instructions_In _ _)) in Haff.
    cbn [fst snd] in *.
    rewrite forallb_forall in Hsup. pose proof (Hsup _ Haff) as Hd. cbn [fst] in Hd.
    destruct dst as [n' size' | | a size' |]; try discriminate.
    + cbn [rename_dst] in Hk. injection Hk as -> _ ->.
      f_equal. apply (assignblk_dst_once _ _ _ _ Hnd Haff Hin).
    + cbn [rename_dst] in Hk.
      destruct (rename_rhs_mem (_stack_rhs s) a size') as (a' & Ha). rewrite Ha in Hk.
      discriminate.
  - right. exists (ExprId n size, src).
    split; [now apply (proj2 (parallel_instructions_In _ _)) | reflexivity].
Qed.

(** C1 (as amended): in the full-CFG transform, neither [IRDst] nor a
    program counter is ever recorded as a defined variable, and the
    destination of every phi function is a recorded variable or an SSA
    version of one: [IRDst] never receives a phi function. The renaming of
    a block body makes no exception: in every AssignBlock that assigns
    [IRDst] or a program counter, that destination takes the version
    [counter[v]] like any other identifier destination, its counter moves
    on, and the unversioned name is no destination of the renamed
    AssignBlock. *)
Theorem irdst_receives_no_phi (choose : list label -> nat) (fuel : nat) (ira : IRA)
  (head : label) (h : heap) (s' : SSA) :
  SSADiGraph.transform choose fuel ira head (init h) = Ok s' ->
  (forall v, In v (dict_keys (defs s')) -> v <> IRDst ira /\ ~ In v (arch_pc ira))
  /\ (forall lbl phis dst src,
        dict_get Nat.eqb (_phinodes s') lbl = Some phis -> In (dst, src) phis ->
        exists v, In v (dict_keys (defs s')) /\ versions v dst)
  /\ (forall (nm : string) (size : nat) (assignblk : AssignBlock) (src : expr) (s : SSA),
        IRDst ira = ExprId (NStr nm) size \/ In (ExprId (NStr nm) size) (arch_pc ira) ->
        NoDup (dict_keys assignblk) ->
        forallb (fun aff => supported_dst (fst aff)) assignblk = true ->
        In (ExprId (NStr nm) size, src) assignblk ->
        exists assignblk_ssa s1,
          rename_assignblk assignblk s = Ok (assignblk_ssa, s1)
          /\ dict_get expr_eqb assignblk_ssa
               (ExprId (NTup (NStr nm) (counter s (ExprId (NStr nm) size))) size)
             = Some (rename_rhs (_stack_rhs s) src)
          /\ ~ In (ExprId (NStr nm) size) (dict_keys assignblk_ssa)
          /\ counter s1 (ExprId (NStr nm) size) = counter s (ExprId (NStr nm) size) + 1).
Proof.
  unfold SSADiGraph.transform, SSADiGraph._init_variable_defs, SSADiGraph._place_phi,
    SSADiGraph._rename, SSADiGraph._convert_phi.
  intros H. apply bind_ok in H. destruct H as (s1 & H1 & H).
  apply bind_ok in H. destruct H as (s2 & H2 & H).
  apply bind_ok in H. destruct H as (s3 & H3 & H).
  apply bind_ok in H2. destruct H2 as (phinodes & H2 & [= <-]).
  pose proof (init_defs_walk_ok ira _ _ _ H1) as Hok.
  specialize (Hok ltac:(intros v [])).
  apply init_defs_walk_phinodes in H1. simpl in H1. rewrite H1 in H2.
  apply (place_defs_for (dict_keys (defs s1))) in H2; auto; [| intros l phis d src; discriminate].
  assert (Hids : Forall (fun v => SSADiGraph.is_ExprId v = true) (dict_keys (defs s1))).
  { apply Forall_forall. intros v Hv. apply (Hok v Hv). }
  apply (rename_walk_for (dict_keys (defs s1)) ira head _ Hids) in H3.
  destruct H3 as [D3 P3]. simpl in D3, P3. specialize (P3 H2).
  pose proof (convert_phi_blocks_phinodes _ _ _ _ H) as P4.
  apply convert_phi_blocks_defs in H.
  rewrite insert_phi_phinodes in P4.
  destruct (insert_phi_untouched s3) as (_ & _ & D5).
  assert (Hdefs : defs s' = defs s1) by congruence.
  rewrite Hdefs, P4. split; [| split; [exact P3 |]].
  - intros v Hv. destruct (Hok v Hv) as [_ Hip].
    unfold SSADiGraph.instruction_pointer in Hip.
    apply set_mem_app_false in Hip. destruct Hip as [Hpc Hdst]. split.
    + intros ->. simpl in Hdst. now rewrite expr_eqb_refl in Hdst.
    + now apply (set_mem_false expr_eqb expr_eqb_eq).
  - intros nm size assignblk src s0 _ Hnd Hsup Hin.
    destruct (rename_assignblk_run assignblk s0 Hnd Hsup) as (s4 & Hrun & Hdsts & _).
    exists (two_phase_rename s0 assignblk), s4. split; [exact Hrun |]. split; [| split].
    + now apply two_phase_rename_id.
    + intros Hkey. now apply (two_phase_rename_versioned s0 assignblk _ Hsup) in Hkey.
    + destruct (Hdsts (ExprId (NStr nm) size)) as [Hl _].
      * apply in_map_iff. exists (ExprId (NStr nm) size, src). split; [reflexivity |].
        apply filter_In. split; [exact Hin | reflexivity].
      * unfold counter at 1. now rewrite Hl.
Qed.

Lemma irdst_receives_no_phi_witness :
  Forall (fun ib => In (IRDst branch) (SSADiGraph.ir_dsts ib)) branch_store
  /\ dict_keys (defs branch_ssa) = [var "x"; var "z"]
  /\ (forall v, In v (dict_keys (defs branch_ssa)) ->
                v <> IRDst branch /\ ~ In v (arch_pc branch))
  /\ (forall lbl phis dst src,
        dict_get Nat.eqb (_phinodes branch_ssa) lbl = Some phis -> In (dst, src) phis ->
        exists v, In v (dict_keys (defs branch_ssa)) /\ versions v dst)
  /\ (forall (nm : string) (size : nat) (assignblk : AssignBlock) (src : expr) (s : SSA),
        IRDst branch = ExprId (NStr nm) size \/ In (ExprId (NStr nm) size) (arch_pc branch) ->
        NoDup (dict_keys assignblk) ->
        forallb (fun aff => supported_dst (fst aff)) assignblk = true ->
        In (ExprId (NStr nm) size, src) assignblk ->
        exists assignblk_ssa s1,
          rename_assignblk assignblk s = Ok (assignblk_ssa, s1)
          /\ dict_get expr_eqb assignblk_ssa
               (ExprId (NTup (NStr nm) (counter s (ExprId (NStr nm) size))) size)
             = Some (rename_rhs (_stack_rhs s) src)
          /\ ~ In (ExprId (NStr nm) size) (dict_keys assignblk_ssa)
          /\ counter s1 (ExprId (NStr nm) size) = counter s (ExprId (NStr nm) size) + 1).
Proof.
  split; [repeat constructor; vm_compute; tauto |]. split; [vm_compute; reflexivity |].
  apply (irdst_receives_no_phi pop_first 7 branch 0 branch_store branch_ssa).
  vm_compute. reflexivity.
Defined.

(** C1 (as stated) fails: the block [{IRDst = 5, r = 0}] is renamed to
    [{IRDst.0 = 5, r.0 = 0}]; [IRDst] is given an SSA version on its
    left-hand side. *)
Lemma irdst_destination_is_versioned :
  exists s',
    SSABlock.transform jump 0 (init jump_store) = Ok s'
    /\ block_irs s' 0
       = Some [ [ (ssa_var "IRDst" 0, ExprInt 5 32); (ssa_var "r" 0, ExprInt 0 32) ] ].
Proof. eexists. split; vm_compute; reflexivity. Qed.

(** ** Placement of the phi functions *)

Lemma phi_at_place (phinodes : list (label * list (expr * expr))) (node n : label)
  (variable v phi : expr) :
  phi_at (SSADiGraph.phinodes_place phinodes node variable phi) n v
  = if Nat.eqb n node && expr_eqb v variable then Some phi else phi_at phinodes n v.
Proof.
  unfold phi_at, SSADiGraph.phinodes_place.
  destruct (Nat.eqb n node) eqn:En; simpl.
  - apply Nat.eqb_eq in En. subst n.
    destruct (dict_get Nat.eqb phinodes node) as [d |] eqn:Hd;
      rewrite (dict_get_set_same Nat.eqb Nat.eqb_eq).
    + destruct (expr_eqb v variable) eqn:Ev.
      * apply expr_eqb_eq in Ev. subst. apply (dict_get_set_same expr_eqb expr_eqb_eq).
      * apply expr_eqb_neq in Ev. now rewrite (dict_get_set_other expr_eqb expr_eqb_eq).
    + simpl. now destruct (expr_eqb v variable).
  - apply Nat.eqb_neq in En.
    destruct (dict_get Nat.eqb phinodes node);
      now rewrite (dict_get_set_other Nat.eqb Nat.eqb_eq).
Qed.

Lemma filter_length_le {A : Type} (f g : A -> bool) (l : list A) :
  (forall x, g x = true -> f x = true) ->
  List.length (filter g l) <= List.length (filter f l).
Proof.
  intros H. induction l as [| x l IH]; simpl; auto.
  destruct (g x) eqn:Eg.
  - rewrite (H x Eg). simpl. lia.
  - destruct (f x); simpl; lia.
Qed.

Lemma filter_length_lt {A : Type} (f g : A -> bool) (l : list A) (n : A) :
  (forall x, g x = true -> f x = true) ->
  In n l -> f n = true -> g n = false ->
  List.length (filter g l) < List.length (filter f l).
Proof.
  intros H. induction l as [| x l IH]; simpl; [tauto |].
  intros [-> | Hin] Hf Hg.
  - rewrite Hf, Hg. simpl. pose proof (filter_length_le f g l H). lia.
  - specialize (IH Hin Hf Hg). destruct (g x) eqn:Eg.
    + rewrite (H x Eg). simpl. lia.
    + destruct (f x); simpl; lia.
Qed.

Lemma set_add_length {A : Type} (eqb : A -> A -> bool) (x : A) (s : list A) :
  List.length (set_add eqb x s) <= S (List.length s).
Proof.
  unfold set_add. destruct (set_mem eqb x s); [lia |]. rewrite length_app. simpl. lia.
Qed.

Lemma remove_nth_length {A : Type} (i : nat) (s : list A) (x : A) :
  nth_error s i = Some x -> List.length s = S (List.length (remove_nth i s)).
Proof.
  revert i; induction s as [| a s IH]; intros [| i]; simpl; try discriminate; auto.
Qed.

Lemma set_pop_length {A : Type} (choose : list A -> nat) (s : list A) (x : A) (s' : list A) :
  set_pop choose s = Some (x, s') -> List.length s = S (List.length s').
Proof.
  unfold set_pop. destruct s as [| a s0]; [discriminate |].
  destruct (nth_error _ _) eqn:E; [| discriminate].
  intros [= <- <-]. eapply remove_nth_length; eauto.
Qed.

(** [frontier.get(block_label, [])] holds the nodes of the entry of the
    block, if it has one. *)
Lemma frontier_get_In (frontier : list (label * list label)) (b n : label) :
  In n (SSADiGraph.frontier_get frontier b)
  <-> exists nodes, dict_get Nat.eqb frontier b = Some nodes /\ In n nodes.
Proof.
  unfold SSADiGraph.frontier_get. destruct (dict_get Nat.eqb frontier b) as [nodes |].
  - split; [eauto | now intros (nodes' & [= <-] & H)].
  - split; [intros [] | now intros (nodes' & [=] & _)].
Qed.

Section Placement.
Variable choose : list label -> nat.
Variable frontier : list (label * list label).
Variable variable : expr.
Variable blocks : list label.
Variable phinodes0 : list (label * list (expr * expr)).

Lemma mem_In (x : label) (s : list label) : set_mem Nat.eqb x s = true <-> In x s.
Proof. apply (set_mem_In Nat.eqb Nat.eqb_eq). Qed.

Lemma mem_not_In (x : label) (s : list label) : set_mem Nat.eqb x s = false <-> ~ In x s.
Proof. apply (set_mem_false Nat.eqb Nat.eqb_eq). Qed.

Lemma add_In (x y : label) (s : list label) :
  In y (set_add Nat.eqb x s) <-> y = x \/ In y s.
Proof. apply (set_add_In Nat.eqb Nat.eqb_eq). Qed.

Lemma grows_refl (p : SSADiGraph.placing) : grows p p.
Proof. unfold grows. repeat split; auto. intros x H1 H2. contradiction. Qed.

Lemma grows_trans (a b c : SSADiGraph.placing) : grows a b -> grows b c -> grows a c.
Proof.
  intros (A1 & A2 & A3 & A4) (B1 & B2 & B3 & B4). unfold grows. repeat split; auto.
  intros x Hc Ha. destruct (set_mem Nat.eqb x (SSADiGraph.intodo b)) eqn:E.
  - apply mem_In in E. auto.
  - apply mem_not_In in E. auto.
Qed.

Lemma place_node_grows (p : SSADiGraph.placing) (n : label) :
  grows p (SSADiGraph.place_node variable p n)
  /\ In n (SSADiGraph.done (SSADiGraph.place_node variable p n)).
Proof.
  unfold SSADiGraph.place_node. fold (set_mem Nat.eqb n (SSADiGraph.done p)).
  destruct (set_mem Nat.eqb n (SSADiGraph.done p)) eqn:Ed.
  - split; [apply grows_refl | now apply mem_In].
  - fold (set_mem Nat.eqb n (SSADiGraph.intodo p)).
    destruct (set_mem Nat.eqb n (SSADiGraph.intodo p)) eqn:Ei; simpl; unfold grows; simpl.
    + repeat split; auto; try solve [intros; apply add_In; auto].
      intros x H1 H2. contradiction.
    + repeat split; auto; try solve [intros; apply add_In; auto].
      intros x H1 H2. apply add_In in H1. destruct H1 as [-> | H1]; [| contradiction].
      apply add_In. auto.
Qed.

Lemma place_node_ok (p : SSADiGraph.placing) (b n : label) :
  placing_ok frontier variable blocks phinodes0 p -> In b (SSADiGraph.intodo p) ->
  In n (SSADiGraph.frontier_get frontier b) ->
  placing_ok frontier variable blocks phinodes0 (SSADiGraph.place_node variable p n).
Proof.
  intros (I1 & I2 & I3 & I4 & I5 & I6) Hb Hn.
  assert (Hidf : idf frontier blocks n).
  { apply frontier_get_In in Hn. destruct Hn as (nodes & Hget & Hn).
    apply I2 in Hb. destruct Hb as [Hb | Hb].
    - eapply idf_def; eauto.
    - eapply idf_step; eauto. }
  unfold SSADiGraph.place_node. fold (set_mem Nat.eqb n (SSADiGraph.done p)).
  destruct (set_mem Nat.eqb n (SSADiGraph.done p)) eqn:Ed.
  { unfold placing_ok. auto 10. }
  apply mem_not_In in Ed.
  assert (Hphi : forall x v,
             phi_at (SSADiGraph.phinodes_place (SSADiGraph.placed p) n variable
                       (SSADiGraph._gen_empty_phi variable)) x v
             = if Nat.eqb x n && expr_eqb v variable
               then Some (SSADiGraph._gen_empty_phi variable)
               else phi_at (SSADiGraph.placed p) x v) by (intros; apply phi_at_place).
  assert (Hdone : forall x, In x (set_add Nat.eqb n (SSADiGraph.done p)) ->
                            x = n \/ In x (SSADiGraph.done p)) by (intros x; apply add_In).
  assert (Hcommon :
            (forall x, In x (set_add Nat.eqb n (SSADiGraph.done p)) -> idf frontier blocks x)
            /\ (forall x, In x (set_add Nat.eqb n (SSADiGraph.done p)) ->
                  phi_at (SSADiGraph.phinodes_place (SSADiGraph.placed p) n variable
                            (SSADiGraph._gen_empty_phi variable)) x variable
                  = Some (SSADiGraph._gen_empty_phi variable))
            /\ (forall x, ~ In x (set_add Nat.eqb n (SSADiGraph.done p)) ->
                  phi_at (SSADiGraph.phinodes_place (SSADiGraph.placed p) n variable
                            (SSADiGraph._gen_empty_phi variable)) x variable
                  = phi_at phinodes0 x variable)
            /\ (forall x v, v <> variable ->
                  phi_at (SSADiGraph.phinodes_place (SSADiGraph.placed p) n variable
                            (SSADiGraph._gen_empty_phi variable)) x v
                  = phi_at phinodes0 x v)).
  { repeat split.
    - intros x Hx. destruct (Hdone x Hx) as [-> | H]; auto.
    - intros x Hx. rewrite Hphi, expr_eqb_refl, andb_true_r.
      destruct (Nat.eqb x n) eqn:E; auto.
      apply Nat.eqb_neq in E. destruct (Hdone x Hx) as [-> | H]; [contradiction | auto].
    - intros x Hx. rewrite Hphi.
      assert (x <> n) by (intros ->; apply Hx, add_In; auto).
      apply Nat.eqb_neq in H. rewrite H. simpl. apply I5.
      intros Hd. apply Hx, add_In. auto.
    - intros x v Hv. rewrite Hphi. apply expr_eqb_neq in Hv. rewrite Hv, andb_false_r.
      apply I6. now apply expr_eqb_neq. }
  destruct Hcommon as (C1 & C4 & C5 & C6).
  fold (set_mem Nat.eqb n (SSADiGraph.intodo p)).
  destruct (set_mem Nat.eqb n (SSADiGraph.intodo p)) eqn:Ei; simpl; unfold placing_ok; simpl.
  - apply mem_In in Ei. repeat split; auto.
    + intros H. apply I2 in H. destruct H; auto. right. apply add_In. auto.
    + intros [H | H]; [apply I2; auto |].
      apply add_In in H. destruct H as [-> | H]; [auto | apply I2; auto].
  - repeat split; auto.
    + intros H. apply add_In in H. destruct H as [-> | H].
      * right. apply add_In. auto.
      * apply I2 in H. destruct H; auto. right. apply add_In. auto.
    + intros [H | H]; apply add_In.
      * right. apply I2. auto.
      * apply add_In in H. destruct H as [-> | H]; auto. right. apply I2. auto.
    + intros x H. apply add_In in H. apply add_In. destruct H as [-> | H]; auto.
Qed.

Lemma place_nodes_ok (b : label) (nodes : list label) :
  forall p,
    placing_ok frontier variable blocks phinodes0 p -> In b (SSADiGraph.intodo p) ->
    (forall n, In n nodes -> In n (SSADiGraph.frontier_get frontier b)) ->
    placing_ok frontier variable blocks phinodes0 (fold_left (SSADiGraph.place_node variable) nodes p)
    /\ grows p (fold_left (SSADiGraph.place_node variable) nodes p)
    /\ forall n, In n nodes ->
         In n (SSADiGraph.done (fold_left (SSADiGraph.place_node variable) nodes p)).
Proof.
  induction nodes as [| n nodes IH]; intros p Hok Hb Hsub; simpl.
  - split; [exact Hok | split; [apply grows_refl | intros n []]].
  - destruct (place_node_grows p n) as [Hg Hn].
    destruct (IH (SSADiGraph.place_node variable p n)) as (A & B & C).
    + eapply place_node_ok; eauto. apply Hsub. now left.
    + apply Hg. exact Hb.
    + intros x Hx. apply Hsub. now right.
    + split; [exact A | split; [eapply grows_trans; eauto |]].
      intros x [<- | Hx]; [| auto]. destruct B as (B1 & _). auto.
Qed.

Lemma frontier_get_targets (b n : label) :
  In n (SSADiGraph.frontier_get frontier b) -> In n (targets frontier).
Proof.
  unfold SSADiGraph.frontier_get.
  destruct (dict_get Nat.eqb frontier b) as [nodes |] eqn:E; [| intros []].
  apply (dict_get_In Nat.eqb Nat.eqb_eq) in E. intros Hn.
  apply in_flat_map. exists (b, nodes). auto.
Qed.

Lemma place_node_measure (p : SSADiGraph.placing) (n : label) :
  In n (targets frontier) -> measure frontier (SSADiGraph.place_node variable p n) <= measure frontier p.
Proof.
  intros Hn. unfold SSADiGraph.place_node. fold (set_mem Nat.eqb n (SSADiGraph.done p)).
  destruct (set_mem Nat.eqb n (SSADiGraph.done p)); [lia |].
  fold (set_mem Nat.eqb n (SSADiGraph.intodo p)).
  destruct (set_mem Nat.eqb n (SSADiGraph.intodo p)) eqn:Ei; unfold measure; simpl; [lia |].
  pose proof (set_add_length Nat.eqb n (SSADiGraph.todo p)) as Hlen.
  assert (Hlt : List.length
                  (filter (fun x => negb (set_mem Nat.eqb x (set_add Nat.eqb n (SSADiGraph.intodo p))))
                     (targets frontier))
                < List.length
                    (filter (fun x => negb (set_mem Nat.eqb x (SSADiGraph.intodo p))) (targets frontier))).
  { apply filter_length_lt with (n := n); auto.
    - intros x Hx. apply negb_true_iff in Hx. apply negb_true_iff.
      apply mem_not_In in Hx. apply mem_not_In. intros H. apply Hx. apply add_In. auto.
    - now rewrite Ei.
    - apply negb_false_iff. apply mem_In. apply add_In. auto. }
  unfold label in *. lia.
Qed.

Lemma place_nodes_measure (nodes : list label) :
  forall p, (forall n, In n nodes -> In n (targets frontier)) ->
            measure frontier (fold_left (SSADiGraph.place_node variable) nodes p) <= measure frontier p.
Proof.
  induction nodes as [| n nodes IH]; intros p Hsub; simpl; [unfold label in *; lia |].
  etransitivity; [apply IH; intros x Hx; apply Hsub; now right |].
  apply place_node_measure. apply Hsub. now left.
Qed.

Lemma place_loop_correct (fuel : nat) :
  forall p, measure frontier p < fuel -> placing_ok frontier variable blocks phinodes0 p -> processed frontier p ->
            exists p', SSADiGraph.place_loop choose frontier variable fuel p = Ok p'
                       /\ placing_ok frontier variable blocks phinodes0 p' /\ processed frontier p' /\ SSADiGraph.todo p' = [].
Proof.
  induction fuel as [| fuel IH]; intros p Hm Hok Hproc; [lia |].
  cbn [SSADiGraph.place_loop].
  destruct (SSADiGraph.todo p) as [| t todo'] eqn:Htodo; [exists p; auto |].
  destruct (set_pop_nonempty choose t todo') as (b & todo1 & Hpop). rewrite Hpop.
  destruct (set_pop_In choose _ _ _ Hpop) as [Hb Hsub].
  pose proof (set_pop_length choose _ _ _ Hpop) as Hlen.
  rewrite <- Htodo in Hb, Hsub, Hlen.
  set (p1 := SSADiGraph.mk_placing todo1 (SSADiGraph.intodo p) (SSADiGraph.done p)
               (SSADiGraph.placed p)).
  destruct Hok as (I1 & I2 & I3 & I4 & I5 & I6).
  assert (Hok1 : placing_ok frontier variable blocks phinodes0 p1) by (unfold placing_ok; simpl; repeat split; auto; apply I2).
  destruct (place_nodes_ok b (SSADiGraph.frontier_get frontier b) p1 Hok1 (I3 b Hb)
              ltac:(auto)) as (Hok2 & (G1 & G2 & G3 & G4) & Hdone).
  apply IH; auto.
  - pose proof (place_nodes_measure (SSADiGraph.frontier_get frontier b) p1
                  ltac:(intros n; apply frontier_get_targets)) as Hle.
    unfold measure in *. simpl in Hle. unfold label in *. lia.
  - intros b' Hin Hnot n Hn.
    destruct (set_mem Nat.eqb b' (SSADiGraph.intodo p)) eqn:E.
    + apply mem_In in E. destruct (Nat.eq_dec b' b) as [-> | Hne]; [auto |].
      apply G1. simpl. apply (Hproc b' E); auto.
      intros Ht. rewrite Htodo in Ht.
      destruct (set_pop_split choose _ _ _ Hpop b' Ht) as [-> | Ht1]; [contradiction |].
      apply Hnot. apply G3. exact Ht1.
    + apply mem_not_In in E. exfalso. apply Hnot. apply G4; auto.
Qed.

Lemma place_start_spec :
  forall (l : list label) (p : SSADiGraph.placing),
    SSADiGraph.todo p = SSADiGraph.intodo p ->
    let p' :=
      fold_left
        (fun p block_label =>
           SSADiGraph.mk_placing (set_add Nat.eqb block_label (SSADiGraph.todo p))
             (set_add Nat.eqb block_label (SSADiGraph.intodo p))
             (SSADiGraph.done p) (SSADiGraph.placed p)) l p in
    SSADiGraph.todo p' = SSADiGraph.intodo p'
    /\ (forall x, In x (SSADiGraph.todo p') <-> In x (SSADiGraph.todo p) \/ In x l)
    /\ List.length (SSADiGraph.todo p') <= List.length (SSADiGraph.todo p) + List.length l
    /\ SSADiGraph.done p' = SSADiGraph.done p
    /\ SSADiGraph.placed p' = SSADiGraph.placed p.
Proof.
  induction l as [| b l IH]; intros p Heq; simpl.
  - repeat split; auto; try tauto. unfold label in *. lia.
  - match goal with |- context [fold_left _ l ?q] =>
      destruct (IH q) as (A & B & C & D & E) end.
    { simpl. now rewrite Heq. }
    simpl in *. repeat split; auto.
    + intros H. apply B in H. destruct H as [H | H]; auto.
      apply add_In in H. destruct H; auto.
    + intros H. apply B. destruct H as [H | [-> | H]]; auto.
      * left. apply add_In. auto.
      * left. apply add_In. auto.
    + pose proof (set_add_length Nat.eqb b (SSADiGraph.todo p)). unfold label in *. lia.
Qed.

(** The worklist of one variable ends, with the iterated dominance
    frontier of its definition blocks as [done], an empty phi function of
    the variable in each of these blocks, and nothing else changed. *)
Lemma place_variable_correct (fuel : nat) :
  List.length (targets frontier) + List.length blocks < fuel ->
  exists p,
    SSADiGraph.place_variable choose frontier fuel variable blocks phinodes0 = Ok p
    /\ (forall n, In n (SSADiGraph.done p) <-> idf frontier blocks n)
    /\ (forall n, idf frontier blocks n ->
          phi_at (SSADiGraph.placed p) n variable
          = Some (SSADiGraph._gen_empty_phi variable))
    /\ (forall n, ~ idf frontier blocks n ->
          phi_at (SSADiGraph.placed p) n variable = phi_at phinodes0 n variable)
    /\ (forall n v, v <> variable ->
          phi_at (SSADiGraph.placed p) n v = phi_at phinodes0 n v).
Proof.
  intros Hfuel. unfold SSADiGraph.place_variable.
  destruct (place_start_spec blocks (SSADiGraph.mk_placing [] [] [] phinodes0) eq_refl)
    as (A & B & C & D & E).
  fold (SSADiGraph.place_start blocks phinodes0) in A, B, C, D, E. simpl in B, C, D, E.
  set (p0 := SSADiGraph.place_start blocks phinodes0) in *.
  assert (Hok0 : placing_ok frontier variable blocks phinodes0 p0).
  { unfold placing_ok. rewrite D, E, <- A. repeat split; try (intros n []); auto.
    - intros H. apply B in H. tauto.
    - intros [H | []]. apply B. auto. }
  assert (Hproc0 : processed frontier p0).
  { intros b Hin Hnot. rewrite <- A in Hin. contradiction. }
  assert (Hm0 : measure frontier p0 < fuel).
  { unfold measure.
    pose proof (filter_length_le (fun _ : label => true)
                  (fun x => negb (set_mem Nat.eqb x (SSADiGraph.intodo p0))) (targets frontier)
                  ltac:(auto)) as Hf.
    assert (List.length (filter (fun _ : label => true) (targets frontier)) = List.length (targets frontier)).
    { clear. induction (targets frontier); simpl; auto. }
    unfold label in *. lia. }
  destruct (place_loop_correct fuel p0 Hm0 Hok0 Hproc0) as (p & Hrun & Hok & Hproc & Hend).
  exists p. split; [exact Hrun |].
  destruct Hok as (I1 & I2 & I3 & I4 & I5 & I6).
  assert (Hall : forall n, idf frontier blocks n -> In n (SSADiGraph.done p)).
  { intros n Hn. induction Hn as [b n nodes Hb Hget Hn | b n nodes Hb IHb Hget Hn].
    - apply (Hproc b); [apply I2; auto | rewrite Hend; intros [] |].
      apply frontier_get_In. eauto.
    - apply (Hproc b); [apply I2; auto | rewrite Hend; intros [] |].
      apply frontier_get_In. eauto. }
  repeat split; auto.
Qed.
End Placement.

Lemma init_defs_block_distinct (ira : IRA) (ib : irbloc) (defs : list (expr * list label)) :
  NoDup (dict_keys defs) -> NoDup (dict_keys (SSADiGraph.init_defs_block ira ib defs)).
Proof.
  unfold SSADiGraph.init_defs_block. generalize (SSADiGraph.ir_dsts ib) as dsts.
  intros dsts. revert defs. induction dsts as [| dst dsts IH]; intros defs Hnd; simpl; auto.
  apply IH. destruct (SSADiGraph.is_ExprId dst); auto.
  destruct (set_mem expr_eqb dst (SSADiGraph.instruction_pointer ira)); auto.
  unfold SSADiGraph.defs_add.
  destruct (dict_get expr_eqb defs dst); now apply (dict_set_NoDup expr_eqb expr_eqb_eq).
Qed.

Lemma init_defs_walk_distinct (ira : IRA) (walk : list label) :
  forall s s', SSADiGraph.init_defs_walk ira walk s = Ok s' ->
               NoDup (dict_keys (defs s)) -> NoDup (dict_keys (defs s')).
Proof.
  induction walk as [| b rest IH]; intros s s'; simpl.
  - now intros [= <-].
  - intros H Hnd. apply bind_ok in H. destruct H as ([r s1] & Hg & H).
    apply get_block_frame in Hg. destruct Hg as (_ & _ & _ & D & _).
    destruct (nth_error (store s1) r) as [ib |]; [| discriminate].
    eapply IH; [exact H |]. simpl. apply init_defs_block_distinct. now rewrite D.
Qed.

(** The state in which [transform] calls [_place_phi]: no phi function
    yet, and the definitions of distinct variables. *)
Lemma init_variable_defs_ready (ira : IRA) (head : label) (h : heap) (s1 : SSA) :
  SSADiGraph._init_variable_defs ira head (init h) = Ok s1 ->
  _phinodes s1 = [] /\ NoDup (dict_keys (defs s1)).
Proof.
  unfold SSADiGraph._init_variable_defs. intros H. split.
  - now apply init_defs_walk_phinodes in H.
  - apply (init_defs_walk_distinct _ _ _ _ H). constructor.
Qed.

Lemma length_flat_map_In {A B : Type} (f : A -> list B) (x : A) (l : list A) :
  In x l -> List.length (f x) <= List.length (flat_map f l).
Proof.
  induction l as [| y l IH]; simpl; [tauto |].
  rewrite length_app. intros [-> | H]; [lia | specialize (IH H); lia].
Qed.

Lemma place_defs_correct (choose : list label -> nat) (frontier : list (label * list label))
  (fuel : nat) (defs : list (expr * list label)) :
  NoDup (dict_keys defs) ->
  (forall v blocks, In (v, blocks) defs ->
     List.length (targets frontier) + List.length blocks < fuel) ->
  forall phinodes,
  exists phinodes',
    SSADiGraph.place_defs choose frontier fuel defs phinodes = Ok phinodes'
    /\ (forall v blocks n, In (v, blocks) defs ->
          (idf frontier blocks n ->
             phi_at phinodes' n v = Some (SSADiGraph._gen_empty_phi v))
          /\ (~ idf frontier blocks n -> phi_at phinodes' n v = phi_at phinodes n v))
    /\ (forall n v, ~ In v (dict_keys defs) -> phi_at phinodes' n v = phi_at phinodes n v).
Proof.
  induction defs as [| [v0 b0] defs IH]; intros Hnd Hfuel phinodes; simpl.
  - exists phinodes. split; [reflexivity | split; [intros v blocks n [] | auto]].
  - inversion Hnd as [| ? ? Hnotin Hnd']; subst.
    destruct (place_variable_correct choose frontier v0 b0 phinodes fuel
                (Hfuel v0 b0 (or_introl eq_refl))) as (p & Hrun & _ & P1 & P2 & P3).
    rewrite Hrun. simpl.
    destruct (IH Hnd' (fun v blocks H => Hfuel v blocks (or_intror H))
                (SSADiGraph.placed p)) as (phinodes' & Hrest & Q1 & Q2).
    exists phinodes'. split; [exact Hrest | split].
    + intros v blocks n [[= <- <-] | Hin].
      * rewrite (Q2 n v0 Hnotin). auto.
      * assert (Hne : v <> v0).
        { intros ->. apply Hnotin. apply in_map_iff. exists (v0, blocks). auto. }
        destruct (Q1 v blocks n Hin) as [A B]. split; auto.
        intros Hn. rewrite (B Hn). now apply P3.
    + intros n v Hv. rewrite Q2 by (intros H; apply Hv; now right).
      apply P3. intros ->. apply Hv. now left.
Qed.

(** C6: for every variable [v] (an identifier, of some width [size]) with
    its set of definition blocks [defs[v]], [_place_phi] ends (the worklist
    of a variable takes at most as many iterations as there are definition
    blocks and frontier targets) and leaves the empty phi function of [v],
    the identifier ["phi"] of the width of [v], in each block of the
    iterated dominance frontier of [defs[v]], and no phi function for [v]
    anywhere else; a variable without definition blocks receives none. The
    worklist is the one of the source, which pops a block, walks its
    dominance frontier, skips the blocks already done and queues the blocks
    that were never in the worklist. *)
Theorem place_phi_iterated_frontier (choose : list label -> nat) (fuel : nat) (ira : IRA)
  (head : label) (s : SSA) :
  _phinodes s = [] ->
  NoDup (dict_keys (defs s)) ->
  List.length (targets (compute_dominance_frontier ira head))
  + List.length (flat_map snd (defs s)) < fuel ->
  exists s',
    SSADiGraph._place_phi choose fuel ira head s = Ok s'
    /\ (forall nm size blocks n,
          dict_get expr_eqb (defs s) (ExprId nm size) = Some blocks ->
          (idf (compute_dominance_frontier ira head) blocks n ->
             phi_at (_phinodes s') n (ExprId nm size) = Some (ExprId (NStr "phi") size))
          /\ (~ idf (compute_dominance_frontier ira head) blocks n ->
             phi_at (_phinodes s') n (ExprId nm size) = None))
    /\ (forall v n,
          dict_get expr_eqb (defs s) v = None -> phi_at (_phinodes s') n v = None).
Proof.
  intros Hempty Hnd Hfuel. unfold SSADiGraph._place_phi.
  destruct (place_defs_correct choose (compute_dominance_frontier ira head) fuel (defs s) Hnd)
    with (phinodes := _phinodes s) as (phinodes' & Hrun & Q1 & Q2).
  { intros v blocks Hin.
    pose proof (length_flat_map_In snd (v, blocks) (defs s) Hin) as Hle. simpl in Hle.
    unfold label in *. lia. }
  rewrite Hrun. simpl. eexists. split; [reflexivity |]. simpl. split.
  - intros nm size blocks n Hget. apply (dict_get_In expr_eqb expr_eqb_eq) in Hget.
    destruct (Q1 _ blocks n Hget) as [A B]. split; [exact A |].
    intros Hn. rewrite (B Hn), Hempty. reflexivity.
  - intros v n Hget. rewrite Q2, Hempty; [reflexivity |].
    intros Hin. apply (dict_mem_In expr_eqb expr_eqb_eq) in Hin.
    unfold dict_mem in Hin. now rewrite Hget in Hin.
Qed.

Lemma place_phi_iterated_frontier_witness :
  dict_get expr_eqb (defs nested_defs) (var "x") = Some [0; 2]
  /\ idf (compute_dominance_frontier nested 0) [0; 2] 4
  /\ exists s',
       SSADiGraph._place_phi pop_first 9 nested 0 nested_defs = Ok s'
       /\ (forall nm size blocks n,
             dict_get expr_eqb (defs nested_defs) (ExprId nm size) = Some blocks ->
             (idf (compute_dominance_frontier nested 0) blocks n ->
                phi_at (_phinodes s') n (ExprId nm size) = Some (ExprId (NStr "phi") size))
             /\ (~ idf (compute_dominance_frontier nested 0) blocks n ->
                phi_at (_phinodes s') n (ExprId nm size) = None))
       /\ (forall v n,
             dict_get expr_eqb (defs nested_defs) v = None ->
             phi_at (_phinodes s') n v = None).
Proof.
  split; [reflexivity |]. split.
  - apply (idf_step _ _ 3 4 [4]); [| reflexivity | now left].
    apply (idf_def _ _ 2 3 [3]); [right; now left | reflexivity | now left].
  - apply (place_phi_iterated_frontier pop_first 9 nested 0 nested_defs).
    + reflexivity.
    + vm_compute. repeat constructor; simpl; intuition discriminate.
    + vm_compute. lia.
Defined.

(** ** The renaming walk and the dominator tree *)

Lemma tree_ind_nested (P : tree -> Prop)
  (HNode : forall root children, Forall P children -> P (Node root children)) :
  forall t, P t.
Proof.
  fix IH 1. intros [root children]. apply HNode.
  induction children as [| c cs IHcs]; constructor; [apply IH | exact IHcs].
Qed.

Lemma rename_tree_eq (ira : IRA) (root : label) (children : list tree)
  (rhs_stack : list (expr * nat)) (s : SSA) :
  rename_tree ira (Node root children) rhs_stack s
  = (s1 <- rename_body ira root (set_stack_rhs rhs_stack s) ;;
     rename_forest ira children (_stack_rhs s1) s1).
Proof.
  simpl. destruct (rename_body ira root (set_stack_rhs rhs_stack s)) as [s1 | | | |];
    simpl; auto.
  generalize s1 at 2 4 as s0. induction children as [| c cs IH]; intros s0; simpl; auto.
  destruct (rename_tree ira c (_stack_rhs s1) s0); simpl; auto.
Qed.

Lemma push_snapshots {A B : Type} (snapshot : A) (successors : list B) (stack : list A) :
  fold_left (fun stack _ => snapshot :: stack) successors stack
  = repeat snapshot (List.length successors) ++ stack.
Proof.
  revert stack; induction successors as [| x l IH]; intros stack; simpl; auto.
  rewrite IH. clear IH. induction (List.length l) as [| n IHn]; simpl; auto.
  now rewrite <- IHn.
Qed.

Lemma rename_block_eq (ira : IRA) (head block_label : label)
  (top : list (expr * nat)) (stack : list (list (expr * nat))) (s : SSA) :
  SSADiGraph.rename_block ira head block_label (top :: stack) s
  = (s3 <- rename_body ira block_label (set_stack_rhs top s) ;;
     Ok (repeat (_stack_rhs s3)
           (List.length (dominator_tree_successors ira head block_label)) ++ stack, s3)).
Proof.
  unfold SSADiGraph.rename_block, rename_body.
  destruct (SSADiGraph._rename_phi_lhs block_label (set_stack_rhs top s)); simpl; auto.
  destruct (_rename_expressions ira block_label a); simpl; auto.
  match goal with |- context [fold_left ?f ?l ?x] => destruct (fold_left f l x) end;
    simpl; auto.
  now rewrite push_snapshots.
Qed.

(** The walk over a tree pops one snapshot and leaves the stack below it
    as it was; the walk over the children of a block pops the snapshots
    pushed for them, which are all the same. *)
Lemma rename_walk_tree (ira : IRA) (head : label) (t : tree) :
  agrees ira head t = true ->
  forall (rest : list label) (snapshot : list (expr * nat))
         (stack : list (list (expr * nat))) (s : SSA),
    SSADiGraph.rename_walk ira head (preorder t ++ rest) (snapshot :: stack) s
    = (s' <- rename_tree ira t snapshot s ;; SSADiGraph.rename_walk ira head rest stack s').
Proof.
  induction t as [root children IH] using tree_ind_nested.
  intros Hag rest snapshot stack s. simpl in Hag. apply andb_true_iff in Hag.
  destruct Hag as [Hlen Hch]. apply Nat.eqb_eq in Hlen.
  rewrite rename_tree_eq. cbn [preorder app SSADiGraph.rename_walk].
  rewrite rename_block_eq, Hlen.
  destruct (rename_body ira root (set_stack_rhs snapshot s)) as [s1 | | | |]; simpl; auto.
  generalize (_stack_rhs s1) as snap. generalize s1 as s0. clear s s1 Hlen snapshot.
  induction children as [| c cs IHcs]; intros s0 snap; simpl; auto.
  inversion IH as [| ? ? Hc Hcs]; subst. simpl in Hch. apply andb_true_iff in Hch.
  destruct Hch as [Hagc Hags].
  rewrite <- app_assoc. rewrite (Hc Hagc).
  destruct (rename_tree ira c snap s0) as [s1 | | | |]; simpl; auto.
Qed.

(** C7: when the walk of the dominator tree is its depth-first pre-order,
    the renaming walk with its stack of snapshots computes what the
    recursion over the tree computes, in which every child of a block
    starts from the [rhs_stack] that the block had at the end of its own
    processing: [rename_tree] gives [_stack_rhs s1], the stack at the end of
    [rename_body] of the parent, to each child. *)
Theorem rename_children_start_from_parent (ira : IRA) (head : label) (t : tree) (s : SSA) :
  dominator_tree_walk ira head = preorder t ->
  agrees ira head t = true ->
  SSADiGraph._rename ira head s = rename_tree ira t (_stack_rhs s) s.
Proof.
  intros Hwalk Hag. unfold SSADiGraph._rename. rewrite Hwalk.
  rewrite <- (app_nil_r (preorder t)). rewrite (rename_walk_tree ira head t Hag).
  simpl. now destruct (rename_tree ira t (_stack_rhs s) s).
Qed.

Lemma rename_children_start_from_parent_witness :
  SSADiGraph._rename diamond 0 diamond_defs
  = rename_tree diamond diamond_tree (_stack_rhs diamond_defs) diamond_defs.
Proof.
  apply (rename_children_start_from_parent diamond 0 diamond_tree diamond_defs).
  - reflexivity.
  - reflexivity.
Defined.

(** ** SSA names and their variables *)

(** X1: [reverse_variable] undoes [_gen_var_expr]: the SSA name built for
    a variable from a stack that holds it is turned back into the variable,
    whatever the version. *)
Theorem gen_var_expr_reverse (v e : expr) (stack : list (expr * nat)) :
  _gen_var_expr v stack = Ok e -> reverse_variable e = Ok v.
Proof.
  unfold _gen_var_expr. destruct (dict_get expr_eqb stack v); [| discriminate].
  destruct v; try discriminate. intros [= <-]. reflexivity.
Qed.

Lemma gen_var_expr_reverse_witness :
  _gen_var_expr (var "a") [(var "a", 3)] = Ok (ssa_var "a" 3)
  /\ reverse_variable (ssa_var "a" 3) = Ok (var "a").
Proof.
  split; [reflexivity |].
  apply (gen_var_expr_reverse (var "a") (ssa_var "a" 3) [(var "a", 3)]). reflexivity.
Defined.

(** ** The renaming of a right-hand side *)

Lemma replace_expr_same (k e : expr) : replace_expr k k e = e.
Proof.
  induction e as [n s | w s | a s IH | o args IH] using expr_ind_nested;
    rewrite replace_expr_eq.
  - destruct (expr_eqb _ k) eqn:E; auto. apply expr_eqb_eq in E. auto.
  - reflexivity.
  - now rewrite IH.
  - f_equal. rewrite <- (map_id args) at 2. apply map_ext_in. intros a Ha.
    rewrite Forall_forall in IH. auto.
Qed.

Lemma rename_var_none (stack_rhs : list (expr * nat)) (v : expr) :
  dict_get expr_eqb stack_rhs v = None -> rename_var stack_rhs v = v.
Proof. intros H. unfold rename_var. destruct v; auto. now rewrite H. Qed.

(** X2: an expression none of whose identifiers has a reaching version is
    left as it is by [_transform_expression_rhs]: a variable that is live on
    entry keeps its name. *)
Theorem transform_expression_rhs_live_in (src : expr) (s : SSA) :
  (forall v, In v (id_ src) -> dict_get expr_eqb (_stack_rhs s) v = None) ->
  _transform_expression_rhs src s = Ok src.
Proof.
  intros Hnone. rewrite transform_expression_rhs_ok. f_equal.
  unfold rename_rhs, variables. revert Hnone.
  generalize (id_ src) as vs. generalize src as acc.
  intros acc vs. revert acc. induction vs as [| v vs IH]; intros acc Hnone; simpl; auto.
  rewrite rename_var_none by (apply Hnone; now left).
  rewrite replace_expr_same. apply IH. intros w Hw. apply Hnone. now right.
Qed.

Lemma transform_expression_rhs_live_in_witness :
  (forall v, In v (id_ (ExprOp "+" [var "b"; ExprMem (var "c") 32])) ->
             dict_get expr_eqb (_stack_rhs after_a0) v = None)
  /\ _transform_expression_rhs (ExprOp "+" [var "b"; ExprMem (var "c") 32]) after_a0
     = Ok (ExprOp "+" [var "b"; ExprMem (var "c") 32]).
Proof.
  assert (H : forall v, In v (id_ (ExprOp "+" [var "b"; ExprMem (var "c") 32])) ->
                        dict_get expr_eqb (_stack_rhs after_a0) v = None).
  { intros v [<- | [<- | []]]; reflexivity. }
  split; [exact H |].
  apply (transform_expression_rhs_live_in (ExprOp "+" [var "b"; ExprMem (var "c") 32])
           after_a0 H).
Defined.

Lemma set_mem_snoc (x k : expr) (vs : list expr) :
  set_mem expr_eqb x (vs ++ [k]) = set_mem expr_eqb x vs || expr_eqb x k.
Proof.
  induction vs as [| y vs IH]; simpl.
  - now rewrite orb_false_r.
  - now rewrite IH, orb_assoc.
Qed.

Lemma plain_id_shape (k : expr) :
  plain_id k = true -> exists nm size, k = ExprId (NStr nm) size.
Proof. destruct k as [[nm | n i] size | | |]; try discriminate. eauto. Qed.

(** One round of the loop of [_transform_expression_rhs]: replacing the
    plain identifier [k] by its reaching version, in an expression in which
    the identifiers of [vs] are renamed already, renames those of [vs] and
    [k]. *)
Lemma subst_some_step (stack_rhs : list (expr * nat)) (k : expr) (vs : list expr) (e : expr) :
  plain_id k = true ->
  (forall x, In x (id_ e) -> plain_id x = true) ->
  replace_expr k (rename_var stack_rhs k) (subst_some vs stack_rhs e)
  = subst_some (vs ++ [k]) stack_rhs e.
Proof.
  intros Hk. destruct (plain_id_shape k Hk) as (nm & ksize & ->).
  induction e as [n s | w s | a s IH | o args IH] using expr_ind_nested; intros Hplain.
  - destruct (plain_id_shape (ExprId n s)) as (m & t & [= -> ->]);
      [apply Hplain; now left |].
    cbn [subst_some]. rewrite set_mem_snoc.
    destruct (set_mem expr_eqb (ExprId (NStr m) t) vs) eqn:Hin; cbn [orb].
    + unfold rename_var at 2 3.
      destruct (dict_get expr_eqb stack_rhs (ExprId (NStr m) t)) as [i |] eqn:Hget.
      * reflexivity.
      * rewrite replace_expr_eq.
        destruct (expr_eqb (ExprId (NStr m) t) (ExprId (NStr nm) ksize)) eqn:E; auto.
        apply expr_eqb_eq in E. rewrite <- E. now apply rename_var_none.
    + rewrite replace_expr_eq.
      destruct (expr_eqb (ExprId (NStr m) t) (ExprId (NStr nm) ksize)) eqn:E; auto.
      apply expr_eqb_eq in E. now rewrite E.
  - reflexivity.
  - cbn [subst_some]. rewrite replace_expr_eq.
    f_equal. apply IH. exact Hplain.
  - cbn [subst_some]. rewrite replace_expr_eq.
    f_equal. rewrite map_map. apply map_ext_in. intros a Ha.
    rewrite Forall_forall in IH. apply IH; auto.
    intros x Hx. apply Hplain. apply id_op_In. eauto.
Qed.

Lemma subst_some_nil (stack_rhs : list (expr * nat)) (e : expr) :
  subst_some [] stack_rhs e = e.
Proof.
  induction e as [n s | w s | a s IH | o args IH] using expr_ind_nested; simpl; auto.
  - now rewrite IH.
  - f_equal. rewrite <- (map_id args) at 2. apply map_ext_in. intros a Ha.
    rewrite Forall_forall in IH. auto.
Qed.

Lemma subst_some_all (stack_rhs : list (expr * nat)) (vs : list expr) (e : expr) :
  (forall x, In x (id_ e) -> In x vs) ->
  subst_some vs stack_rhs e = subst_versions stack_rhs e.
Proof.
  induction e as [n s | w s | a s IH | o args IH] using expr_ind_nested; intros Hin.
  - cbn [subst_some subst_versions].
    rewrite (proj2 (set_mem_In expr_eqb expr_eqb_eq _ _)); auto. apply Hin. now left.
  - reflexivity.
  - simpl. f_equal. apply IH. exact Hin.
  - simpl. f_equal. apply map_ext_in. intros a Ha.
    rewrite Forall_forall in IH. apply IH; auto.
    intros x Hx. apply Hin. apply id_op_In. eauto.
Qed.

Lemma rename_rhs_rounds (stack_rhs : list (expr * nat)) (e : expr) :
  (forall x, In x (id_ e) -> plain_id x = true) ->
  forall ks vs,
    (forall k, In k ks -> plain_id k = true) ->
    fold_left (fun acc v => replace_expr v (rename_var stack_rhs v) acc) ks
      (subst_some vs stack_rhs e)
    = subst_some (vs ++ ks) stack_rhs e.
Proof.
  intros Hplain. induction ks as [| k ks IH]; intros vs Hks; simpl.
  - now rewrite app_nil_r.
  - rewrite subst_some_step; [| apply Hks; now left | exact Hplain].
    rewrite IH by (intros k' Hk'; apply Hks; now right).
    now rewrite <- app_assoc.
Qed.

(** X3: on an expression whose identifiers are not in SSA form,
    [_transform_expression_rhs], which replaces one identifier after the
    other, returns the expression with every identifier leaf rewritten at
    once with the version that reaches it. *)
Theorem transform_expression_rhs_simultaneous (src : expr) (s : SSA) :
  forallb plain_id (id_ src) = true ->
  _transform_expression_rhs src s = Ok (subst_versions (_stack_rhs s) src).
Proof.
  intros Hplain. rewrite forallb_forall in Hplain.
  rewrite transform_expression_rhs_ok. f_equal. unfold rename_rhs, variables.
  rewrite <- (subst_some_nil (_stack_rhs s) src) at 2.
  rewrite rename_rhs_rounds by auto. simpl.
  apply subst_some_all. auto.
Qed.

Lemma transform_expression_rhs_simultaneous_witness :
  _transform_expression_rhs (ExprOp "+" [var "a"; ExprMem (var "a") 32; var "b"]) after_a0
  = Ok (subst_versions (_stack_rhs after_a0)
          (ExprOp "+" [var "a"; ExprMem (var "a") 32; var "b"])).
Proof.
  apply (transform_expression_rhs_simultaneous
           (ExprOp "+" [var "a"; ExprMem (var "a") 32; var "b"]) after_a0).
  reflexivity.
Defined.

(** X4: the operand that [_transform_phi_rhs] computes for a phi
    destination is the version that reaches of the variable the destination
    is a version of, or that variable itself when none reaches. *)
Theorem transform_phi_rhs_reaching (dst v : expr) (s : SSA) :
  reverse_variable dst = Ok v ->
  SSADiGraph._transform_phi_rhs dst s = Ok (rename_var (_stack_rhs s) v).
Proof.
  intros Hrev. unfold SSADiGraph._transform_phi_rhs. rewrite Hrev. simpl.
  rewrite transform_expression_rhs_ok. f_equal.
  assert (Hid : exists n size, v = ExprId n size).
  { destruct dst as [[nm | n i] size | | |]; try discriminate;
      injection Hrev as <-; eauto. }
  destruct Hid as (n & size & ->).
  unfold rename_rhs, variables. cbn [id_ fold_left]. apply replace_expr_self.
Qed.

Lemma transform_phi_rhs_reaching_witness :
  reverse_variable (ssa_var "a" 7) = Ok (var "a")
  /\ SSADiGraph._transform_phi_rhs (ssa_var "a" 7) after_a0
     = Ok (rename_var (_stack_rhs after_a0) (var "a")).
Proof.
  split; [reflexivity |].
  apply (transform_phi_rhs_reaching (ssa_var "a" 7) (var "a") after_a0). reflexivity.
Defined.

(** ** Destinations that are neither identifiers nor memory *)

Lemma transform_expression_lhs_unsupported (dst : expr) (s : SSA) :
  supported_dst dst = false -> _transform_expression_lhs dst s = AttributeError.
Proof.
  destruct dst as [n sz | v sz | a sz | o args]; try discriminate; intros _;
    unfold _transform_expression_lhs, _transform_var_lhs, _gen_var_expr, dict_mem;
    cbn [is_ExprMem];
    match goal with |- context [dict_get expr_eqb (_stack_lhs s) ?d] =>
      destruct (dict_get expr_eqb (_stack_lhs s) d) eqn:E end; simpl;
    rewrite ?E, ?(dict_get_set_same expr_eqb expr_eqb_eq); simpl;
    rewrite ?E, ?(dict_get_set_same expr_eqb expr_eqb_eq); reflexivity.
Qed.

Lemma transform_expression_lhs_supported (dst : expr) (s : SSA) :
  supported_dst dst = true -> exists e s', _transform_expression_lhs dst s = Ok (e, s').
Proof.
  destruct dst as [n sz | v sz | a sz | o args]; try discriminate; intros _.
  - destruct (transform_expression_lhs_id n sz s) as (s' & H & _). eauto.
  - rewrite transform_expression_lhs_mem. eauto.
Qed.

Lemma transform_lhs_unsupported (instructions : list (expr * expr)) :
  forall (rhs : list expr) (acc : AssignBlock) (s : SSA),
    List.length rhs = List.length instructions ->
    forallb (fun aff => supported_dst (fst aff)) instructions = false ->
    transform_lhs instructions rhs acc s = AttributeError.
Proof.
  induction instructions as [| [dst src] rest IH]; intros rhs acc s Hlen Hbad; simpl in *.
  - discriminate.
  - destruct (supported_dst dst) eqn:Hd; simpl in Hbad.
    + destruct (transform_expression_lhs_supported dst s Hd) as (e & s' & ->). simpl.
      destruct rhs as [| src_ssa rhs']; [discriminate |].
      apply IH; auto.
    + now rewrite transform_expression_lhs_unsupported.
Qed.

Lemma parallel_instructions_supported (assignblk : AssignBlock) :
  forallb (fun aff => supported_dst (fst aff)) (_parallel_instructions assignblk)
  = forallb (fun aff => supported_dst (fst aff)) assignblk.
Proof.
  unfold _parallel_instructions. rewrite parallel_instructions_fold. cbn [app].
  rewrite forallb_app.
  induction assignblk as [| aff rest IH]; simpl; auto.
  unfold dst_is_mem at 1 2. unfold dst_is_mem in IH.
  destruct aff as [dst src]. simpl.
  destruct dst as [n sz | v sz | a sz | o args]; simpl; auto using andb_false_r.
  rewrite forallb_app. simpl. rewrite <- IH.
  now rewrite andb_true_r.
Qed.

(** ** The two stacks along a path *)

(** What [_transform_expression_lhs] returns, by the kind of the
    destination. *)
Lemma transform_expression_lhs_cases (dst e : expr) (s s' : SSA) :
  _transform_expression_lhs dst s = Ok (e, s') ->
  (exists a size, dst = ExprMem a size /\ s' = s /\ e = rename_rhs (_stack_rhs s) dst)
  \/ (exists n size, dst = ExprId n size
        /\ e = ExprId (NTup n (counter s dst)) size
        /\ defines s dst s' /\ expressions s' = expressions s).
Proof.
  destruct dst as [n sz | v sz | a sz | o args].
  - destruct (transform_expression_lhs_id n sz s) as (s0 & H0 & Hdef).
    intros H. pose proof (transform_expression_lhs_frame _ _ _ _ H) as [_ He].
    rewrite H0 in H. injection H as <- <-. right. exists n, sz. auto.
  - now rewrite transform_expression_lhs_unsupported.
  - rewrite transform_expression_lhs_mem. intros [= <- <-]. left. eauto.
  - now rewrite transform_expression_lhs_unsupported.
Qed.

Lemma defines_paired (s s' : SSA) (d : expr) : paired s -> defines s d s' -> paired s'.
Proof.
  intros Hp (Hl & Hr & Hother & _) v. destruct (expr_eq_dec v d) as [-> | Hne].
  - rewrite Hl, Hr. simpl. f_equal. apply Nat.add_1_r.
  - destruct (Hother v Hne) as [-> ->]. apply Hp.
Qed.

Lemma transform_lhs_paired (instructions : list (expr * expr)) :
  forall (rhs : list expr) (acc out : AssignBlock) (s s' : SSA),
    paired s -> transform_lhs instructions rhs acc s = Ok (out, s') -> paired s'.
Proof.
  induction instructions as [| aff rest IH]; intros rhs acc out s s' Hp; simpl.
  - now intros [= _ <-].
  - intros H. apply bind_ok in H. destruct H as ([d s1] & H1 & H).
    destruct rhs as [| src_ssa rhs']; [discriminate |].
    apply IH in H; auto.
    apply transform_expression_lhs_cases in H1.
    destruct H1 as [(a & size & _ & -> & _) | (n & size & _ & _ & Hdef & _)].
    + exact Hp.
    + exact (defines_paired _ _ _ Hp Hdef).
Qed.

Lemma rename_irs_paired (r : ref) (todo : list AssignBlock) :
  forall (index : nat) (s s' : SSA),
    paired s -> rename_irs r index todo s = Ok s' -> paired s'.
Proof.
  induction todo as [| ab rest IH]; intros index s s' Hp; simpl.
  - now intros [= <-].
  - intros H. apply bind_ok in H. destruct H as ([out s1] & H1 & H).
    apply IH in H; auto.
    unfold rename_assignblk in H1. apply bind_ok in H1. destruct H1 as (rhs & _ & H1).
    exact (transform_lhs_paired _ _ _ _ _ _ Hp H1).
Qed.

Lemma rename_expressions_paired (ira : IRA) (lbl : label) (s s' : SSA) :
  paired s -> _rename_expressions ira lbl s = Ok s' -> paired s'.
Proof.
  intros Hp H. unfold _rename_expressions in H.
  apply bind_ok in H. destruct H as ([r s1] & Hg & H).
  apply get_block_frame in Hg. destruct Hg as (Er & El & _).
  destruct (nth_error (store s1) r); [| discriminate].
  apply rename_irs_paired in H; auto.
  intros v. rewrite Er, El. apply Hp.
Qed.

Lemma path_transform_paired_rel (ira : IRA) (path : list label) :
  forall s s', paired s -> SSAPath.transform ira path s = Ok s' -> paired s'.
Proof.
  induction path as [| block rest IH]; intros s s' Hp; simpl.
  - now intros [= <-].
  - intros H. apply bind_ok in H. destruct H as (s1 & H1 & H).
    apply (IH s1); auto. exact (rename_expressions_paired _ _ _ _ Hp H1).
Qed.

(** X6: along a path (and so in a single block) the two stacks go
    together: once a variable is defined, its counter is its reaching
    version plus one, and a variable without a reaching version has no
    counter. This holds from a new instance on, and it is kept from any
    state in which it holds. *)
Theorem path_transform_paired (ira : IRA) (path : list label) (s s' : SSA) :
  paired s -> SSAPath.transform ira path s = Ok s' -> paired s'.
Proof. apply path_transform_paired_rel. Qed.

Lemma path_transform_paired_witness : paired diamond_path_end.
Proof.
  apply (path_transform_paired diamond [0; 1; 2; 3] (init diamond_store)).
  - intros v. reflexivity.
  - vm_compute. reflexivity.
Defined.

(** ** Entries of [expressions] are written once *)

Lemma write_once_refl (s : SSA) : write_once s s.
Proof. split; auto. Qed.

Lemma write_once_trans (a b c : SSA) : write_once a b -> write_once b c -> write_once a c.
Proof.
  intros [M1 W1] [M2 W2]. split.
  - intros v. specialize (M1 v). specialize (M2 v). lia.
  - intros Hf. destruct (W1 Hf) as [Hf1 K1]. destruct (W2 Hf1) as [Hf2 K2]. auto.
Qed.

Lemma write_once_same (s s' : SSA) :
  expressions s' = expressions s -> (forall v, counter s v <= counter s' v) ->
  write_once s s'.
Proof.
  intros He Hm. split; [exact Hm |]. intros Hf. split.
  - intros n c size Hin. rewrite He in Hin. specialize (Hf _ _ _ Hin).
    specialize (Hm (ExprId n size)). lia.
  - intros n size e. now rewrite He.
Qed.

Lemma write_once_tables (s s' : SSA) :
  expressions s' = expressions s -> _stack_lhs s' = _stack_lhs s -> write_once s s'.
Proof.
  intros He Hl. apply write_once_same; auto.
  intros v. unfold counter. now rewrite Hl.
Qed.

Lemma defines_counter (s s' : SSA) (d : expr) :
  defines s d s' -> counter s' d = counter s d + 1.
Proof. intros (Hl & _). unfold counter at 1. now rewrite Hl. Qed.

Lemma defines_counter_mono (s s' : SSA) (d : expr) :
  defines s d s' -> forall v, counter s v <= counter s' v.
Proof.
  intros Hdef v. destruct (expr_eq_dec v d) as [-> | Hne].
  - rewrite (defines_counter _ _ _ Hdef). lia.
  - now rewrite (counter_defines_other _ _ _ _ Hdef Hne).
Qed.

(** The entry of a new definition goes under a key that was not there. *)
Lemma write_once_define (s s1 : SSA) (n : name) (size : nat) (src : expr) :
  defines s (ExprId n size) s1 -> expressions s1 = expressions s ->
  write_once s
    (set_expressions
       (dict_set expr_eqb (expressions s1) (ExprId (NTup n (counter s (ExprId n size))) size) src)
       s1).
Proof.
  intros Hdef He. pose proof (defines_counter_mono _ _ _ Hdef) as Hm.
  pose proof (defines_counter _ _ _ Hdef) as Hc.
  split; [exact Hm |]. intros Hf. split.
  - intros n0 c size0 Hin. simpl in Hin.
    change (counter (set_expressions _ s1) (ExprId n0 size0)) with (counter s1 (ExprId n0 size0)).
    apply (dict_set_keys_In expr_eqb) in Hin. destruct Hin as [[= -> -> ->] | Hin].
    + rewrite Hc. lia.
    + rewrite He in Hin. specialize (Hf _ _ _ Hin). specialize (Hm (ExprId n0 size0)). lia.
  - intros n0 size0 e Hget. simpl. rewrite He.
    rewrite (dict_get_set_other expr_eqb expr_eqb_eq); auto.
    intros [= -> ->]. apply (dict_get_keys expr_eqb expr_eqb_eq) in Hget.
    specialize (Hf _ _ _ Hget). lia.
Qed.

Lemma write_once_memory (s : SSA) (a : expr) (sz : nat) (src : expr) :
  write_once s (set_expressions (dict_set expr_eqb (expressions s) (ExprMem a sz) src) s).
Proof.
  split; [intros v; apply Nat.le_refl |]. intros Hf. split.
  - intros n c size Hin. simpl in Hin.
    apply (dict_set_keys_In expr_eqb) in Hin. destruct Hin as [[=] | Hin].
    exact (Hf _ _ _ Hin).
  - intros n size e Hget. simpl.
    rewrite (dict_get_set_other expr_eqb expr_eqb_eq); auto. discriminate.
Qed.

Lemma transform_lhs_write_once (instructions : list (expr * expr)) :
  forall (rhs : list expr) (acc out : AssignBlock) (s s' : SSA),
    transform_lhs instructions rhs acc s = Ok (out, s') -> write_once s s'.
Proof.
  induction instructions as [| aff rest IH]; intros rhs acc out s s'; simpl.
  - intros [= _ <-]. apply write_once_refl.
  - intros H. apply bind_ok in H. destruct H as ([d s1] & H1 & H).
    destruct rhs as [| src_ssa rhs']; [discriminate |].
    apply IH in H. eapply write_once_trans; [| exact H].
    apply transform_expression_lhs_cases in H1.
    destruct H1 as [(a & size & -> & -> & ->) | (n & size & -> & -> & Hdef & He)].
    + destruct (rename_rhs_mem (_stack_rhs s) a size) as (a' & ->).
      apply write_once_memory.
    + now apply write_once_define.
Qed.

Lemma rename_irs_write_once (r : ref) (todo : list AssignBlock) :
  forall (index : nat) (s s' : SSA), rename_irs r index todo s = Ok s' -> write_once s s'.
Proof.
  induction todo as [| ab rest IH]; intros index s s'; simpl.
  - intros [= <-]. apply write_once_refl.
  - intros H. apply bind_ok in H. destruct H as ([out s1] & H1 & H).
    apply IH in H.
    unfold rename_assignblk in H1. apply bind_ok in H1. destruct H1 as (rhs & _ & H1).
    apply transform_lhs_write_once in H1.
    eapply write_once_trans; [exact H1 |].
    eapply write_once_trans; [| exact H].
    now apply write_once_tables.
Qed.

Lemma rename_expressions_write_once (ira : IRA) (lbl : label) (s s' : SSA) :
  _rename_expressions ira lbl s = Ok s' -> write_once s s'.
Proof.
  intros H. unfold _rename_expressions in H.
  apply bind_ok in H. destruct H as ([r s1] & Hg & H).
  apply get_block_frame in Hg. destruct Hg as (_ & El & Ee & _).
  destruct (nth_error (store s1) r); [| discriminate].
  apply rename_irs_write_once in H.
  eapply write_once_trans; [| exact H]. now apply write_once_tables.
Qed.

Lemma path_transform_write_once_rel (ira : IRA) (path : list label) :
  forall s s', SSAPath.transform ira path s = Ok s' -> write_once s s'.
Proof.
  induction path as [| block rest IH]; intros s s'; simpl.
  - intros [= <-]. apply write_once_refl.
  - intros H. apply bind_ok in H. destruct H as (s1 & H1 & H).
    eapply write_once_trans; [exact (rename_expressions_write_once _ _ _ _ H1) |].
    now apply IH.
Qed.

(** X7: the transform of a path (and so of a single block) never
    overwrites an entry of [expressions] whose key is an identifier, and
    keeps every SSA name among the keys below the counter of its variable:
    the names it hands out are new. *)
Theorem path_transform_write_once (ira : IRA) (path : list label) (s s' : SSA) :
  fresh_keys s -> SSAPath.transform ira path s = Ok s' ->
  fresh_keys s'
  /\ forall n size e,
       dict_get expr_eqb (expressions s) (ExprId n size) = Some e ->
       dict_get expr_eqb (expressions s') (ExprId n size) = Some e.
Proof.
  intros Hf H. apply path_transform_write_once_rel in H. now apply H.
Qed.

Lemma diamond_path_fresh : fresh_keys diamond_path.
Proof.
  intros n c size Hin. vm_compute in Hin.
  destruct Hin as [[= <- <- <-] | [[= <- <- <-] | []]]; vm_compute; lia.
Qed.

Lemma path_transform_write_once_witness :
  fresh_keys diamond_path_end
  /\ forall n size e,
       dict_get expr_eqb (expressions diamond_path) (ExprId n size) = Some e ->
       dict_get expr_eqb (expressions diamond_path_end) (ExprId n size) = Some e.
Proof.
  apply (path_transform_write_once diamond [2; 3] diamond_path diamond_path_end).
  - exact diamond_path_fresh.
  - vm_compute. reflexivity.
Defined.

Lemma rename_phi_lhs_dst_write_once (lbl : label) (s s' : SSA) (dst : expr) :
  SSADiGraph.rename_phi_lhs_dst lbl s dst = Ok s' -> write_once s s'.
Proof.
  unfold SSADiGraph.rename_phi_lhs_dst.
  destruct (dict_get Nat.eqb (_phinodes s) lbl) as [d |]; [| discriminate].
  destruct (dict_get expr_eqb d dst) as [payload |]; [| discriminate].
  intros H. apply bind_ok in H. destruct H as ([e s2] & H1 & H).
  destruct (dict_get Nat.eqb (_phinodes s2) lbl); [| discriminate].
  injection H as <-.
  apply transform_expression_lhs_cases in H1.
  destruct H1 as [(a & size & _ & -> & _) | (n & size & _ & _ & Hdef & He)].
  - now apply write_once_tables.
  - apply write_once_same; [exact He |]. intros v.
    apply (defines_counter_mono _ _ _ Hdef v).
Qed.

Lemma rename_phi_lhs_write_once (lbl : label) (s s' : SSA) :
  SSADiGraph._rename_phi_lhs lbl s = Ok s' -> write_once s s'.
Proof.
  unfold SSADiGraph._rename_phi_lhs.
  rewrite (fold_left_bind (SSADiGraph.rename_phi_lhs_dst lbl)) by reflexivity. simpl.
  apply (fold_m_inv _ write_once write_once_refl write_once_trans).
  intros s0 x s0' _. apply rename_phi_lhs_dst_write_once.
Qed.

Lemma rename_phi_rhs_all_write_once (succs : list label) (s s' : SSA) :
  fold_left (fun acc successor => s' <- acc ;; SSADiGraph._rename_phi_rhs successor s')
    succs (Ok s) = Ok s' ->
  write_once s s'.
Proof.
  rewrite (fold_left_bind (fun s x => SSADiGraph._rename_phi_rhs x s)) by reflexivity. simpl.
  apply (fold_m_inv _ write_once write_once_refl write_once_trans).
  intros s0 x s0' _ H. apply rename_phi_rhs_phis_only in H.
  destruct H as (_ & _ & Hl & He). now apply write_once_tables.
Qed.

Lemma rename_block_write_once (ira : IRA) (head lbl : label)
  (stack stack' : list (list (expr * nat))) (s s' : SSA) :
  SSADiGraph.rename_block ira head lbl stack s = Ok (stack', s') -> write_once s s'.
Proof.
  unfold SSADiGraph.rename_block. destruct stack as [| top stack1]; [discriminate |].
  intros H. apply bind_ok in H. destruct H as (s1 & H1 & H).
  apply bind_ok in H. destruct H as (s2 & H2 & H).
  apply bind_ok in H. destruct H as (s3 & H3 & [= _ <-]).
  apply rename_phi_lhs_write_once in H1.
  apply rename_expressions_write_once in H2.
  apply rename_phi_rhs_all_write_once in H3.
  eapply write_once_trans; [| exact H3].
  eapply write_once_trans; [| exact H2].
  eapply write_once_trans; [| exact H1].
  now apply write_once_tables.
Qed.

Lemma rename_walk_write_once (ira : IRA) (head : label) (walk : list label) :
  forall stack s s', SSADiGraph.rename_walk ira head walk stack s = Ok s' -> write_once s s'.
Proof.
  induction walk as [| lbl rest IH]; intros stack s s'; simpl.
  - intros [= <-]. apply write_once_refl.
  - intros H. apply bind_ok in H. destruct H as ([stack1 s1] & H1 & H).
    eapply write_once_trans; [exact (rename_block_write_once _ _ _ _ _ _ _ H1) |].
    eapply IH; eauto.
Qed.

(** X8: the renaming walk of [SSADiGraph] over the dominator tree never
    overwrites an entry of [expressions] whose key is an identifier either,
    although it sets the reaching versions back when it goes from a block
    to its sibling: the counters never go back, and every SSA name among the
    keys stays below the counter of its variable. *)
Theorem rename_write_once (ira : IRA) (head : label) (s s' : SSA) :
  fresh_keys s -> SSADiGraph._rename ira head s = Ok s' ->
  (forall v, counter s v <= counter s' v)
  /\ fresh_keys s'
  /\ forall n size e,
       dict_get expr_eqb (expressions s) (ExprId n size) = Some e ->
       dict_get expr_eqb (expressions s') (ExprId n size) = Some e.
Proof.
  intros Hf H. unfold SSADiGraph._rename in H.
  apply rename_walk_write_once in H. destruct H as [Hm Hw]. split; [exact Hm |].
  now apply Hw.
Qed.

Lemma rename_write_once_witness :
  (forall v, counter diamond_placed v <= counter diamond_renamed v)
  /\ fresh_keys diamond_renamed
  /\ forall n size e,
       dict_get expr_eqb (expressions diamond_placed) (ExprId n size) = Some e ->
       dict_get expr_eqb (expressions diamond_renamed) (ExprId n size) = Some e.
Proof.
  apply (rename_write_once diamond 0 diamond_placed diamond_renamed).
  - intros n c size Hin. vm_compute in Hin. destruct Hin.
  - vm_compute. reflexivity.
Defined.

(** ** The renaming in place of a block *)

(** The renaming never reads the block objects. *)
Lemma transform_expression_lhs_store (h : heap) (dst : expr) (s : SSA) :
  _transform_expression_lhs dst (set_store h s)
  = '(e, s') <- _transform_expression_lhs dst s ;; Ok (e, set_store h s').
Proof.
  unfold _transform_expression_lhs. destruct (is_ExprMem dst).
  - rewrite !transform_expression_rhs_ok. reflexivity.
  - unfold _transform_var_lhs.
    change (_stack_lhs (set_store h s)) with (_stack_lhs s).
    destruct (negb (dict_mem expr_eqb (_stack_lhs s) dst)); cbn [_stack_lhs set_stack_lhs set_store].
    + destruct (dict_get expr_eqb (dict_set expr_eqb (_stack_lhs s) dst 0) dst); [| reflexivity].
      cbn. destruct (_gen_var_expr dst _); try reflexivity. cbn.
      destruct (dict_get expr_eqb _ dst); reflexivity.
    + destruct (dict_get expr_eqb (_stack_lhs s) dst); [| reflexivity].
      cbn. destruct (_gen_var_expr dst _); try reflexivity. cbn.
      destruct (dict_get expr_eqb _ dst); reflexivity.
Qed.

Lemma transform_lhs_store (h : heap) (instructions : list (expr * expr)) :
  forall (rhs : list expr) (acc : AssignBlock) (s : SSA),
    transform_lhs instructions rhs acc (set_store h s)
    = '(out, s') <- transform_lhs instructions rhs acc s ;; Ok (out, set_store h s').
Proof.
  induction instructions as [| aff rest IH]; intros rhs acc s; cbn [transform_lhs].
  - reflexivity.
  - rewrite transform_expression_lhs_store.
    destruct (_transform_expression_lhs (fst aff) s) as [[e s1] | | | |]; try reflexivity.
    cbn [bind]. destruct rhs as [| src_ssa rhs']; [reflexivity |].
    apply (IH rhs' _ (set_expressions _ s1)).
Qed.

Lemma rename_assignblk_store (h : heap) (assignblk : AssignBlock) (s : SSA) :
  rename_assignblk assignblk (set_store h s)
  = '(out, s') <- rename_assignblk assignblk s ;; Ok (out, set_store h s').
Proof.
  unfold rename_assignblk. rewrite !transform_rhs_ok. cbn [bind].
  apply transform_lhs_store.
Qed.

Lemma list_set_same {A : Type} (l : list A) (i : nat) (x : A) :
  nth_error l i = Some x -> list_set l i x = l.
Proof.
  revert i; induction l as [| y l IH]; intros [| i]; simpl; try discriminate.
  - now intros [= ->].
  - intros H. now rewrite IH.
Qed.

Lemma list_set_twice {A : Type} (l : list A) (i : nat) (x y : A) :
  list_set (list_set l i x) i y = list_set l i y.
Proof.
  revert i; induction l as [| z l IH]; intros [| i]; simpl; auto. now rewrite IH.
Qed.

Lemma nth_error_list_set {A : Type} (l : list A) (i : nat) (x y : A) :
  nth_error l i = Some y -> nth_error (list_set l i x) i = Some x.
Proof.
  revert i; induction l as [| z l IH]; intros [| i]; simpl; try discriminate; auto.
Qed.

Lemma list_set_middle {A : Type} (pre : list A) (x y : A) (rest : list A) :
  list_set (pre ++ x :: rest) (List.length pre) y = pre ++ y :: rest.
Proof. induction pre as [| z pre IH]; simpl; auto. now rewrite IH. Qed.

(** The loop of [_rename_expressions] from the index [length pre] on: the
    block object ends with the outputs in the place of the AssignBlocks
    still to rename. *)
Lemma rename_irs_list (r : ref) (lbl : label) (todo : list AssignBlock) :
  forall (pre : list AssignBlock) (h : heap) (s : SSA),
    nth_error h r = Some (mk_irbloc lbl (pre ++ todo)) ->
    rename_irs r (List.length pre) todo (set_store h s)
    = '(outs, s') <- rename_list todo s ;;
      Ok (set_store (list_set h r (mk_irbloc lbl (pre ++ outs))) s').
Proof.
  induction todo as [| ab rest IH]; intros pre h s Hr; cbn [rename_irs rename_list bind].
  - now rewrite (list_set_same _ _ _ Hr).
  - rewrite rename_assignblk_store.
    destruct (rename_assignblk ab s) as [[out s1] | | | |]; try reflexivity.
    cbn [bind store set_store].
    change (set_store ?h' (set_store h s1)) with (set_store h' s1).
    unfold set_irs_at. rewrite Hr. cbn [ib_label irs].
    rewrite list_set_middle.
    replace (S (List.length pre)) with (List.length (pre ++ [out]))
      by (rewrite length_app; simpl; lia).
    rewrite (IH (pre ++ [out])).
    + destruct (rename_list rest s1) as [[outs s2] | | | |]; try reflexivity.
      cbn [bind]. now rewrite list_set_twice, <- app_assoc.
    + rewrite <- app_assoc. simpl. eapply nth_error_list_set; eauto.
Qed.

(** X9: [_rename_expressions], which overwrites the AssignBlocks of the
    block copy one index after the other while it walks over them, does what
    the renaming of the list of AssignBlocks followed by one write of the
    whole list does: the copy keeps its label, and its assignment blocks
    become the outputs, in order and in number, with the same errors. *)
Theorem rename_expressions_in_place (ira : IRA) (lbl : label) (s : SSA) :
  _rename_expressions ira lbl s
  = '(r, s1) <- get_block ira lbl s ;;
    match nth_error (store s1) r with
    | None => KeyError
    | Some b =>
        '(outs, s2) <- rename_list (irs b) s1 ;;
        Ok (set_store (list_set (store s1) r (mk_irbloc (ib_label b) outs)) s2)
    end.
Proof.
  unfold _rename_expressions.
  destruct (get_block ira lbl s) as [[r s1] | | | |]; try reflexivity. cbn [bind].
  destruct (nth_error (store s1) r) as [b |] eqn:Hr; [| reflexivity].
  pose proof (rename_irs_list r (ib_label b) (irs b) [] (store s1) s1) as H.
  cbn [app List.length] in H.
  replace (set_store (store s1) s1) with s1 in H by now destruct s1.
  apply H. rewrite Hr. now destruct b.
Qed.

Lemma rename_list_length (todo : list AssignBlock) :
  forall (s s' : SSA) (outs : list AssignBlock),
    rename_list todo s = Ok (outs, s') -> List.length outs = List.length todo.
Proof.
  induction todo as [| ab rest IH]; intros s s' outs; simpl.
  - now intros [= <- _].
  - intros H. apply bind_ok in H. destruct H as ([out s1] & _ & H).
    apply bind_ok in H. destruct H as ([outs' s2] & H & [= <- _]).
    simpl. f_equal. eapply IH; eauto.
Qed.

(** ** The phi functions among the expressions *)

Lemma set_expressions_self (s : SSA) : set_expressions (expressions s) s = s.
Proof. now destruct s. Qed.

Lemma insert_phi_block (phis : list (expr * expr)) :
  forall s : SSA,
    fold_left
      (fun s phi => set_expressions (dict_set expr_eqb (expressions s) (fst phi) (snd phi)) s)
      phis s
    = set_expressions
        (fold_left (fun d phi => dict_set expr_eqb d (fst phi) (snd phi)) phis (expressions s)) s.
Proof.
  induction phis as [| phi phis IH]; intros s; cbn [fold_left].
  - now rewrite set_expressions_self.
  - rewrite IH. reflexivity.
Qed.

Lemma insert_phi_flat (s : SSA) :
  SSADiGraph._insert_phi s
  = set_expressions
      (fold_left (fun d phi => dict_set expr_eqb d (fst phi) (snd phi))
         (all_phis (_phinodes s)) (expressions s)) s.
Proof.
  unfold SSADiGraph._insert_phi, all_phis.
  generalize (_phinodes s) as nodes. intros nodes.
  rewrite <- (set_expressions_self s) at 1.
  generalize (expressions s) as d. revert s.
  induction nodes as [| [lbl phis] nodes IH]; intros s d; cbn [fold_left flat_map snd].
  - reflexivity.
  - rewrite insert_phi_block. cbn [expressions set_expressions].
    change (set_expressions ?x (set_expressions d s)) with (set_expressions x s).
    rewrite IH. now rewrite fold_left_app.
Qed.

Lemma dict_get_app {K V : Type} (eqb : K -> K -> bool) (d1 d2 : list (K * V)) (k : K) :
  dict_get eqb (d1 ++ d2) k
  = match dict_get eqb d1 k with
    | Some v => Some v
    | None => dict_get eqb d2 k
    end.
Proof.
  induction d1 as [| [k1 v1] d1 IH]; simpl; auto. destruct (eqb k k1); auto.
Qed.

Lemma dict_get_set (d : list (expr * expr)) (k k0 v : expr) :
  dict_get expr_eqb (dict_set expr_eqb d k0 v) k
  = if expr_eqb k k0 then Some v else dict_get expr_eqb d k.
Proof.
  destruct (expr_eqb k k0) eqn:E.
  - apply expr_eqb_eq in E. subst. apply (dict_get_set_same expr_eqb expr_eqb_eq).
  - apply expr_eqb_neq in E. now apply (dict_get_set_other expr_eqb expr_eqb_eq).
Qed.

Lemma fold_dict_set_get (phis : list (expr * expr)) :
  forall (d : list (expr * expr)) (k : expr),
    dict_get expr_eqb (fold_left (fun d phi => dict_set expr_eqb d (fst phi) (snd phi)) phis d) k
    = match dict_get expr_eqb (rev phis) k with
      | Some v => Some v
      | None => dict_get expr_eqb d k
      end.
Proof.
  induction phis as [| [k0 v0] phis IH]; intros d k; cbn [fold_left rev fst snd].
  - reflexivity.
  - rewrite IH, dict_get_app, dict_get_set. simpl.
    destruct (dict_get expr_eqb (rev phis) k); auto.
    destruct (expr_eqb k k0); auto.
Qed.

(** X10: after [_insert_phi], the entry of [expressions] under a key is
    the source of the last phi function with that destination, in the order
    of the walk over the blocks and their phi functions, and the entry it
    had before when no phi function has that destination; the other fields
    are as they were. *)
Theorem insert_phi_lookup (s : SSA) (k : expr) :
  dict_get expr_eqb (expressions (SSADiGraph._insert_phi s)) k
  = match dict_get expr_eqb (rev (all_phis (_phinodes s))) k with
    | Some src => Some src
    | None => dict_get expr_eqb (expressions s) k
    end
  /\ set_expressions (expressions s) (SSADiGraph._insert_phi s) = s.
Proof.
  rewrite insert_phi_flat. cbn [expressions set_expressions]. split.
  - apply fold_dict_set_get.
  - now destruct s.
Qed.

(** ** The operands of the phi functions of a successor *)

Lemma transform_phi_rhs_operand (dst : expr) (s : SSA) :
  SSADiGraph.is_ExprId dst = true ->
  SSADiGraph._transform_phi_rhs dst s = Ok (phi_operand (_stack_rhs s) dst).
Proof.
  destruct dst as [[nm | n i] size | | |]; try discriminate; intros _;
    unfold SSADiGraph._transform_phi_rhs; cbn [reverse_variable bind phi_operand];
    rewrite transform_expression_rhs_ok; f_equal;
    unfold rename_rhs, variables; cbn [id_ fold_left]; apply replace_expr_self.
Qed.

Lemma dict_set_twice {V : Type} (d : list (label * V)) (k : label) (v w : V) :
  dict_set Nat.eqb (dict_set Nat.eqb d k v) k w = dict_set Nat.eqb d k w.
Proof.
  induction d as [| [k1 v1] d IH]; simpl.
  - now rewrite Nat.eqb_refl.
  - destruct (Nat.eqb k k1) eqn:E; simpl; rewrite E; auto. now rewrite IH.
Qed.

Lemma dict_set_present {V : Type} (d : list (label * V)) (k : label) (v : V) :
  dict_get Nat.eqb d k = Some v -> dict_set Nat.eqb d k v = d.
Proof.
  induction d as [| [k1 v1] d IH]; simpl; [discriminate |].
  destruct (Nat.eqb k k1) eqn:E.
  - now intros [= ->].
  - intros H. now rewrite IH.
Qed.

Lemma phi_extend_in_snoc (done : list expr) (stack_rhs : list (expr * nat))
  (x : expr) (phi : expr * expr) :
  fst phi <> x ->
  phi_extend_in (done ++ [x]) stack_rhs phi = phi_extend_in done stack_rhs phi.
Proof.
  intros Hne. unfold phi_extend_in. rewrite set_mem_snoc.
  apply expr_eqb_neq in Hne. rewrite Hne. now rewrite orb_false_r.
Qed.

Lemma dict_get_phi_extend_in (done : list expr) (stack_rhs : list (expr * nat)) (x : expr) :
  ~ In x done ->
  forall d, dict_get expr_eqb (map (phi_extend_in done stack_rhs) d) x = dict_get expr_eqb d x.
Proof.
  intros Hx. induction d as [| [k v] d IH]; simpl; auto.
  unfold phi_extend_in at 1. cbn [fst].
  destruct (set_mem expr_eqb k done) eqn:Hk; cbn [phi_extend fst snd];
    destruct (expr_eqb x k) eqn:E; auto.
  apply expr_eqb_eq in E. subst. apply (set_mem_In expr_eqb expr_eqb_eq) in Hk. contradiction.
Qed.

Lemma dict_set_phi_extend_in (done : list expr) (stack_rhs : list (expr * nat))
  (x src : expr) :
  forall d,
    NoDup (dict_keys d) -> dict_get expr_eqb d x = Some src ->
    dict_set expr_eqb (map (phi_extend_in done stack_rhs) d) x
      (snd (phi_extend stack_rhs (x, src)))
    = map (phi_extend_in (done ++ [x]) stack_rhs) d.
Proof.
  induction d as [| [k v] d IH]; intros Hnd Hget; [discriminate |].
  inversion Hnd as [| ? ? Hk Hd]; subst. simpl in Hget. cbn [map dict_set].
  assert (Hfst : fst (phi_extend_in done stack_rhs (k, v)) = k).
  { unfold phi_extend_in. cbn [fst]. now destruct (set_mem expr_eqb k done). }
  destruct (phi_extend_in done stack_rhs (k, v)) as [k' v'] eqn:Hext. cbn [fst] in Hfst.
  subst k'. destruct (expr_eqb x k) eqn:E.
  - apply expr_eqb_eq in E. subst k. injection Hget as ->. f_equal.
    + unfold phi_extend_in. cbn [fst]. rewrite set_mem_snoc, expr_eqb_refl, orb_true_r.
      reflexivity.
    + apply map_ext_in. intros [k1 v1] Hin. symmetry. apply phi_extend_in_snoc.
      cbn [fst]. intros ->. apply Hk. apply in_map_iff. exists (x, v1). auto.
  - f_equal.
    + rewrite phi_extend_in_snoc; auto. cbn [fst]. apply expr_eqb_neq in E. congruence.
    + now apply IH.
Qed.

Lemma rename_phi_rhs_dst_step (successor : label) (s : SSA) (d : list (expr * expr))
  (done : list expr) (x src : expr) :
  NoDup (dict_keys d) -> forallb phi_entry_ok d = true ->
  dict_get expr_eqb d x = Some src -> ~ In x done ->
  SSADiGraph.rename_phi_rhs_dst successor
    (set_phinodes
       (dict_set Nat.eqb (_phinodes s) successor (map (phi_extend_in done (_stack_rhs s)) d)) s)
    x
  = Ok (set_phinodes
          (dict_set Nat.eqb (_phinodes s) successor
             (map (phi_extend_in (done ++ [x]) (_stack_rhs s)) d)) s).
Proof.
  intros Hnd Hok Hget Hx. unfold SSADiGraph.rename_phi_rhs_dst.
  cbn [_phinodes set_phinodes].
  rewrite (dict_get_set_same Nat.eqb Nat.eqb_eq).
  rewrite (dict_get_phi_extend_in _ _ _ Hx), Hget.
  rewrite forallb_forall in Hok.
  specialize (Hok _ (dict_get_In expr_eqb expr_eqb_eq _ _ _ Hget)).
  unfold phi_entry_ok in Hok. cbn [fst snd] in Hok.
  apply andb_true_iff in Hok. destruct Hok as [Hid Hsrc].
  rewrite (transform_phi_rhs_operand _ _ Hid). cbn [bind _stack_rhs set_phinodes].
  assert (He : (if SSADiGraph.is_empty_phi src
                then Ok (SSADiGraph._fill_phi [phi_operand (_stack_rhs s) x])
                else match src with
                     | ExprOp _ args =>
                         Ok (SSADiGraph._fill_phi (phi_operand (_stack_rhs s) x :: args))
                     | _ => AttributeError
                     end)
               = Ok (snd (phi_extend (_stack_rhs s) (x, src)))).
  { unfold phi_extend, SSADiGraph._fill_phi. cbn [fst snd].
    destruct src as [n sz | v sz | a sz | o args]; cbn [SSADiGraph.is_empty_phi phi_operands];
      try discriminate; try reflexivity.
    simpl in Hsrc. rewrite Hsrc. reflexivity. }
  rewrite He. cbn [bind]. f_equal.
  rewrite dict_set_twice. rewrite (dict_set_phi_extend_in _ _ _ _ _ Hnd Hget).
  reflexivity.
Qed.

Lemma rename_phi_rhs_rounds (successor : label) (s : SSA) (d : list (expr * expr)) :
  NoDup (dict_keys d) -> forallb phi_entry_ok d = true ->
  forall todo done,
    dict_keys d = done ++ todo ->
    fold_m (SSADiGraph.rename_phi_rhs_dst successor) todo
      (set_phinodes
         (dict_set Nat.eqb (_phinodes s) successor (map (phi_extend_in done (_stack_rhs s)) d))
         s)
    = Ok (set_phinodes
            (dict_set Nat.eqb (_phinodes s) successor
               (map (phi_extend_in (dict_keys d) (_stack_rhs s)) d)) s).
Proof.
  intros Hnd Hok. induction todo as [| x todo IH]; intros done Hkeys; cbn [fold_m].
  - rewrite Hkeys, app_nil_r. reflexivity.
  - assert (Hx : ~ In x done).
    { rewrite Hkeys in Hnd. apply NoDup_remove_2 in Hnd. intros Hin. apply Hnd.
      apply in_or_app. now left. }
    assert (Hin : In x (dict_keys d)) by (rewrite Hkeys; apply in_or_app; right; now left).
    destruct (dict_get expr_eqb d x) as [src |] eqn:Hget;
      [| apply (dict_get_None expr_eqb expr_eqb_eq) in Hget; contradiction].
    rewrite (rename_phi_rhs_dst_step _ _ _ _ _ _ Hnd Hok Hget Hx). cbn [bind].
    apply IH. rewrite <- app_assoc. exact Hkeys.
Qed.

(** X11: [_rename_phi_rhs] gives every phi function of the successor one
    operand more, put in front of those it has: the version that reaches, at
    the end of the current block, of the variable its destination is a
    version of. It changes nothing else, and does nothing for a successor
    without phi functions. *)
Theorem rename_phi_rhs_extends (successor : label) (s : SSA) (d : list (expr * expr)) :
  dict_get Nat.eqb (_phinodes s) successor = Some d ->
  NoDup (dict_keys d) -> forallb phi_entry_ok d = true ->
  SSADiGraph._rename_phi_rhs successor s
  = Ok (set_phinodes
          (dict_set Nat.eqb (_phinodes s) successor (map (phi_extend (_stack_rhs s)) d)) s).
Proof.
  intros Hget Hnd Hok. unfold SSADiGraph._rename_phi_rhs, SSADiGraph.phinodes_keys.
  rewrite Hget.
  rewrite (fold_left_bind (SSADiGraph.rename_phi_rhs_dst successor)) by reflexivity.
  cbn [bind].
  pose proof (rename_phi_rhs_rounds successor s d Hnd Hok (dict_keys d) [] eq_refl) as H.
  assert (Hstart : map (phi_extend_in [] (_stack_rhs s)) d = d).
  { rewrite <- (map_id d) at 2. apply map_ext. reflexivity. }
  rewrite Hstart, (dict_set_present _ _ _ Hget) in H.
  replace (set_phinodes (_phinodes s) s) with s in H by now destruct s.
  rewrite H. f_equal. f_equal. f_equal.
  apply map_ext_in. intros [k v] Hin. unfold phi_extend_in. cbn [fst].
  rewrite (proj2 (set_mem_In expr_eqb expr_eqb_eq _ _)); auto.
  apply in_map_iff. exists (k, v). auto.
Qed.

Lemma rename_phi_rhs_extends_witness :
  SSADiGraph._rename_phi_rhs 3 diamond_after_L
  = Ok (set_phinodes
          (dict_set Nat.eqb (_phinodes diamond_after_L) 3
             (map (phi_extend (_stack_rhs diamond_after_L))
                [(var "x", ExprId (NStr "phi") 32); (var "y", ExprId (NStr "phi") 32)]))
          diamond_after_L).
Proof.
  apply (rename_phi_rhs_extends 3 diamond_after_L
           [(var "x", ExprId (NStr "phi") 32); (var "y", ExprId (NStr "phi") 32)]).
  - vm_compute. reflexivity.
  - repeat constructor; simpl; intuition discriminate.
  - reflexivity.
Defined.

(** ** The copies of the blocks *)

(** X12: a block is copied once: when [get_block] has returned the copy of
    a label, the next call for that label returns the same block object and
    changes nothing. *)
Theorem get_block_cached (ira : IRA) (h : heap) (lbl : label) (s s1 : SSA) (r : ref) :
  well_labelled ira h = true -> owned h s ->
  get_block ira lbl s = Ok (r, s1) ->
  get_block ira lbl s1 = Ok (r, s1).
Proof.
  intros Hwf Hown Hg.
  destruct (get_block_owned ira h Hwf lbl s s1 r Hown Hg) as (_ & _ & _ & Hb & _).
  unfold get_block. now rewrite Hb.
Qed.

Lemma get_block_cached_witness :
  get_block diamond 0 diamond_copied = Ok (4, diamond_copied).
Proof.
  apply (get_block_cached diamond diamond_store 0 (init diamond_store) diamond_copied 4).
  - reflexivity.
  - split; [reflexivity | intros lbl r []].
  - vm_compute. reflexivity.
Defined.

(** ** The phi functions in the blocks *)

Lemma nth_error_list_set_other {A : Type} (l : list A) (i j : nat) (x : A) :
  i <> j -> nth_error (list_set l i x) j = nth_error l j.
Proof.
  revert i j; induction l as [| y l IH]; intros [| i] [| j] H; simpl; auto;
    try contradiction.
Qed.

Lemma insert_irs0_at (r : ref) (a : AssignBlock) (h : heap) :
  nth_error (SSADiGraph.insert_irs0 r a h) r
  = option_map (fun b => mk_irbloc (ib_label b) (a :: irs b)) (nth_error h r).
Proof.
  unfold SSADiGraph.insert_irs0. destruct (nth_error h r) as [b |] eqn:E; simpl.
  - now rewrite (nth_error_list_set _ _ _ _ E).
  - exact E.
Qed.

Lemma insert_irs0_other (r r' : ref) (a : AssignBlock) (h : heap) :
  r <> r' -> nth_error (SSADiGraph.insert_irs0 r a h) r' = nth_error h r'.
Proof.
  intros Hne. unfold SSADiGraph.insert_irs0. destruct (nth_error h r); auto.
  now apply nth_error_list_set_other.
Qed.

(** Two labels with the same block object are the same label, when no
    block object is registered twice. *)
Lemma refs_distinct (d : list (label * ref)) (l l' : label) (r : ref) :
  NoDup (map snd d) -> dict_get Nat.eqb d l = Some r -> dict_get Nat.eqb d l' = Some r ->
  l = l'.
Proof.
  induction d as [| [k v] d IH]; simpl; [discriminate |].
  intros Hnd. inversion Hnd as [| ? ? Hv Hd]; subst.
  destruct (Nat.eqb l k) eqn:E1; destruct (Nat.eqb l' k) eqn:E2.
  - apply Nat.eqb_eq in E1, E2. congruence.
  - intros [= ->] H. exfalso. apply Hv.
    apply (dict_get_In Nat.eqb Nat.eqb_eq) in H. apply in_map_iff. exists (l', r). auto.
  - intros H [= ->]. exfalso. apply Hv.
    apply (dict_get_In Nat.eqb Nat.eqb_eq) in H. apply in_map_iff. exists (l, r). auto.
  - auto.
Qed.

Lemma block_irs_insert (s : SSA) (l0 : label) (r0 : ref) (a : AssignBlock) (lbl : label) :
  NoDup (map snd (blocks s)) -> dict_get Nat.eqb (blocks s) l0 = Some r0 ->
  block_irs (set_store (SSADiGraph.insert_irs0 r0 a (store s)) s) lbl
  = if Nat.eqb lbl l0 then option_map (cons a) (block_irs s lbl) else block_irs s lbl.
Proof.
  intros Hnd Hl0. unfold block_irs. cbn [blocks store set_store].
  destruct (Nat.eqb lbl l0) eqn:E.
  - apply Nat.eqb_eq in E. subst. rewrite Hl0, insert_irs0_at.
    now destruct (nth_error (store s) r0).
  - destruct (dict_get Nat.eqb (blocks s) lbl) as [r |] eqn:Hl; auto.
    rewrite insert_irs0_other; auto.
    intros <-. apply Nat.eqb_neq in E. apply E.
    exact (refs_distinct _ _ _ _ Hnd Hl Hl0).
Qed.

Lemma dict_set_fresh (d : list (expr * expr)) (k v : expr) :
  ~ In k (dict_keys d) -> dict_set expr_eqb d k v = d ++ [(k, v)].
Proof.
  induction d as [| [k1 v1] d IH]; simpl; auto.
  intros H. destruct (expr_eqb k k1) eqn:E.
  - apply expr_eqb_eq in E. subst. exfalso. auto.
  - rewrite IH; auto.
Qed.

(** The AssignBlock that [_convert_phi] builds from the phi functions of a
    block holds them as they are. *)
Lemma phis_assignblk (phis acc : list (expr * expr)) :
  NoDup (dict_keys (acc ++ phis)) ->
  fold_left (fun a phi => dict_set expr_eqb a (fst phi) (snd phi)) phis acc = acc ++ phis.
Proof.
  revert acc. induction phis as [| [k v] phis IH]; intros acc Hnd; cbn [fold_left fst snd].
  - now rewrite app_nil_r.
  - rewrite dict_set_fresh.
    + rewrite IH; rewrite <- app_assoc; auto.
    + unfold dict_keys in Hnd. rewrite map_app in Hnd. simpl in Hnd.
      apply NoDup_remove_2 in Hnd. intros Hin. apply Hnd. apply in_or_app. now left.
Qed.

Lemma convert_phi_blocks_inserts (ira : IRA) (nodes : list (label * list (expr * expr))) :
  forall s : SSA,
    NoDup (dict_keys nodes) -> NoDup (map snd (blocks s)) ->
    (forall lbl, In lbl (dict_keys nodes) -> dict_mem Nat.eqb (blocks s) lbl = true) ->
    (forall lbl phis, In (lbl, phis) nodes -> NoDup (dict_keys phis)) ->
    exists s',
      SSADiGraph.convert_phi_blocks ira nodes s = Ok s'
      /\ (forall lbl,
            block_irs s' lbl
            = match dict_get Nat.eqb nodes lbl with
              | Some phis => option_map (cons phis) (block_irs s lbl)
              | None => block_irs s lbl
              end)
      /\ set_store (store s) s' = s.
Proof.
  induction nodes as [| [l0 phis0] nodes IH]; intros s Hnodes Hrefs Hmem Hphis;
    cbn [SSADiGraph.convert_phi_blocks].
  - exists s. repeat split; auto. now destruct s.
  - inversion Hnodes as [| ? ? Hl0 Hnodes']; subst.
    assert (Hget : exists r0, dict_get Nat.eqb (blocks s) l0 = Some r0).
    { specialize (Hmem l0 (or_introl eq_refl)). unfold dict_mem in Hmem.
      destruct (dict_get Nat.eqb (blocks s) l0); [eauto | discriminate]. }
    destruct Hget as (r0 & Hr0).
    unfold get_block. rewrite Hr0. cbn [bind].
    rewrite (phis_assignblk phis0 []) by (apply (Hphis l0); now left). cbn [app].
    set (s1 := set_store (SSADiGraph.insert_irs0 r0 phis0 (store s)) s).
    destruct (IH s1) as (s' & Hrun & Hirs & Hrest); auto.
    + intros lbl Hin. apply Hmem. now right.
    + intros lbl phis Hin. apply (Hphis lbl). now right.
    + exists s'. split; [exact Hrun |]. split.
      * intros lbl. rewrite Hirs. unfold s1. rewrite (block_irs_insert _ _ _ _ _ Hrefs Hr0).
        cbn [dict_get]. destruct (Nat.eqb lbl l0) eqn:E; auto.
        apply Nat.eqb_eq in E. subst.
        destruct (dict_get Nat.eqb nodes l0) eqn:Hn; auto.
        exfalso. apply Hl0. exact (dict_get_keys Nat.eqb Nat.eqb_eq _ _ _ Hn).
      * transitivity (set_store (store s) s1).
        -- rewrite <- Hrest. reflexivity.
        -- unfold s1. now destruct s.
Qed.

(** X13: [_convert_phi] puts the phi functions of a block, as one
    AssignBlock, in front of the assignment blocks of the copy of that
    block; the copies of the other blocks, and everything but the block
    objects, are as they were. Here the phi functions are those of blocks
    the pass has copied, and no block object is the copy of two labels. *)
Theorem convert_phi_inserts (ira : IRA) (s : SSA) :
  NoDup (dict_keys (_phinodes s)) -> NoDup (map snd (blocks s)) ->
  (forall lbl, In lbl (dict_keys (_phinodes s)) -> dict_mem Nat.eqb (blocks s) lbl = true) ->
  (forall lbl phis, In (lbl, phis) (_phinodes s) -> NoDup (dict_keys phis)) ->
  exists s',
    SSADiGraph._convert_phi ira s = Ok s'
    /\ (forall lbl,
          block_irs s' lbl
          = match dict_get Nat.eqb (_phinodes s) lbl with
            | Some phis => option_map (cons phis) (block_irs s lbl)
            | None => block_irs s lbl
            end)
    /\ set_store (store s) s' = s.
Proof. apply convert_phi_blocks_inserts. Qed.

Lemma convert_phi_inserts_witness :
  exists s',
    SSADiGraph._convert_phi diamond (SSADiGraph._insert_phi diamond_renamed) = Ok s'
    /\ (forall lbl,
          block_irs s' lbl
          = match dict_get Nat.eqb (_phinodes (SSADiGraph._insert_phi diamond_renamed)) lbl with
            | Some phis =>
                option_map (cons phis) (block_irs (SSADiGraph._insert_phi diamond_renamed) lbl)
            | None => block_irs (SSADiGraph._insert_phi diamond_renamed) lbl
            end)
    /\ set_store (store (SSADiGraph._insert_phi diamond_renamed)) s'
       = SSADiGraph._insert_phi diamond_renamed.
Proof.
  apply (convert_phi_inserts diamond (SSADiGraph._insert_phi diamond_renamed)).
  - vm_compute. repeat constructor; simpl; intuition discriminate.
  - vm_compute. repeat constructor; simpl; intuition discriminate.
  - intros lbl Hin. vm_compute in Hin. destruct Hin as [<- | []]. vm_compute. reflexivity.
  - intros lbl phis Hin. vm_compute in Hin. destruct Hin as [[= <- <-] | []].
    repeat constructor; simpl; intuition discriminate.
Defined.

(** ** The definition blocks of the variables *)

Lemma defs_add_defined (defs : list (expr * list label)) (dst : expr) (lbl : label)
  (v : expr) (l : label) :
  defined_in (SSADiGraph.defs_add defs dst lbl) v l
  <-> defined_in defs v l \/ (v = dst /\ l = lbl).
Proof.
  unfold defined_in, SSADiGraph.defs_add.
  destruct (expr_eq_dec v dst) as [-> | Hne].
  - destruct (dict_get expr_eqb defs dst) as [bs |] eqn:Hd;
      rewrite (dict_get_set_same expr_eqb expr_eqb_eq).
    + split.
      * intros (ls & [= <-] & Hin). apply (set_add_In Nat.eqb Nat.eqb_eq) in Hin.
        destruct Hin as [-> | Hin]; eauto.
      * intros [(ls & [= <-] & Hin) | [_ ->]]; eexists; split; eauto;
          apply (set_add_In Nat.eqb Nat.eqb_eq); auto.
    + split.
      * intros (ls & [= <-] & [<- | []]). auto.
      * intros [(ls & [=] & _) | [_ ->]]. eexists. split; eauto. now left.
  - destruct (dict_get expr_eqb defs dst) as [bs |] eqn:Hd;
      rewrite (dict_get_set_other expr_eqb expr_eqb_eq) by exact Hne;
      split; auto; intros [H | [H _]]; auto; contradiction.
Qed.

Lemma init_defs_block_defined (ira : IRA) (ib : irbloc) (v : expr) (l : label) :
  forall defs,
    defined_in (SSADiGraph.init_defs_block ira ib defs) v l
    <-> defined_in defs v l
        \/ (l = ib_label ib /\ In v (SSADiGraph.ir_dsts ib)
            /\ SSADiGraph.is_ExprId v = true
            /\ set_mem expr_eqb v (SSADiGraph.instruction_pointer ira) = false).
Proof.
  unfold SSADiGraph.init_defs_block. generalize (SSADiGraph.ir_dsts ib) as dsts.
  induction dsts as [| dst dsts IH]; intros defs; cbn [fold_left].
  - split; auto. intros [H | (_ & [] & _)]. exact H.
  - rewrite IH. cbn [In].
    destruct (SSADiGraph.is_ExprId dst) eqn:Hid;
      [destruct (set_mem expr_eqb dst (SSADiGraph.instruction_pointer ira)) eqn:Hip |];
      rewrite ?defs_add_defined;
      split; intros H; intuition (subst; auto; congruence).
Qed.

Section DefinitionBlocks.
Variable ira : IRA.
Variable h : heap.
Hypothesis Hwf : well_labelled ira h = true.

(** [get_block] keeps the block objects there are, and keeps every copy
    under its own label. *)
Lemma get_block_labelled (lbl : label) (s s1 : SSA) (r : ref) :
  owned h s -> labelled s -> get_block ira lbl s = Ok (r, s1) ->
  labelled s1
  /\ (forall r' b, nth_error (store s) r' = Some b -> nth_error (store s1) r' = Some b).
Proof.
  intros Hown Hlab. unfold get_block.
  destruct (dict_get Nat.eqb (blocks s) lbl) as [r0 |] eqn:Hget.
  - intros [= <- <-]. auto.
  - unfold _copy_block. intros H. apply bind_ok in H. destruct H as ([r1 h1] & Hc & H).
    destruct (copy_block_label ira h Hwf _ _ _ _ Hown Hc) as (-> & ib & -> & Hlbl).
    rewrite nth_error_app2 in H by lia. rewrite Nat.sub_diag in H. simpl in H.
    injection H as <- <-. split.
    + intros l r'. cbn [blocks store set_blocks set_store]. rewrite Hlbl.
      destruct (Nat.eq_dec l lbl) as [-> | Hne].
      * rewrite (dict_get_set_same Nat.eqb Nat.eqb_eq). intros [= <-].
        exists ib. split; auto.
        rewrite nth_error_app2 by lia. now rewrite Nat.sub_diag.
      * rewrite (dict_get_set_other Nat.eqb Nat.eqb_eq) by exact Hne.
        intros Hl. destruct (Hlab _ _ Hl) as (b & Hb & Hbl). exists b. split; auto.
        rewrite nth_error_app1; auto. apply nth_error_Some. congruence.
    + intros r' b Hb. cbn [store set_blocks set_store].
      rewrite nth_error_app1; auto. apply nth_error_Some. congruence.
Qed.

Lemma block_irs_stable (s s1 : SSA) (lbl : label) (l : list AssignBlock) :
  keeps_clones s s1 ->
  (forall r' b, nth_error (store s) r' = Some b -> nth_error (store s1) r' = Some b) ->
  block_irs s lbl = Some l -> block_irs s1 lbl = Some l.
Proof.
  intros Hk Hst. unfold block_irs.
  destruct (dict_get Nat.eqb (blocks s) lbl) as [r |] eqn:Hl; [| discriminate].
  rewrite (Hk _ _ Hl). destruct (nth_error (store s) r) as [b |] eqn:Hb; [| discriminate].
  now rewrite (Hst _ _ Hb).
Qed.

Lemma assigns_stable (s s1 : SSA) (lbl : label) (v : expr) :
  (forall l, block_irs s lbl = Some l -> block_irs s1 lbl = Some l) ->
  block_irs s lbl <> None ->
  assigns ira s lbl v <-> assigns ira s1 lbl v.
Proof.
  intros Hst Hsome. destruct (block_irs s lbl) as [l |] eqn:Hl; [| contradiction].
  pose proof (Hst l eq_refl) as Hl1. unfold assigns. rewrite Hl, Hl1. reflexivity.
Qed.

Lemma init_defs_walk_defined (walk : list label) :
  forall (seen : list label) (s s' : SSA),
    owned h s -> labelled s ->
    (forall l, In l seen -> block_irs s l <> None) ->
    (forall v l, defined_in (defs s) v l <-> In l seen /\ assigns ira s l v) ->
    SSADiGraph.init_defs_walk ira walk s = Ok s' ->
    forall v l, defined_in (defs s') v l <-> In l (seen ++ walk) /\ assigns ira s' l v.
Proof.
  induction walk as [| b rest IH]; intros seen s s' Hown Hlab Hseen Hdefs;
    cbn [SSADiGraph.init_defs_walk].
  - intros [= <-]. rewrite app_nil_r. exact Hdefs.
  - intros H. apply bind_ok in H. destruct H as ([r s1] & Hg & H).
    destruct (get_block_owned ira h Hwf _ _ _ _ Hown Hg)
      as (Hown1 & Hk & _ & Hb & _ & _ & _ & Hd & _).
    destruct (get_block_labelled _ _ _ _ Hown Hlab Hg) as (Hlab1 & Hst).
    destruct (Hlab1 _ _ Hb) as (ib & Hib & Hibl).
    rewrite Hib in H.
    set (s2 := set_defs (SSADiGraph.init_defs_block ira ib (defs s1)) s1) in H.
    assert (Hirs2 : forall l, block_irs s2 l = block_irs s1 l) by reflexivity.
    assert (Hb2 : block_irs s2 b = Some (irs ib)).
    { rewrite Hirs2. unfold block_irs. now rewrite Hb, Hib. }
    assert (Hstable : forall l x, block_irs s l = Some x -> block_irs s2 l = Some x).
    { intros l x Hx. rewrite Hirs2. eapply block_irs_stable; eauto. }
    replace (seen ++ b :: rest) with ((seen ++ [b]) ++ rest)
      by (rewrite <- app_assoc; reflexivity).
    apply (IH (seen ++ [b]) s2 s'); [exact Hown1 | exact Hlab1 | | | exact H].
    + intros l Hin. apply in_app_or in Hin. destruct Hin as [Hin | [<- | []]].
      * specialize (Hseen l Hin). destruct (block_irs s l) eqn:E; [| contradiction].
        rewrite (Hstable _ _ E). discriminate.
      * rewrite Hb2. discriminate.
    + intros v l. unfold s2 at 1. cbn [defs set_defs].
      rewrite init_defs_block_defined, Hd, Hdefs, in_app_iff. cbn [In]. split.
      * intros [[Hin Ha] | (-> & Hin & Hid & Hip)].
        -- split; auto.
           apply (assigns_stable s s2 l v); [intros x; apply Hstable | now apply Hseen | exact Ha].
        -- split; auto. rewrite Hibl. exists (irs ib). auto.
      * intros [[Hin | [<- | []]] Ha].
        -- left. split; auto.
           apply (assigns_stable s s2 l v); [intros x; apply Hstable | now apply Hseen | exact Ha].
        -- right. destruct Ha as (x & Hx & Hin & Hid & Hip). rewrite Hb2 in Hx.
           injection Hx as <-. auto.
Qed.

End DefinitionBlocks.

(** X14: after [_init_variable_defs] on a new instance, the definition
    blocks recorded for a variable are exactly the blocks of the walk from
    the head whose copy assigns that variable, for the identifiers that are
    neither [IRDst] nor a program counter. *)
Theorem init_variable_defs_exact (ira : IRA) (h : heap) (head : label) (s' : SSA) :
  well_labelled ira h = true ->
  SSADiGraph._init_variable_defs ira head (init h) = Ok s' ->
  forall v lbl,
    defined_in (defs s') v lbl
    <-> In lbl (walk_depth_first_forward ira head) /\ assigns ira s' lbl v.
Proof.
  intros Hwf H.
  apply (init_defs_walk_defined ira h Hwf (walk_depth_first_forward ira head) [] (init h) s');
    [| | intros l [] | | exact H].
  - split; [apply firstn_all | intros lbl r []].
  - intros lbl r Hl. discriminate Hl.
  - intros v l. split; [intros (ls & [=] & _) | intros [[] _]].
Qed.

Lemma init_variable_defs_exact_witness :
  well_labelled diamond diamond_store = true
  /\ forall v lbl,
       defined_in (defs diamond_defs) v lbl
       <-> In lbl (walk_depth_first_forward diamond 0) /\ assigns diamond diamond_defs lbl v.
Proof.
  split; [reflexivity |].
  apply (init_variable_defs_exact diamond diamond_store 0 diamond_defs).
  - reflexivity.
  - vm_compute. reflexivity.
Defined.

(** ** The destinations of the phi functions of a block *)

Lemma phi_define_fresh (s : SSA) (k : expr) (post pre : list (expr * expr)) :
  plain_id k = true ->
  (forall x, In x (dict_keys post) -> plain_id x = true) ->
  (forall x, In x (dict_keys pre) -> plain_id x = true /\ x <> k) ->
  ~ In (rename_dst s k) (dict_keys (post ++ map (phi_define s) pre)).
Proof.
  intros Hk Hpost Hpre Hin. destruct (plain_id_shape k Hk) as (nm & size & ->).
  unfold dict_keys in Hin. rewrite map_app, map_map in Hin. apply in_app_or in Hin.
  destruct Hin as [Hin | Hin].
  - apply Hpost in Hin. discriminate.
  - apply in_map_iff in Hin. destruct Hin as ([k' v'] & Heq & Hin').
    destruct (Hpre k') as [Hp Hne]; [apply in_map_iff; exists (k', v'); auto |].
    destruct (plain_id_shape k' Hp) as (nm' & size' & ->).
    unfold phi_define in Heq. simpl in Heq. injection Heq as -> _ ->. now apply Hne.
Qed.

(** The state while [_rename_phi_lhs] walks over the phi functions [pre ++
    post] of the block [lbl]: those of [pre] are renamed and stand behind
    those of [post]. *)
Lemma rename_phi_lhs_rounds (lbl : label) (s : SSA) :
  forall (post pre : list (expr * expr)) (s0 : SSA),
    NoDup (dict_keys (pre ++ post)) ->
    (forall x, In x (dict_keys (pre ++ post)) -> plain_id x = true) ->
    dict_get Nat.eqb (_phinodes s0) lbl = Some (post ++ map (phi_define s) pre) ->
    (forall v, In v (dict_keys pre) ->
       dict_get expr_eqb (_stack_lhs s0) v = Some (counter s v + 1)
       /\ dict_get expr_eqb (_stack_rhs s0) v = Some (counter s v)) ->
    (forall v, ~ In v (dict_keys pre) ->
       dict_get expr_eqb (_stack_lhs s0) v = dict_get expr_eqb (_stack_lhs s) v
       /\ dict_get expr_eqb (_stack_rhs s0) v = dict_get expr_eqb (_stack_rhs s) v) ->
    exists s',
      fold_m (SSADiGraph.rename_phi_lhs_dst lbl) (dict_keys post) s0 = Ok s'
      /\ dict_get Nat.eqb (_phinodes s') lbl = Some (map (phi_define s) (pre ++ post))
      /\ (forall v, In v (dict_keys (pre ++ post)) ->
            dict_get expr_eqb (_stack_lhs s') v = Some (counter s v + 1)
            /\ dict_get expr_eqb (_stack_rhs s') v = Some (counter s v))
      /\ (forall v, ~ In v (dict_keys (pre ++ post)) ->
            dict_get expr_eqb (_stack_lhs s') v = dict_get expr_eqb (_stack_lhs s) v
            /\ dict_get expr_eqb (_stack_rhs s') v = dict_get expr_eqb (_stack_rhs s) v)
      /\ expressions s' = expressions s0
      /\ (forall l, l <> lbl ->
            dict_get Nat.eqb (_phinodes s') l = dict_get Nat.eqb (_phinodes s0) l).
Proof.
  induction post as [| [k v] post IH]; intros pre s0 Hnd Hplain Hphis Hin Hout.
  - exists s0. rewrite app_nil_r in *. simpl in Hphis. cbn [dict_keys map fold_m].
    repeat split; auto; try apply Hin; try apply Hout; auto.
  - assert (Hk : plain_id k = true).
    { apply Hplain. unfold dict_keys. rewrite map_app. apply in_or_app. right. now left. }
    assert (Hkpre : ~ In k (dict_keys pre)).
    { unfold dict_keys in *. rewrite map_app in Hnd. simpl in Hnd.
      apply NoDup_remove_2 in Hnd. intros H. apply Hnd. apply in_or_app. now left. }
    destruct (plain_id_shape k Hk) as (nm & size & Ek).
    cbn [dict_keys map fst fold_m]. unfold SSADiGraph.rename_phi_lhs_dst at 1.
    rewrite Hphis. cbn [app dict_get]. rewrite expr_eqb_refl. cbn [dict_del].
    rewrite expr_eqb_refl.
    set (s1 := set_phinodes
                 (dict_set Nat.eqb (_phinodes s0) lbl (post ++ map (phi_define s) pre)) s0).
    assert (Hc1 : counter s1 k = counter s k).
    { unfold counter. cbn [s1 _stack_lhs set_phinodes]. now rewrite (proj1 (Hout k Hkpre)). }
    rewrite Ek in *.
    destruct (transform_expression_lhs_id (NStr nm) size s1) as (s2 & Hrun & Hdef).
    rewrite Hrun. cbn [bind]. rewrite Hc1.
    pose proof (transform_expression_lhs_frame _ _ _ _ Hrun) as [(F1 & F2 & F3 & F4) Fe].
    rewrite F4. cbn [s1 _phinodes set_phinodes].
    rewrite (dict_get_set_same Nat.eqb Nat.eqb_eq), dict_set_twice.
    change (ExprId (NTup (NStr nm) (counter s (ExprId (NStr nm) size))) size)
      with (rename_dst s (ExprId (NStr nm) size)).
    rewrite dict_set_fresh.
    2:{ apply phi_define_fresh; auto.
        - intros x Hx. apply Hplain. unfold dict_keys in *. rewrite map_app.
          apply in_or_app. right. now right.
        - intros x Hx. split.
          + apply Hplain. unfold dict_keys in *. rewrite map_app. apply in_or_app. now left.
          + intros ->. contradiction. }
    set (s3 := set_phinodes _ s2).
    destruct Hdef as (Dl & Dr & Dother & _).
    destruct (IH (pre ++ [(ExprId (NStr nm) size, v)]) s3) as (s' & Hfold & Hp & Hi & Ho & He & Hl).
    + now rewrite <- app_assoc.
    + intros x Hx. apply Hplain. now rewrite <- app_assoc in Hx.
    + cbn [s3 _phinodes set_phinodes]. rewrite (dict_get_set_same Nat.eqb Nat.eqb_eq).
      rewrite map_app, <- app_assoc. reflexivity.
    + intros x Hx. cbn [s3 _stack_lhs _stack_rhs set_phinodes].
      unfold dict_keys in Hx. rewrite map_app in Hx. apply in_app_or in Hx.
      destruct Hx as [Hx | [<- | []]].
      * assert (Hne : x <> ExprId (NStr nm) size) by (intros ->; contradiction).
        destruct (Dother x Hne) as [-> ->]. cbn [s1 _stack_lhs _stack_rhs set_phinodes].
        now apply Hin.
      * cbn [fst]. rewrite Dl, Dr, Hc1. auto.
    + intros x Hx. cbn [s3 _stack_lhs _stack_rhs set_phinodes].
      assert (Hne : x <> ExprId (NStr nm) size).
      { intros ->. apply Hx. unfold dict_keys. rewrite map_app. apply in_or_app.
        right. now left. }
      destruct (Dother x Hne) as [-> ->]. cbn [s1 _stack_lhs _stack_rhs set_phinodes].
      apply Hout. intros H. apply Hx. unfold dict_keys. rewrite map_app. apply in_or_app.
      now left.
    + exists s'. rewrite <- app_assoc in Hp, Hi, Ho. cbn [app] in Hp, Hi, Ho.
      split; [exact Hfold |]. split; [exact Hp |]. split; [exact Hi |]. split; [exact Ho |].
      split.
      * rewrite He. cbn [s3 expressions set_phinodes]. rewrite Fe. reflexivity.
      * intros l Hne. rewrite (Hl l Hne). cbn [s3 _phinodes set_phinodes].
        now rewrite (dict_get_set_other Nat.eqb Nat.eqb_eq) by exact Hne.
Qed.

(** X15: [_rename_phi_lhs] gives the destination of every phi function of
    the block the next version of its variable and keeps the source and the
    order: the phi functions define new versions, which reach the body of the
    block, and the counters move on by one. The destinations are variables
    that are not in SSA form. *)
Theorem rename_phi_lhs_defines (lbl : label) (s : SSA) (d : list (expr * expr)) :
  dict_get Nat.eqb (_phinodes s) lbl = Some d ->
  NoDup (dict_keys d) -> forallb plain_id (dict_keys d) = true ->
  exists s',
    SSADiGraph._rename_phi_lhs lbl s = Ok s'
    /\ dict_get Nat.eqb (_phinodes s') lbl = Some (map (phi_define s) d)
    /\ (forall v, In v (dict_keys d) ->
          dict_get expr_eqb (_stack_lhs s') v = Some (counter s v + 1)
          /\ dict_get expr_eqb (_stack_rhs s') v = Some (counter s v))
    /\ (forall v, ~ In v (dict_keys d) ->
          dict_get expr_eqb (_stack_lhs s') v = dict_get expr_eqb (_stack_lhs s) v
          /\ dict_get expr_eqb (_stack_rhs s') v = dict_get expr_eqb (_stack_rhs s) v)
    /\ expressions s' = expressions s
    /\ (forall l, l <> lbl ->
          dict_get Nat.eqb (_phinodes s') l = dict_get Nat.eqb (_phinodes s) l).
Proof.
  intros Hget Hnd Hplain. rewrite forallb_forall in Hplain.
  unfold SSADiGraph._rename_phi_lhs, SSADiGraph.phinodes_keys. rewrite Hget.
  rewrite (fold_left_bind (SSADiGraph.rename_phi_lhs_dst lbl)) by reflexivity. cbn [bind].
  apply (rename_phi_lhs_rounds lbl s d [] s); auto.
  - now rewrite app_nil_r.
  - intros v [].
Qed.

Lemma rename_phi_lhs_defines_witness :
  exists s',
    SSADiGraph._rename_phi_lhs 3 diamond_after_L = Ok s'
    /\ dict_get Nat.eqb (_phinodes s') 3
       = Some (map (phi_define diamond_after_L)
                 [(var "x", ExprId (NStr "phi") 32); (var "y", ExprId (NStr "phi") 32)])
    /\ (forall v,
          In v (dict_keys [(var "x", ExprId (NStr "phi") 32); (var "y", ExprId (NStr "phi") 32)]) ->
          dict_get expr_eqb (_stack_lhs s') v = Some (counter diamond_after_L v + 1)
          /\ dict_get expr_eqb (_stack_rhs s') v = Some (counter diamond_after_L v))
    /\ (forall v,
          ~ In v (dict_keys [(var "x", ExprId (NStr "phi") 32);
                             (var "y", ExprId (NStr "phi") 32)]) ->
          dict_get expr_eqb (_stack_lhs s') v = dict_get expr_eqb (_stack_lhs diamond_after_L) v
          /\ dict_get expr_eqb (_stack_rhs s') v
             = dict_get expr_eqb (_stack_rhs diamond_after_L) v)
    /\ expressions s' = expressions diamond_after_L
    /\ (forall l, l <> 3 ->
          dict_get Nat.eqb (_phinodes s') l = dict_get Nat.eqb (_phinodes diamond_after_L) l).
Proof.
  apply (rename_phi_lhs_defines 3 diamond_after_L
           [(var "x", ExprId (NStr "phi") 32); (var "y", ExprId (NStr "phi") 32)]).
  - vm_compute. reflexivity.
  - repeat constructor; simpl; intuition discriminate.
  - reflexivity.
Defined.

(** ** Paths in pieces *)

(** X16: the transform of a path can be done in pieces: with the same
    instance, a path followed by another gives what their concatenation
    gives, errors included; the transform of a block is that of the path of
    that block alone. *)
Theorem path_transform_app (ira : IRA) (p q : list label) (s : SSA) :
  SSAPath.transform ira (p ++ q) s
  = (s1 <- SSAPath.transform ira p s ;; SSAPath.transform ira q s1)
  /\ forall lbl, SSABlock.transform ira lbl s = SSAPath.transform ira [lbl] s.
Proof.
  split.
  - revert s. induction p as [| b p IH]; intros s; cbn [app SSAPath.transform bind].
    + reflexivity.
    + destruct (_rename_expressions ira b s) as [s1 | | | |]; cbn [bind]; auto.
  - intros lbl. unfold SSABlock.transform. cbn [SSAPath.transform].
    now destruct (_rename_expressions ira lbl s).
Qed.

(** ** When the renaming returns *)

Lemma transform_lhs_supported (instructions : list (expr * expr)) :
  forall (rhs : list expr) (acc : AssignBlock) (s : SSA),
    List.length rhs = List.length instructions ->
    forallb (fun aff => supported_dst (fst aff)) instructions = true ->
    exists out s', transform_lhs instructions rhs acc s = Ok (out, s').
Proof.
  induction instructions as [| [dst src] rest IH]; intros rhs acc s Hlen Hsup; simpl in *.
  - eauto.
  - apply andb_true_iff in Hsup. destruct Hsup as [Hd Hrest].
    destruct (transform_expression_lhs_supported dst s Hd) as (e & s' & ->). simpl.
    destruct rhs as [| src_ssa rhs']; [discriminate |].
    apply IH; auto.
Qed.

(** X5: the renaming of an AssignBlock raises nothing but
    [AttributeError], and raises it exactly when a destination is neither an
    identifier nor a memory expression, wherever that destination stands:
    the queue of the right-hand sides never runs out, and no key is
    missing. *)
Theorem rename_assignblk_outcome (assignblk : AssignBlock) (s : SSA) :
  match rename_assignblk assignblk s with
  | Ok _ => forallb (fun aff => supported_dst (fst aff)) assignblk = true
  | AttributeError => forallb (fun aff => supported_dst (fst aff)) assignblk = false
  | _ => False
  end.
Proof.
  destruct (forallb (fun aff => supported_dst (fst aff)) assignblk) eqn:Hsup.
  - unfold rename_assignblk. rewrite transform_rhs_ok. cbn [bind].
    destruct (transform_lhs_supported (_parallel_instructions assignblk)
                (map (fun aff => rename_rhs (_stack_rhs s) (snd aff))
                   (_parallel_instructions assignblk)) [] s) as (out & s' & ->); auto.
    + now rewrite length_map.
    + now rewrite parallel_instructions_supported.
  - unfold rename_assignblk. rewrite transform_rhs_ok. cbn [bind].
    rewrite transform_lhs_unsupported; auto.
    + now rewrite length_map.
    + now rewrite parallel_instructions_supported.
Qed.

Lemma rename_assignblk_succeeds (assignblk : AssignBlock) (s : SSA) :
  forallb (fun aff => supported_dst (fst aff)) assignblk = true ->
  exists out s', rename_assignblk assignblk s = Ok (out, s').
Proof.
  intros Hsup. unfold rename_assignblk. rewrite transform_rhs_ok. cbn [bind].
  apply transform_lhs_supported.
  - now rewrite length_map.
  - now rewrite parallel_instructions_supported.
Qed.

(** The output of the renaming has identifier and memory destinations
    only. *)
Lemma transform_lhs_supported_out (instructions : list (expr * expr)) :
  forall (rhs : list expr) (acc out : AssignBlock) (s s' : SSA),
    forallb (fun aff => supported_dst (fst aff)) acc = true ->
    transform_lhs instructions rhs acc s = Ok (out, s') ->
    forallb (fun aff => supported_dst (fst aff)) out = true.
Proof.
  induction instructions as [| aff rest IH]; intros rhs acc out s s' Hacc; simpl.
  - now intros [= <- _].
  - intros H. apply bind_ok in H. destruct H as ([d s1] & H1 & H).
    destruct rhs as [| src_ssa rhs']; [discriminate |].
    eapply IH; [| exact H].
    assert (Hd : supported_dst d = true).
    { apply transform_expression_lhs_cases in H1.
      destruct H1 as [(a & size & -> & _ & ->) | (n & size & _ & -> & _)]; auto.
      now destruct (rename_rhs_mem (_stack_rhs s) a size) as (a' & ->). }
    apply forallb_forall. intros [k v] Hin.
    apply (dict_set_In_keyed expr_eqb expr_eqb_eq) in Hin. destruct Hin as [Hin | [-> _]]; [| exact Hd].
    rewrite forallb_forall in Hacc. exact (Hacc _ Hin).
Qed.

Lemma rename_list_frame (todo : list AssignBlock) :
  forall (s s' : SSA) (outs : list AssignBlock),
    rename_list todo s = Ok (outs, s') -> same_frame s s'.
Proof.
  induction todo as [| ab rest IH]; intros s s' outs; simpl.
  - intros [= _ <-]. apply same_frame_refl.
  - intros H. apply bind_ok in H. destruct H as ([out s1] & H1 & H).
    apply bind_ok in H. destruct H as ([outs' s2] & H & [= _ <-]).
    eapply same_frame_trans; [exact (rename_assignblk_frame _ _ _ _ H1) |].
    eapply IH; eauto.
Qed.

Lemma rename_list_succeeds (todo : list AssignBlock) :
  forall s : SSA,
    forallb (fun assignblk : AssignBlock =>
               forallb (fun aff => supported_dst (fst aff)) assignblk) todo = true ->
    exists outs s',
      rename_list todo s = Ok (outs, s')
      /\ forallb (fun assignblk : AssignBlock =>
                    forallb (fun aff => supported_dst (fst aff)) assignblk) outs = true.
Proof.
  induction todo as [| ab rest IH]; intros s Hsup; simpl in *.
  - exists [], s. auto.
  - apply andb_true_iff in Hsup. destruct Hsup as [Hab Hrest].
    destruct (rename_assignblk_succeeds ab s Hab) as (out & s1 & Hrun).
    rewrite Hrun. cbn [bind].
    destruct (IH s1 Hrest) as (outs & s2 & -> & Houts). cbn [bind].
    exists (out :: outs), s2. split; auto. simpl. rewrite Houts, andb_true_r.
    unfold rename_assignblk in Hrun. apply bind_ok in Hrun. destruct Hrun as (rhs & _ & Hrun).
    eapply transform_lhs_supported_out; [| exact Hrun]. reflexivity.
Qed.

Section Success.
Variable ira : IRA.
Variable h : heap.
Hypothesis Hwf : well_labelled ira h = true.

Lemma get_block_succeeds (lbl : label) (s : SSA) :
  owned h s -> labelled s -> copies_supported s -> renamable ira h lbl ->
  exists r s1 b,
    get_block ira lbl s = Ok (r, s1)
    /\ nth_error (store s1) r = Some b /\ ib_label b = lbl /\ block_supported b = true
    /\ List.length h <= r
    /\ owned h s1 /\ labelled s1 /\ copies_supported s1.
Proof.
  intros Hown Hlab Hsup (r0 & b0 & Hira & Hb0 & Hs0).
  destruct (dict_get Nat.eqb (blocks s) lbl) as [r |] eqn:Hget.
  - destruct (Hlab _ _ Hget) as (b & Hb & Hbl).
    exists r, s, b. unfold get_block. rewrite Hget.
    repeat split; auto; try apply Hown.
    + exact (Hsup _ _ _ Hget Hb).
    + destruct Hown as [_ Hr]. apply (Hr lbl). eapply (dict_get_In Nat.eqb Nat.eqb_eq); eauto.
  - assert (Hs : nth_error (store s) r0 = Some b0).
    { destruct Hown as [Hf _]. rewrite <- Hf in Hb0.
      rewrite nth_error_firstn in Hb0.
      destruct (Nat.ltb r0 (List.length h)); [auto | discriminate]. }
    assert (Hrun : get_block ira lbl s
                   = Ok (List.length (store s),
                         set_blocks (dict_set Nat.eqb (blocks s) (ib_label b0)
                                       (List.length (store s)))
                           (set_store (store s ++ [mk_irbloc (ib_label b0) (irs b0)]) s))).
    { unfold get_block. rewrite Hget. unfold _copy_block, copy_block.
      rewrite Hira, Hs. cbn [bind].
      rewrite nth_error_app2 by lia. rewrite Nat.sub_diag. reflexivity. }
    destruct (get_block_owned ira h Hwf _ _ _ _ Hown Hrun)
      as (Hown1 & _ & Hr & Hb1 & _).
    destruct (get_block_labelled ira h Hwf _ _ _ _ Hown Hlab Hrun) as (Hlab1 & _).
    destruct (Hlab1 _ _ Hb1) as (b & Hb & Hbl).
    assert (Eb : b = mk_irbloc (ib_label b0) (irs b0)).
    { cbn [store set_blocks set_store] in Hb.
      rewrite nth_error_app2 in Hb by lia. rewrite Nat.sub_diag in Hb.
      now injection Hb as <-. }
    eexists _, _, b. split; [exact Hrun |]. split; [exact Hb |]. split; [exact Hbl |].
    split; [rewrite Eb; exact Hs0 |]. split; [exact Hr |]. split; [exact Hown1 |].
    split; [exact Hlab1 |].
    intros l r1 b1 Hl Hn. cbn [blocks store set_blocks set_store] in Hl, Hn.
    destruct (Nat.eq_dec l (ib_label b0)) as [-> | Hne].
    + rewrite (dict_get_set_same Nat.eqb Nat.eqb_eq) in Hl. injection Hl as <-.
      rewrite nth_error_app2 in Hn by lia. rewrite Nat.sub_diag in Hn.
      injection Hn as <-. exact Hs0.
    + rewrite (dict_get_set_other Nat.eqb Nat.eqb_eq) in Hl by exact Hne.
      destruct (Hlab _ _ Hl) as (b2 & Hb2 & _).
      rewrite nth_error_app1 in Hn by (apply nth_error_Some; congruence).
      exact (Hsup _ _ _ Hl Hn).
Qed.

Lemma rename_expressions_succeeds (lbl : label) (s : SSA) :
  owned h s -> labelled s -> copies_supported s -> renamable ira h lbl ->
  exists s',
    _rename_expressions ira lbl s = Ok s'
    /\ owned h s' /\ labelled s' /\ copies_supported s'.
Proof.
  intros Hown Hlab Hsup Hren.
  destruct (get_block_succeeds lbl s Hown Hlab Hsup Hren)
    as (r & s1 & b & Hg & Hb & Hbl & Hbs & Hr & Hown1 & Hlab1 & Hsup1).
  unfold _rename_expressions. rewrite Hg. cbn [bind]. rewrite Hb.
  pose proof (rename_irs_list r (ib_label b) (irs b) [] (store s1) s1) as Hirs.
  cbn [app List.length] in Hirs.
  replace (set_store (store s1) s1) with s1 in Hirs by now destruct s1.
  rewrite Hirs by (rewrite Hb; now destruct b).
  destruct (rename_list_succeeds (irs b) s1 Hbs) as (outs & s2 & Hrl & Houts).
  rewrite Hrl. cbn [bind]. eexists. split; [reflexivity |].
  apply rename_list_frame in Hrl. destruct Hrl as (F1 & F2 & _).
  split; [| split].
  - destruct Hown1 as [Hf Hbk]. split; cbn [store blocks set_store].
    + rewrite firstn_list_set by exact Hr. exact Hf.
    + rewrite F2. exact Hbk.
  - intros l r1 Hl. cbn [store blocks set_store] in *. rewrite F2 in Hl.
    destruct (Hlab1 _ _ Hl) as (b1 & Hb1 & Hbl1).
    destruct (Nat.eq_dec r r1) as [<- | Hne].
    + eexists. split; [eapply nth_error_list_set; eauto |]. cbn [ib_label]. congruence.
    + exists b1. split; auto. now rewrite nth_error_list_set_other.
  - intros l r1 b1 Hl Hn. cbn [store blocks set_store] in *. rewrite F2 in Hl.
    destruct (Nat.eq_dec r r1) as [<- | Hne].
    + rewrite (nth_error_list_set _ _ _ _ Hb) in Hn. injection Hn as <-. exact Houts.
    + rewrite nth_error_list_set_other in Hn by exact Hne. exact (Hsup1 _ _ _ Hl Hn).
Qed.

Lemma path_transform_succeeds_from (path : list label) :
  forall s : SSA,
    owned h s -> labelled s -> copies_supported s ->
    (forall lbl, In lbl path -> renamable ira h lbl) ->
    exists s', SSAPath.transform ira path s = Ok s' /\ owned h s'.
Proof.
  induction path as [| lbl rest IH]; intros s Hown Hlab Hsup Hren; cbn [SSAPath.transform].
  - eauto.
  - destruct (rename_expressions_succeeds lbl s Hown Hlab Hsup)
      as (s1 & -> & Hown1 & Hlab1 & Hsup1); [apply Hren; now left |].
    cbn [bind]. apply IH; auto. intros l Hl. apply Hren. now right.
Qed.

End Success.

(** X17: the transform of a path by a new instance returns when every
    block of the path is a block of the IRA whose destinations are
    identifiers and memory expressions; a block may come more than once in
    the path, its copy is then renamed again. *)
Theorem path_transform_succeeds (ira : IRA) (h : heap) (path : list label) :
  well_labelled ira h = true ->
  (forall lbl, In lbl path -> renamable ira h lbl) ->
  exists s', SSAPath.transform ira path (init h) = Ok s'.
Proof.
  intros Hwf Hren.
  destruct (path_transform_succeeds_from ira h Hwf path (init h)) as (s' & Hrun & _); eauto.
  - split; [apply firstn_all | intros lbl r []].
  - intros lbl r Hl. discriminate Hl.
  - intros lbl r b Hl. discriminate Hl.
Qed.

Lemma path_transform_succeeds_witness :
  exists s', SSAPath.transform diamond [0; 1; 0; 3] (init diamond_store) = Ok s'.
Proof.
  apply (path_transform_succeeds diamond diamond_store [0; 1; 0; 3]).
  - reflexivity.
  - intros lbl [<- | [<- | [<- | [<- | []]]]]; eexists _, _;
      (split; [reflexivity | split; reflexivity]).
Defined.

(** ** What [reassemble_expr] returns *)

Lemma expand_eq (tbl : list (expr * expr)) (n : nat) (e : expr) :
  expand tbl n e
  = match e with
    | ExprId _ _ =>
        match n with
        | O => e
        | S n' =>
            match dict_get expr_eqb tbl e with
            | Some rhs => expand tbl n' rhs
            | None => e
            end
        end
    | ExprInt _ _ => e
    | ExprMem a size => ExprMem (expand tbl n a) size
    | ExprOp op args => ExprOp op (map (expand tbl n) args)
    end.
Proof. destruct n; destruct e; reflexivity. Qed.

Lemma expand_no_key (tbl : list (expr * expr)) (n : nat) (e : expr) :
  (forall x, In x (id_ e) -> dict_mem expr_eqb tbl x = false) -> expand tbl n e = e.
Proof.
  induction e as [nm s | w s | a s IH | o args IH] using expr_ind_nested;
    intros Hno; rewrite expand_eq.
  - specialize (Hno _ (or_introl eq_refl)). unfold dict_mem in Hno.
    destruct n; auto. now destruct (dict_get expr_eqb tbl (ExprId nm s)).
  - reflexivity.
  - now rewrite IH.
  - f_equal. rewrite <- (map_id args) at 2. apply map_ext_in. intros a Ha.
    rewrite Forall_forall in IH. apply IH; auto.
    intros x Hx. apply Hno. apply id_op_In. eauto.
Qed.

Section Expansion.
Variable tbl : list (expr * expr).
Variable rank : expr -> nat.
Hypothesis Hranked : ranked rank tbl = true.

(** More depth than the ranks of the keys of an expression changes
    nothing. *)
Lemma expand_stable (n : nat) :
  forall (e : expr) (m : nat),
    (forall x, In x (id_ e) -> dict_mem expr_eqb tbl x = true -> rank x < n) ->
    n <= m -> expand tbl m e = expand tbl n e.
Proof.
  induction n as [| n IHn];
    induction e as [nm s | w s | a s IH | o args IH] using expr_ind_nested;
    intros m Hb Hle; rewrite (expand_eq tbl m), (expand_eq tbl _ (_ _ _)); auto.
  - destruct m as [| m]; auto.
    destruct (dict_get expr_eqb tbl (ExprId nm s)) as [rhs |] eqn:Hget; auto.
    assert (Hkey : dict_mem expr_eqb tbl (ExprId nm s) = true)
      by (unfold dict_mem; now rewrite Hget).
    specialize (Hb _ (or_introl eq_refl) Hkey). lia.
  - f_equal. apply IH; auto.
  - f_equal. apply map_ext_in. intros a Ha. rewrite Forall_forall in IH.
    apply IH; auto. intros x Hx. apply Hb. apply id_op_In. eauto.
  - destruct m as [| m]; [lia |].
    destruct (dict_get expr_eqb tbl (ExprId nm s)) as [rhs |] eqn:Hget; auto.
    assert (Hkey : dict_mem expr_eqb tbl (ExprId nm s) = true)
      by (unfold dict_mem; now rewrite Hget).
    specialize (Hb _ (or_introl eq_refl) Hkey).
    apply IHn; [| lia]. intros y Hy Hykey.
    pose proof (ranked_spec rank tbl _ _ _ Hranked Hget Hy Hykey). lia.
  - f_equal. apply IH; auto.
  - f_equal. apply map_ext_in. intros a Ha. rewrite Forall_forall in IH.
    apply IH; auto. intros x Hx. apply Hb. apply id_op_In. eauto.
Qed.

Variable n : nat.
Hypothesis Hbelow : ranks_below rank n tbl = true.

Lemma key_rank_below (x : expr) : dict_mem expr_eqb tbl x = true -> rank x < n.
Proof.
  intros Hkey. apply (dict_mem_In expr_eqb expr_eqb_eq) in Hkey.
  apply in_map_iff in Hkey. destruct Hkey as (entry & <- & Hin).
  unfold ranks_below in Hbelow. rewrite forallb_forall in Hbelow.
  apply Nat.ltb_lt. exact (Hbelow _ Hin).
Qed.

(** One round of the loop of [reassemble_expr] keeps the expansion. *)
Lemma expand_replace (cn : name) (cs : nat) (rhs e : expr) :
  dict_get expr_eqb tbl (ExprId cn cs) = Some rhs ->
  expand tbl n (replace_expr (ExprId cn cs) rhs e) = expand tbl n e.
Proof.
  intros Hget.
  assert (Hkey : dict_mem expr_eqb tbl (ExprId cn cs) = true)
    by (unfold dict_mem; now rewrite Hget).
  pose proof (key_rank_below _ Hkey) as Hlt.
  induction e as [nm s | w s | a s IH | o args IH] using expr_ind_nested;
    rewrite replace_expr_eq.
  - destruct (expr_eqb (ExprId nm s) (ExprId cn cs)) eqn:E; auto.
    apply expr_eqb_eq in E. rewrite E.
    destruct n as [| n']; [lia |].
    rewrite (expand_eq tbl (S n') (ExprId cn cs)), Hget.
    apply expand_stable; [| lia]. intros y Hy Hykey.
    pose proof (ranked_spec rank tbl _ _ _ Hranked Hget Hy Hykey). lia.
  - reflexivity.
  - rewrite (expand_eq tbl n (ExprMem _ _)), (expand_eq tbl n (ExprMem a s)).
    now rewrite IH.
  - rewrite (expand_eq tbl n (ExprOp _ _)), (expand_eq tbl n (ExprOp o args)).
    f_equal. rewrite map_map. apply map_ext_in. intros a Ha.
    rewrite Forall_forall in IH. auto.
Qed.

Lemma reassemble_loop_expands (choose : list expr -> nat) (fuel : nat) :
  forall (todo : list expr) (e r : expr),
    (forall x, In x todo -> SSADiGraph.is_ExprId x = true) ->
    (forall x, In x (id_ e) -> dict_mem expr_eqb tbl x = true -> In x todo) ->
    SSABlock.reassemble_loop choose tbl fuel todo e = Ok r ->
    r = expand tbl n e.
Proof.
  induction fuel as [| fuel IH]; intros todo e r Hids Hinv Hrun.
  - destruct todo; simpl in Hrun; [| discriminate]. injection Hrun as <-.
    symmetry. apply expand_no_key. intros x Hx.
    destruct (dict_mem expr_eqb tbl x) eqn:E; auto. destruct (Hinv x Hx E).
  - destruct todo as [| t todo'].
    + simpl in Hrun. injection Hrun as <-.
      symmetry. apply expand_no_key. intros x Hx.
      destruct (dict_mem expr_eqb tbl x) eqn:E; auto. destruct (Hinv x Hx E).
    + cbn [SSABlock.reassemble_loop] in Hrun.
      destruct (set_pop choose (t :: todo')) as [[cur todo1] |] eqn:Hpop; [| discriminate].
      destruct (dict_get expr_eqb tbl cur) as [cur_rhs |] eqn:Hget; [| discriminate].
      destruct (set_pop_In choose _ _ _ Hpop) as [Hcur Hsub].
      pose proof (Hids _ Hcur) as Hid. destruct cur as [cn cs | | |]; try discriminate.
      rewrite <- (expand_replace cn cs cur_rhs e Hget).
      apply (IH _ _ _) in Hrun; auto.
      * intros x Hx. apply add_rhs_ids_In in Hx. destruct Hx as [Hx | [Hx _]]; auto.
        destruct (id_is_ExprId _ _ Hx) as (nm & s & ->). reflexivity.
      * intros y Hy Hkey. apply add_rhs_ids_In.
        destruct (id_replace_expr _ _ _ _ Hy) as [H | [H Hne]]; auto.
        left. destruct (set_pop_split choose _ _ _ Hpop y (Hinv y H Hkey)); [contradiction | auto].
Qed.

End Expansion.

(** X18: on a table without cyclic references, what [reassemble_expr]
    returns for a key that is an identifier does not depend on the order in
    which [set.pop()] hands out the worklist, nor on the number of rounds: it
    is the right-hand side of the key with every identifier that is a key
    expanded, again and again, until none is left. *)
Theorem reassemble_expr_expands (choose : list expr -> nat) (fuel : nat) (s : SSA)
  (rank : expr -> nat) (n : nat) (nm : name) (size : nat) (r : expr) :
  ranked rank (expressions s) = true ->
  ranks_below rank n (expressions s) = true ->
  SSABlock.reassemble_expr choose fuel s (ExprId nm size) = Ok r ->
  exists rhs,
    dict_get expr_eqb (expressions s) (ExprId nm size) = Some rhs
    /\ r = expand (expressions s) n rhs.
Proof.
  intros Hranked Hbelow. unfold SSABlock.reassemble_expr.
  destruct fuel as [| fuel]; [discriminate |].
  cbn [SSABlock.reassemble_loop]. rewrite set_pop_singleton.
  destruct (dict_get expr_eqb (expressions s) (ExprId nm size)) as [rhs |] eqn:Hget;
    [| discriminate].
  rewrite replace_expr_self. intros Hrun. exists rhs. split; auto.
  apply (reassemble_loop_expands _ rank Hranked n Hbelow choose fuel _ _ _) in Hrun; auto.
  - intros x Hx. apply add_rhs_ids_In in Hx. destruct Hx as [[] | [Hx _]].
    destruct (id_is_ExprId _ _ Hx) as (nm' & sz & ->). reflexivity.
  - intros x Hx Hkey. apply add_rhs_ids_In. auto.
Qed.

Lemma reassemble_expr_expands_witness :
  exists rhs,
    dict_get expr_eqb (expressions (set_expressions straight_line_table (init [])))
      (ExprId (NTup (NStr "b") 0) 32) = Some rhs
    /\ ExprOp "+" [ExprInt 1 32; ExprInt 2 32]
       = expand (expressions (set_expressions straight_line_table (init []))) 3 rhs.
Proof.
  apply (reassemble_expr_expands pop_first 5 (set_expressions straight_line_table (init []))
           straight_line_rank 3 (NTup (NStr "b") 0) 32
           (ExprOp "+" [ExprInt 1 32; ExprInt 2 32])).
  - reflexivity.
  - reflexivity.
  - vm_compute. reflexivity.
Defined.

(** ** When the transform of a graph returns *)

Lemma phi_entry_ok_src (k k' v : expr) :
  phi_entry_ok (k, v) = true -> SSADiGraph.is_ExprId k' = true ->
  phi_entry_ok (k', v) = true.
Proof.
  unfold phi_entry_ok. cbn [fst snd]. intros H Hk'. apply andb_true_iff in H.
  destruct H as [_ H]. now rewrite Hk', H.
Qed.

Lemma phi_entries_set (d : list (expr * expr)) (k v : expr) :
  forallb phi_entry_ok d = true -> phi_entry_ok (k, v) = true ->
  forallb phi_entry_ok (dict_set expr_eqb d k v) = true.
Proof.
  intros Hd Hk. apply forallb_forall. intros [k' v'] Hin.
  apply (dict_set_In_keyed expr_eqb expr_eqb_eq) in Hin.
  destruct Hin as [Hin | [-> ->]]; auto.
  rewrite forallb_forall in Hd. exact (Hd _ Hin).
Qed.

Lemma phis_ok_set (allowed : label -> Prop) (phinodes : list (label * list (expr * expr)))
  (lbl : label) (d : list (expr * expr)) :
  phis_ok allowed phinodes -> allowed lbl -> NoDup (dict_keys d) ->
  forallb phi_entry_ok d = true ->
  phis_ok allowed (dict_set Nat.eqb phinodes lbl d).
Proof.
  intros [Hnd Hok] Hl Hd He. split.
  - now apply (dict_set_NoDup Nat.eqb Nat.eqb_eq).
  - intros l d'. destruct (Nat.eq_dec l lbl) as [-> | Hne].
    + rewrite (dict_get_set_same Nat.eqb Nat.eqb_eq). intros [= <-]. auto.
    + rewrite (dict_get_set_other Nat.eqb Nat.eqb_eq) by exact Hne. apply Hok.
Qed.

Lemma phinodes_place_ok (allowed : label -> Prop)
  (phinodes : list (label * list (expr * expr))) (node : label) (variable : expr) :
  allowed node -> SSADiGraph.is_ExprId variable = true ->
  phis_ok allowed phinodes ->
  phis_ok allowed
    (SSADiGraph.phinodes_place phinodes node variable (SSADiGraph._gen_empty_phi variable)).
Proof.
  intros Hn Hv Hok. unfold SSADiGraph.phinodes_place.
  assert (Hnew : phi_entry_ok (variable, SSADiGraph._gen_empty_phi variable) = true).
  { unfold phi_entry_ok. cbn [fst snd]. rewrite Hv. reflexivity. }
  destruct (dict_get Nat.eqb phinodes node) as [d |] eqn:Hd.
  - destruct (proj2 Hok _ _ Hd) as (_ & Hnd & He).
    apply phis_ok_set; auto.
    + now apply (dict_set_NoDup expr_eqb expr_eqb_eq).
    + now apply phi_entries_set.
  - apply phis_ok_set; auto.
    + repeat constructor. intros [].
    + simpl. now rewrite Hnew.
Qed.

Lemma place_nodes_phis_ok (allowed : label -> Prop) (variable : expr) (nodes : list label) :
  SSADiGraph.is_ExprId variable = true -> (forall n, In n nodes -> allowed n) ->
  forall p, phis_ok allowed (SSADiGraph.placed p) ->
            phis_ok allowed
              (SSADiGraph.placed (fold_left (SSADiGraph.place_node variable) nodes p)).
Proof.
  intros Hv. induction nodes as [| n nodes IH]; intros Hn p H; simpl; auto.
  apply IH; [intros m Hm; apply Hn; now right |]. unfold SSADiGraph.place_node.
  destruct (set_mem Nat.eqb n (SSADiGraph.done p)); auto.
  destruct (negb (set_mem Nat.eqb n (SSADiGraph.intodo p))); simpl;
    apply phinodes_place_ok; auto; apply Hn; now left.
Qed.

Lemma place_loop_phis_ok (choose : list label -> nat) (frontier : list (label * list label))
  (variable : expr) (fuel : nat) :
  SSADiGraph.is_ExprId variable = true ->
  forall p p', SSADiGraph.place_loop choose frontier variable fuel p = Ok p' ->
               phis_ok (fun n => In n (targets frontier)) (SSADiGraph.placed p) ->
               phis_ok (fun n => In n (targets frontier)) (SSADiGraph.placed p').
Proof.
  intros Hv. induction fuel as [| fuel IH]; intros p p'; simpl.
  - destruct (SSADiGraph.todo p); [| discriminate]. now intros [= <-].
  - destruct (SSADiGraph.todo p) as [| t todo'] eqn:Htodo; [now intros [= <-] |].
    destruct (set_pop choose (t :: todo')) as [[b todo1] |]; [| discriminate].
    intros H Hinv. eapply IH; [exact H |].
    apply place_nodes_phis_ok; auto.
    intros n Hn. eapply frontier_get_targets; eauto.
Qed.

Lemma place_defs_phis_ok (choose : list label -> nat) (frontier : list (label * list label))
  (fuel : nat) (defs : list (expr * list label)) :
  (forall v, In v (dict_keys defs) -> SSADiGraph.is_ExprId v = true) ->
  forall phinodes phinodes',
    SSADiGraph.place_defs choose frontier fuel defs phinodes = Ok phinodes' ->
    phis_ok (fun n => In n (targets frontier)) phinodes ->
    phis_ok (fun n => In n (targets frontier)) phinodes'.
Proof.
  induction defs as [| [variable blocks] defs IH]; intros Hids phinodes phinodes'; simpl.
  - now intros [= <-].
  - intros H Hinv. apply bind_ok in H. destruct H as (p & Hp & H).
    eapply IH; [| exact H |].
    + intros v Hv. apply Hids. now right.
    + unfold SSADiGraph.place_variable in Hp.
      eapply place_loop_phis_ok; [| exact Hp |].
      * apply Hids. now left.
      * now rewrite place_start_placed.
Qed.

(** The definition blocks of a variable are distinct blocks of the walk. *)
Lemma defs_add_within (walk : list label) (defs : list (expr * list label)) (dst : expr)
  (lbl : label) :
  In lbl walk -> NoDup (dict_keys defs) -> defs_within walk defs ->
  defs_within walk (SSADiGraph.defs_add defs dst lbl).
Proof.
  intros Hl Hnd Hin v blocks. unfold SSADiGraph.defs_add.
  destruct (dict_get expr_eqb defs dst) as [bs |] eqn:Hd; intros H;
    apply (dict_set_In_keyed expr_eqb expr_eqb_eq) in H;
    destruct H as [H | [-> ->]]; eauto.
  - apply (dict_get_In expr_eqb expr_eqb_eq) in Hd. destruct (Hin _ _ Hd) as [Hn Hi].
    split; [now apply (set_add_NoDup Nat.eqb Nat.eqb_eq) |].
    intros x Hx. apply (set_add_In Nat.eqb Nat.eqb_eq) in Hx. destruct Hx as [-> | Hx]; auto.
  - split; [repeat constructor; intros [] | intros x [<- | []]; exact Hl].
Qed.

Lemma init_defs_block_within (ira : IRA) (walk : list label) (ib : irbloc) :
  In (ib_label ib) walk ->
  forall defs, NoDup (dict_keys defs) -> defs_within walk defs ->
               defs_within walk (SSADiGraph.init_defs_block ira ib defs).
Proof.
  intros Hl. unfold SSADiGraph.init_defs_block. generalize (SSADiGraph.ir_dsts ib) as dsts.
  induction dsts as [| dst dsts IH]; intros defs Hnd Hin; simpl; auto.
  destruct (SSADiGraph.is_ExprId dst); auto.
  destruct (set_mem expr_eqb dst (SSADiGraph.instruction_pointer ira)); auto.
  apply IH.
  - unfold SSADiGraph.defs_add.
    destruct (dict_get expr_eqb defs dst); now apply (dict_set_NoDup expr_eqb expr_eqb_eq).
  - now apply defs_add_within.
Qed.

Lemma dict_del_keys_other (d : list (expr * expr)) (k k' : expr) :
  k' <> k -> In k' (dict_keys d) -> In k' (dict_keys (dict_del expr_eqb d k)).
Proof.
  intros Hne. induction d as [| [k1 v1] d IH]; simpl; auto.
  destruct (expr_eqb k k1) eqn:E.
  - apply expr_eqb_eq in E. subst. intros [H | H]; [congruence | exact H].
  - simpl. intros [H | H]; auto.
Qed.

Lemma dict_set_keys_mono (d : list (expr * expr)) (k k' v : expr) :
  In k' (dict_keys d) -> In k' (dict_keys (dict_set expr_eqb d k v)).
Proof.
  induction d as [| [k1 v1] d IH]; simpl; [tauto |].
  destruct (expr_eqb k k1); simpl; intros [H | H]; auto.
Qed.

Lemma phi_entries_del (d : list (expr * expr)) (k : expr) :
  forallb phi_entry_ok d = true -> forallb phi_entry_ok (dict_del expr_eqb d k) = true.
Proof.
  intros Hd. apply forallb_forall. intros [k' v'] Hin.
  apply (dict_del_In expr_eqb) in Hin. rewrite forallb_forall in Hd. exact (Hd _ Hin).
Qed.

(** The loop of [_rename_phi_lhs] over the destinations still to rename,
    all of them among the phi functions of the block. *)
Lemma rename_phi_lhs_keys_succeed (allowed : label -> Prop) (lbl : label) :
  forall (todo : list expr) (s0 : SSA) (d : list (expr * expr)),
    phis_ok allowed (_phinodes s0) ->
    dict_get Nat.eqb (_phinodes s0) lbl = Some d ->
    NoDup todo -> (forall k, In k todo -> In k (dict_keys d)) ->
    exists s',
      fold_m (SSADiGraph.rename_phi_lhs_dst lbl) todo s0 = Ok s'
      /\ phis_ok allowed (_phinodes s').
Proof.
  induction todo as [| k rest IH]; intros s0 d Hok Hget Hnd Hkeys; cbn [fold_m].
  - eauto.
  - inversion Hnd as [| ? ? Hk Hrest]; subst.
    destruct (proj2 Hok _ _ Hget) as (Hl & Hd & He).
    destruct (dict_get expr_eqb d k) as [payload |] eqn:Hp;
      [| apply (dict_get_None expr_eqb expr_eqb_eq) in Hp; destruct Hp; apply Hkeys; now left].
    assert (Hentry : phi_entry_ok (k, payload) = true).
    { rewrite forallb_forall in He. apply He.
      exact (dict_get_In expr_eqb expr_eqb_eq _ _ _ Hp). }
    assert (Hid : SSADiGraph.is_ExprId k = true).
    { unfold phi_entry_ok in Hentry. apply andb_true_iff in Hentry. apply Hentry. }
    destruct k as [n sz | | |]; try discriminate.
    unfold SSADiGraph.rename_phi_lhs_dst at 1. rewrite Hget, Hp.
    set (s1 := set_phinodes
                 (dict_set Nat.eqb (_phinodes s0) lbl (dict_del expr_eqb d (ExprId n sz))) s0).
    destruct (transform_expression_lhs_id n sz s1) as (s2 & Hrun & Hdef).
    rewrite Hrun. cbn [bind].
    pose proof (transform_expression_lhs_frame _ _ _ _ Hrun) as [(_ & _ & _ & F4) _].
    rewrite F4. cbn [s1 _phinodes set_phinodes].
    rewrite (dict_get_set_same Nat.eqb Nat.eqb_eq), dict_set_twice. cbn [bind].
    set (dst_ssa := ExprId (NTup n (counter s1 (ExprId n sz))) sz).
    set (d' := dict_set expr_eqb (dict_del expr_eqb d (ExprId n sz)) dst_ssa payload).
    apply (IH _ d'); auto.
    + cbn [_phinodes set_phinodes]. apply phis_ok_set; auto.
      * apply (dict_set_NoDup expr_eqb expr_eqb_eq).
        now apply (dict_del_NoDup expr_eqb).
      * apply phi_entries_set; [now apply phi_entries_del |].
        exact (phi_entry_ok_src _ dst_ssa _ Hentry eq_refl).
    + cbn [_phinodes set_phinodes]. apply (dict_get_set_same Nat.eqb Nat.eqb_eq).
    + intros k' Hk'. apply dict_set_keys_mono. apply dict_del_keys_other.
      * intros ->. contradiction.
      * apply Hkeys. now right.
Qed.

Lemma rename_phi_lhs_succeeds (allowed : label -> Prop) (lbl : label) (s : SSA) :
  phis_ok allowed (_phinodes s) ->
  exists s',
    SSADiGraph._rename_phi_lhs lbl s = Ok s'
    /\ phis_ok allowed (_phinodes s') /\ untouched s s'.
Proof.
  intros Hok.
  assert (Hrun : exists s', SSADiGraph._rename_phi_lhs lbl s = Ok s'
                            /\ phis_ok allowed (_phinodes s')).
  { unfold SSADiGraph._rename_phi_lhs, SSADiGraph.phinodes_keys.
    rewrite (fold_left_bind (SSADiGraph.rename_phi_lhs_dst lbl)) by reflexivity. cbn [bind].
    destruct (dict_get Nat.eqb (_phinodes s) lbl) as [d |] eqn:Hget.
    - apply (rename_phi_lhs_keys_succeed allowed lbl _ s d); auto.
      apply (proj2 Hok _ _ Hget).
    - cbn [fold_m]. eauto. }
  destruct Hrun as (s' & Hrun & Hok'). exists s'. split; [exact Hrun |]. split; [exact Hok' |].
  exact (rename_phi_lhs_untouched _ _ _ Hrun).
Qed.

Lemma phi_entries_extend (done : list expr) (stack_rhs : list (expr * nat))
  (d : list (expr * expr)) :
  forallb phi_entry_ok d = true ->
  forallb phi_entry_ok (map (phi_extend_in done stack_rhs) d) = true.
Proof.
  intros Hd. apply forallb_forall. intros entry Hin.
  apply in_map_iff in Hin. destruct Hin as ([k v] & <- & Hin).
  rewrite forallb_forall in Hd. specialize (Hd _ Hin).
  unfold phi_extend_in. cbn [fst]. destruct (set_mem expr_eqb k done); auto.
  unfold phi_entry_ok in *. cbn [phi_extend fst snd] in *.
  apply andb_true_iff in Hd. destruct Hd as [-> _]. reflexivity.
Qed.

Lemma dict_keys_extend (done : list expr) (stack_rhs : list (expr * nat))
  (d : list (expr * expr)) :
  dict_keys (map (phi_extend_in done stack_rhs) d) = dict_keys d.
Proof.
  unfold dict_keys. rewrite map_map. apply map_ext. intros [k v].
  unfold phi_extend_in. cbn [fst]. now destruct (set_mem expr_eqb k done).
Qed.

Lemma rename_phi_rhs_succeeds (allowed : label -> Prop) (successor : label) (s : SSA) :
  phis_ok allowed (_phinodes s) ->
  exists s',
    SSADiGraph._rename_phi_rhs successor s = Ok s'
    /\ phis_ok allowed (_phinodes s') /\ untouched s s'.
Proof.
  intros Hok.
  assert (Hrun : exists s', SSADiGraph._rename_phi_rhs successor s = Ok s'
                            /\ phis_ok allowed (_phinodes s')).
  { unfold SSADiGraph._rename_phi_rhs, SSADiGraph.phinodes_keys.
    rewrite (fold_left_bind (SSADiGraph.rename_phi_rhs_dst successor)) by reflexivity.
    cbn [bind].
    destruct (dict_get Nat.eqb (_phinodes s) successor) as [d |] eqn:Hget.
    - destruct (proj2 Hok _ _ Hget) as (Hl & Hnd & He).
      pose proof (rename_phi_rhs_rounds successor s d Hnd He (dict_keys d) [] eq_refl) as H.
      assert (Hstart : map (phi_extend_in [] (_stack_rhs s)) d = d).
      { rewrite <- (map_id d) at 2. apply map_ext. reflexivity. }
      rewrite Hstart, (dict_set_present _ _ _ Hget) in H.
      replace (set_phinodes (_phinodes s) s) with s in H by now destruct s.
      rewrite H. eexists. split; [reflexivity |]. cbn [_phinodes set_phinodes].
      apply phis_ok_set; auto.
      + now rewrite dict_keys_extend.
      + now apply phi_entries_extend.
    - cbn [fold_m]. eauto. }
  destruct Hrun as (s' & Hrun & Hok'). exists s'. split; [exact Hrun |]. split; [exact Hok' |].
  apply rename_phi_rhs_phis_only in Hrun. apply Hrun.
Qed.

Lemma rename_phi_rhs_all_succeed (allowed : label -> Prop) (succs : list label) :
  forall s : SSA,
    phis_ok allowed (_phinodes s) ->
    exists s',
      fold_left (fun acc successor => s' <- acc ;; SSADiGraph._rename_phi_rhs successor s')
        succs (Ok s) = Ok s'
      /\ phis_ok allowed (_phinodes s') /\ untouched s s'.
Proof.
  induction succs as [| x succs IH]; intros s Hok; cbn [fold_left bind].
  - exists s. auto using untouched_refl.
  - destruct (rename_phi_rhs_succeeds allowed x s Hok) as (s1 & -> & Hok1 & U1).
    destruct (IH s1 Hok1) as (s' & Hrun & Hok' & U'). exists s'.
    split; [exact Hrun |]. split; [exact Hok' |]. eapply untouched_trans; eauto.
Qed.

Lemma copies_untouched (h : heap) (s s' : SSA) :
  untouched s s' -> owned h s -> labelled s -> copies_supported s ->
  owned h s' /\ labelled s' /\ copies_supported s'.
Proof.
  intros (Es & Eb & _) Hown Hlab Hsup. unfold owned, labelled, copies_supported.
  rewrite Es, Eb. auto.
Qed.

Section GraphSuccess.
Variable ira : IRA.
Variable h : heap.
Hypothesis Hwf : well_labelled ira h = true.

Lemma init_defs_walk_succeeds (full : list label) (walk : list label) :
  forall s : SSA,
    owned h s -> labelled s -> copies_supported s ->
    NoDup (dict_keys (defs s)) -> defs_within full (defs s) ->
    (forall lbl, In lbl walk -> In lbl full /\ renamable ira h lbl) ->
    exists s',
      SSADiGraph.init_defs_walk ira walk s = Ok s'
      /\ owned h s' /\ labelled s' /\ copies_supported s'
      /\ defs_within full (defs s').
Proof.
  induction walk as [| lbl rest IH]; intros s Hown Hlab Hsup Hnd Hin Hren;
    cbn [SSADiGraph.init_defs_walk].
  - eauto 10.
  - destruct (Hren lbl (or_introl eq_refl)) as [Hfull Hr].
    destruct (get_block_succeeds ira h Hwf lbl s Hown Hlab Hsup Hr)
      as (r & s1 & b & Hg & Hb & Hbl & _ & _ & Hown1 & Hlab1 & Hsup1).
    rewrite Hg. cbn [bind]. rewrite Hb.
    apply get_block_frame in Hg. destruct Hg as (_ & _ & _ & Hd & _).
    apply IH; auto.
    + cbn [defs set_defs]. apply init_defs_block_distinct. now rewrite Hd.
    + cbn [defs set_defs]. apply init_defs_block_within; rewrite ?Hd, ?Hbl; auto.
    + intros l Hl. apply Hren. now right.
Qed.

Variable allowed : label -> Prop.

Lemma rename_body_succeeds (lbl : label) (s : SSA) :
  ready h allowed s -> renamable ira h lbl ->
  exists s', rename_body ira lbl s = Ok s' /\ ready h allowed s'.
Proof.
  intros (Hown & Hlab & Hsup & Hok) Hren. unfold rename_body.
  destruct (rename_phi_lhs_succeeds allowed lbl s Hok) as (s1 & -> & Hok1 & U1).
  cbn [bind].
  destruct (copies_untouched h _ _ U1 Hown Hlab Hsup) as (Hown1 & Hlab1 & Hsup1).
  destruct (rename_expressions_succeeds ira h Hwf lbl s1 Hown1 Hlab1 Hsup1 Hren)
    as (s2 & Hrun & Hown2 & Hlab2 & Hsup2).
  rewrite Hrun. cbn [bind].
  apply rename_expressions_phinodes in Hrun. destruct Hrun as [P2 _].
  rewrite <- P2 in Hok1.
  destruct (rename_phi_rhs_all_succeed allowed (successors_iter ira lbl) s2 Hok1)
    as (s3 & Hrun3 & Hok3 & U3).
  exists s3. split; [exact Hrun3 |].
  destruct (copies_untouched h _ _ U3 Hown2 Hlab2 Hsup2) as (Hown3 & Hlab3 & Hsup3).
  unfold ready. auto.
Qed.

Lemma rename_tree_succeeds (t : tree) :
  (forall lbl, In lbl (preorder t) -> renamable ira h lbl) ->
  forall (rhs_stack : list (expr * nat)) (s : SSA),
    ready h allowed s ->
    exists s', rename_tree ira t rhs_stack s = Ok s' /\ ready h allowed s'.
Proof.
  induction t as [root children IH] using tree_ind_nested.
  intros Hren rhs_stack s Hready. rewrite rename_tree_eq.
  destruct (rename_body_succeeds root (set_stack_rhs rhs_stack s)) as (s1 & -> & Hready1).
  - exact Hready.
  - apply Hren. now left.
  - cbn [bind].
    assert (Hch : forall lbl, In lbl (flat_map preorder children) -> renamable ira h lbl)
      by (intros lbl Hl; apply Hren; now right).
    clear Hren Hready. generalize (_stack_rhs s1) as snap. revert s1 Hready1.
    induction children as [| c cs IHcs]; intros s1 Hready1 snap; cbn [rename_forest].
    + eauto.
    + inversion IH as [| ? ? Hc Hcs]; subst.
      destruct (Hc (fun lbl Hl => Hch lbl (in_or_app _ _ _ (or_introl Hl))) snap s1 Hready1)
        as (s2 & -> & Hready2).
      cbn [bind]. apply IHcs; auto.
      intros lbl Hl. apply Hch. cbn [flat_map]. apply in_or_app. now right.
Qed.

Lemma rename_succeeds (head : label) (t : tree) (s : SSA) :
  dominator_tree_walk ira head = preorder t -> agrees ira head t = true ->
  (forall lbl, In lbl (preorder t) -> renamable ira h lbl) ->
  ready h allowed s ->
  exists s', SSADiGraph._rename ira head s = Ok s' /\ ready h allowed s'.
Proof.
  intros Hwalk Hag Hren Hready. unfold SSADiGraph._rename. rewrite Hwalk.
  rewrite <- (app_nil_r (preorder t)). rewrite (rename_walk_tree ira head t Hag).
  destruct (rename_tree_succeeds t Hren (_stack_rhs s) s Hready) as (s' & -> & Hready').
  cbn [bind SSADiGraph.rename_walk]. eauto.
Qed.

Lemma phis_assignblk_In (phis : list (expr * expr)) :
  forall (acc : list (expr * expr)) (entry : expr * expr),
    In entry (fold_left (fun a phi => dict_set expr_eqb a (fst phi) (snd phi)) phis acc) ->
    In entry acc \/ In entry phis.
Proof.
  induction phis as [| [k v] phis IH]; intros acc entry; cbn [fold_left fst snd]; auto.
  intros H. apply IH in H. destruct H as [H | H]; [| right; now right].
  destruct entry as [k' v']. apply (dict_set_In_keyed expr_eqb expr_eqb_eq) in H.
  destruct H as [H | [-> ->]]; [now left | right; now left].
Qed.

Lemma phis_assignblk_supported (phis : list (expr * expr)) :
  forallb phi_entry_ok phis = true ->
  forallb (fun aff => supported_dst (fst aff))
    (fold_left (fun a phi => dict_set expr_eqb a (fst phi) (snd phi)) phis []) = true.
Proof.
  intros Hok. apply forallb_forall. intros entry Hin.
  apply phis_assignblk_In in Hin. destruct Hin as [[] | Hin].
  rewrite forallb_forall in Hok. specialize (Hok _ Hin).
  unfold phi_entry_ok in Hok. apply andb_true_iff in Hok. destruct Hok as [Hid _].
  now destruct (fst entry).
Qed.

Lemma convert_phi_blocks_succeeds (nodes : list (label * list (expr * expr))) :
  forall s : SSA,
    owned h s -> labelled s -> copies_supported s ->
    (forall lbl phis, In (lbl, phis) nodes ->
       renamable ira h lbl /\ forallb phi_entry_ok phis = true) ->
    exists s', SSADiGraph.convert_phi_blocks ira nodes s = Ok s'.
Proof.
  induction nodes as [| [lbl phis] nodes IH]; intros s Hown Hlab Hsup Hnodes;
    cbn [SSADiGraph.convert_phi_blocks].
  - eauto.
  - destruct (Hnodes lbl phis (or_introl eq_refl)) as [Hren Hphis].
    destruct (get_block_succeeds ira h Hwf lbl s Hown Hlab Hsup Hren)
      as (r & s1 & b & -> & Hb & Hbl & Hbs & Hr & Hown1 & Hlab1 & Hsup1).
    cbn [bind].
    set (a := fold_left (fun a phi => dict_set expr_eqb a (fst phi) (snd phi)) phis []).
    apply IH.
    + destruct Hown1 as [Hf Hbk]. split; cbn [store blocks set_store]; auto.
      rewrite firstn_insert_irs0 by exact Hr. exact Hf.
    + intros l r1 Hl. cbn [store blocks set_store] in *.
      destruct (Hlab1 _ _ Hl) as (b1 & Hb1 & Hbl1).
      destruct (Nat.eq_dec r r1) as [<- | Hne].
      * rewrite insert_irs0_at, Hb. eexists. split; [reflexivity |]. cbn [ib_label]. congruence.
      * exists b1. split; auto. now rewrite insert_irs0_other.
    + intros l r1 b1 Hl Hn. cbn [store blocks set_store] in *.
      destruct (Nat.eq_dec r r1) as [<- | Hne].
      * rewrite insert_irs0_at, Hb in Hn. injection Hn as <-.
        unfold block_supported in *. cbn [irs forallb].
        fold a. rewrite Hbs, andb_true_r. now apply phis_assignblk_supported.
      * rewrite insert_irs0_other in Hn by exact Hne. exact (Hsup1 _ _ _ Hl Hn).
    + intros l p Hin. apply Hnodes. now right.
Qed.

End GraphSuccess.
Lemma dict_In_get {V : Type} (d : list (label * V)) (k : label) (v : V) :
  NoDup (dict_keys d) -> In (k, v) d -> dict_get Nat.eqb d k = Some v.
Proof.
  induction d as [| [k1 v1] d IH]; simpl; [tauto |].
  intros Hnd. inversion Hnd as [| ? ? Hk Hd]; subst.
  intros [[= -> ->] | Hin].
  - now rewrite Nat.eqb_refl.
  - destruct (Nat.eqb k k1) eqn:E; auto.
    apply Nat.eqb_eq in E. subst. exfalso. apply Hk. apply in_map_iff. exists (k1, v). auto.
Qed.

(** The transform of a graph returns from every state in which the pass
    holds no copy, no definition and no phi function. *)
Lemma digraph_transform_succeeds_from (choose : list label -> nat) (fuel : nat) (ira : IRA)
  (h : heap) (head : label) (t : tree) (s : SSA) :
  well_labelled ira h = true ->
  dominator_tree_walk ira head = preorder t -> agrees ira head t = true ->
  (forall lbl,
     In lbl (walk_depth_first_forward ira head ++ preorder t
             ++ targets (compute_dominance_frontier ira head)) ->
     renamable ira h lbl) ->
  List.length (targets (compute_dominance_frontier ira head))
  + List.length (walk_depth_first_forward ira head) < fuel ->
  owned h s -> blocks s = [] -> defs s = [] -> _phinodes s = [] ->
  exists s', SSADiGraph.transform choose fuel ira head s = Ok s'.
Proof.
  intros Hwf Hwalk Hag Hren Hfuel Hown Hblocks Hdefs Hphis.
  set (frontier := compute_dominance_frontier ira head) in *.
  set (walk := walk_depth_first_forward ira head) in *.
  unfold SSADiGraph.transform, SSADiGraph._init_variable_defs. fold walk.
  destruct (init_defs_walk_succeeds ira h Hwf walk walk s)
    as (s1 & Hinit & Hown1 & Hlab1 & Hsup1 & Hin1).
  { exact Hown. }
  { intros lbl r Hl. rewrite Hblocks in Hl. discriminate Hl. }
  { intros lbl r b Hl. rewrite Hblocks in Hl. discriminate Hl. }
  { rewrite Hdefs. constructor. }
  { rewrite Hdefs. intros v blocks []. }
  { intros lbl Hl. split; auto. apply Hren. apply in_or_app. now left. }
  rewrite Hinit. cbn [bind].
  pose proof (init_defs_walk_phinodes _ _ _ _ Hinit) as Hp1. rewrite Hphis in Hp1.
  assert (Hnd1 : NoDup (dict_keys (defs s1))).
  { apply (init_defs_walk_distinct _ _ _ _ Hinit). rewrite Hdefs. constructor. }
  assert (Hids1 : defs_ok ira (defs s1)).
  { apply (init_defs_walk_ok _ _ _ _ Hinit). rewrite Hdefs. intros v []. }
  unfold SSADiGraph._place_phi. fold frontier.
  destruct (place_defs_correct choose frontier fuel (defs s1) Hnd1) with (phinodes := _phinodes s1)
    as (phinodes' & Hplace & _).
  { intros v blocks Hvb. destruct (Hin1 _ _ Hvb) as [Hn Hi].
    pose proof (NoDup_incl_length Hn Hi) as Hle. unfold label in *. lia. }
  rewrite Hplace. cbn [bind].
  assert (Hok2 : phis_ok (fun n => In n (targets frontier)) phinodes').
  { apply (place_defs_phis_ok choose frontier fuel (defs s1)) with (phinodes := _phinodes s1);
      auto.
    - intros v Hv. apply (Hids1 v Hv).
    - rewrite Hp1. split; [constructor | intros lbl d Hl; discriminate Hl]. }
  destruct (rename_succeeds ira h Hwf (fun n => In n (targets frontier)) head t
              (set_phinodes phinodes' s1) Hwalk Hag)
    as (s3 & -> & Hown3 & Hlab3 & Hsup3 & Hok3).
  { intros lbl Hl. apply Hren. apply in_or_app. right. apply in_or_app. now left. }
  { unfold ready. auto. }
  cbn [bind]. unfold SSADiGraph._convert_phi. rewrite insert_phi_phinodes.
  destruct (copies_untouched h _ _ (insert_phi_untouched s3) Hown3 Hlab3 Hsup3)
    as (Hown4 & Hlab4 & Hsup4).
  apply (convert_phi_blocks_succeeds ira h Hwf); auto.
  intros lbl phis Hin. destruct Hok3 as [Hnd3 Hok3].
  destruct (Hok3 _ _ (dict_In_get _ _ _ Hnd3 Hin)) as (Ht & _ & He).
  split; [| exact He]. apply Hren. apply in_or_app. right. apply in_or_app. now right.
Qed.

(** X19: the transform of a graph by a new instance returns. The IRA
    holds, under its own label, every block of the walk from the head, of
    the dominator tree and of the dominance frontiers, each with identifier
    and memory destinations only; the walk of the dominator tree is the
    depth-first pre-order of a tree whose blocks have as many successors as
    children; and the fuel exceeds the number of frontier entries plus the
    length of the walk, whatever the order in which the worklist is
    popped. *)
Theorem digraph_transform_succeeds (choose : list label -> nat) (fuel : nat) (ira : IRA)
  (h : heap) (head : label) (t : tree) :
  well_labelled ira h = true ->
  dominator_tree_walk ira head = preorder t -> agrees ira head t = true ->
  (forall lbl,
     In lbl (walk_depth_first_forward ira head ++ preorder t
             ++ targets (compute_dominance_frontier ira head)) ->
     renamable ira h lbl) ->
  List.length (targets (compute_dominance_frontier ira head))
  + List.length (walk_depth_first_forward ira head) < fuel ->
  exists s', SSADiGraph.transform choose fuel ira head (init h) = Ok s'.
Proof.
  intros Hwf Hwalk Hag Hren Hfuel.
  apply (digraph_transform_succeeds_from choose fuel ira h head t (init h)); auto.
  split; [apply firstn_all | intros lbl r []].
Qed.

Lemma digraph_transform_succeeds_witness :
  exists s', SSADiGraph.transform pop_first 7 diamond 0 (init diamond_store) = Ok s'.
Proof.
  apply (digraph_transform_succeeds pop_first 7 diamond diamond_store 0 diamond_tree).
  - reflexivity.
  - reflexivity.
  - reflexivity.
  - intros lbl Hl. vm_compute in Hl.
    repeat (destruct Hl as [<- | Hl];
            [eexists _, _; (split; [reflexivity | split; reflexivity]) |]).
    destruct Hl.
  - vm_compute. lia.
Defined.

(** ** An instance used again *)

Lemma reset_owned (h : heap) (s : SSA) : owned h s -> owned h (reset s).
Proof. intros [Hf _]. split; [exact Hf | intros lbl r []]. Qed.

(** X20: after [reset], an instance that has transformed blocks before
    can transform a path again: the blocks of the IRA being what they were
    (the pass writes its copies only), the transform returns under the
    condition of a new instance, the versions start again from the counters
    of an empty stack, and the pass still owns its copies only. *)
Theorem reset_path_transform (ira : IRA) (h : heap) (path : list label) (s : SSA) :
  well_labelled ira h = true -> owned h s ->
  (forall lbl, In lbl path -> renamable ira h lbl) ->
  exists s',
    SSAPath.transform ira path (reset s) = Ok s'
    /\ owned h s' /\ paired s' /\ fresh_keys s'.
Proof.
  intros Hwf Hown Hren.
  destruct (path_transform_succeeds_from ira h Hwf path (reset s)) as (s' & Hrun & Hown');
    auto using reset_owned.
  - intros lbl r Hl. discriminate Hl.
  - intros lbl r b Hl. discriminate Hl.
  - exists s'. split; [exact Hrun |]. split; [exact Hown' |]. split.
    + apply (path_transform_paired_rel ira path (reset s) s'); [| exact Hrun].
      intros v. reflexivity.
    + apply (path_transform_write_once_rel _ _ _ _ Hrun). intros n c size [].
Qed.

Lemma reset_path_transform_witness :
  exists s',
    SSAPath.transform diamond [0; 1] (reset diamond_path_end) = Ok s'
    /\ owned diamond_store s' /\ paired s' /\ fresh_keys s'.
Proof.
  apply (reset_path_transform diamond diamond_store [0; 1] diamond_path_end).
  - reflexivity.
  - split; [vm_compute; reflexivity |].
    intros lbl r Hin. vm_compute in Hin.
    repeat (destruct Hin as [[= <- <-] | Hin]; [vm_compute; lia |]). destruct Hin.
  - intros lbl [<- | [<- | []]]; eexists _, _;
      (split; [reflexivity | split; reflexivity]).
Defined.

(** X21: after [reset] of an [SSADiGraph], the transform of a graph
    returns again under the conditions of a new instance, whatever the
    instance has transformed before, the blocks of the IRA being what they
    were. *)
Theorem reset_digraph_transform (choose : list label -> nat) (fuel : nat) (ira : IRA)
  (h : heap) (head : label) (t : tree) (s : SSA) :
  well_labelled ira h = true -> owned h s ->
  dominator_tree_walk ira head = preorder t -> agrees ira head t = true ->
  (forall lbl,
     In lbl (walk_depth_first_forward ira head ++ preorder t
             ++ targets (compute_dominance_frontier ira head)) ->
     renamable ira h lbl) ->
  List.length (targets (compute_dominance_frontier ira head))
  + List.length (walk_depth_first_forward ira head) < fuel ->
  exists s', SSADiGraph.transform choose fuel ira head (digraph_reset s) = Ok s'.
Proof.
  intros Hwf Hown Hwalk Hag Hren Hfuel.
  apply (digraph_transform_succeeds_from choose fuel ira h head t (digraph_reset s)); auto.
  destruct Hown as [Hf _]. split; [exact Hf | intros lbl r []].
Qed.

Lemma reset_digraph_transform_witness :
  exists s',
    SSADiGraph.transform pop_first 7 diamond 0 (digraph_reset diamond_transformed) = Ok s'.
Proof.
  apply (reset_digraph_transform pop_first 7 diamond diamond_store 0 diamond_tree
           diamond_transformed).
  - reflexivity.
  - split; [vm_compute; reflexivity |].
    intros lbl r Hin. vm_compute in Hin.
    repeat (destruct Hin as [[= <- <-] | Hin]; [vm_compute; lia |]). destruct Hin.
  - reflexivity.
  - reflexivity.
  - intros lbl Hl. vm_compute in Hl.
    repeat (destruct Hl as [<- | Hl];
            [eexists _, _; (split; [reflexivity | split; reflexivity]) |]).
    destruct Hl.
  - vm_compute. lia.
Defined.
